(** * Porting a legacy translation to the 2025 key set

    A shallow embedding of [scripts/port_translation.py] and the properties
    its specification states about it.

    Python strings are sequences of Unicode code points: a character is
    modelled by its code point, a string by the list of its characters.
    Dictionaries keyed by strings are finite maps, sets are finite sets. *)

From Stdlib Require Import NArith String Ascii.
From stdpp Require Import base option list gmap sets fin_maps.

Local Open Scope N_scope.

(** ** Text *)

Abbreviation char := N (only parsing).
Abbreviation text := (list N) (only parsing).

(** The characters of a literal of the source. *)
Definition str (s : string) : text :=
  List.map N_of_ascii (list_ascii_of_string s).
Arguments str : simpl never.

(** The double quote, [chr(34)]. *)
Definition dquote : N := 34.
(** [>] *)
Definition gt : N := 62.

(** Python's slice [s[a:b]] for [0 <= a] (empty when [b <= a]) and [s[a:]]. *)
Definition slice (s : text) (a b : nat) : text := take (b - a) (drop a s).
Definition slice_from (s : text) (a : nat) : text := drop a s.

(** [str.startswith]. *)
Fixpoint startswith (p s : text) : bool :=
  match p, s with
  | [], _ => true
  | c :: p', d :: s' => if N.eqb c d then startswith p' s' else false
  | _ :: _, [] => false
  end.
Arguments startswith : simpl never.

(** ** Regular expressions

    The fragment of Python's [re] syntax the script uses, with the matching
    order of a backtracking matcher: a greedy repeat tries the longest run
    first, a lazy one the shortest, and the first way of matching the whole
    pattern that succeeds is the match. *)

Module Re.

Inductive regex : Type :=
| Lit (l : text)                 (* a run of literal characters *)
| Cls (p : N -> bool)            (* one character of a set: [\s], [[^>]], [.] *)
| Star (p : N -> bool)           (* [p*], greedy *)
| Plus (p : N -> bool)           (* [p+], greedy *)
| LazyStar (p : N -> bool)       (* [p*?] *)
| Seq (r1 r2 : regex)
| Opt (r : regex)                (* [(r)?], greedy *)
| Group (i : nat) (r : regex).   (* capturing group number [i] *)

(** Character sets. *)
Definition any : N -> bool := fun _ => true.
Definition no (c : N) : N -> bool := fun d => negb (N.eqb d c).
(** [\s] on [str] patterns: the characters for which [str.isspace()] holds. *)
Definition is_space (c : N) : bool :=
  ((9 <=? c) && (c <=? 13)) || ((28 <=? c) && (c <=? 32))
  || (c =? 133) || (c =? 160) || (c =? 5760)
  || ((8192 <=? c) && (c <=? 8202))
  || (c =? 8232) || (c =? 8233) || (c =? 8239) || (c =? 8287) || (c =? 12288).

(** The text of the groups that took part in a match, by group number. *)
Abbreviation groups := (list (nat * list N)) (only parsing).

Fixpoint get_group (i : nat) (g : groups) : option text :=
  match g with
  | [] => None
  | (j, t) :: g' => if Nat.eqb i j then Some t else get_group i g'
  end.

Definition set_group (i : nat) (t : text) (g : groups) : groups := (i, t) :: g.

(** What was read between the input [s] and the rest [s'] of it. *)
Definition consumed (s s' : text) : text := take (length s - length s') s.

Fixpoint strip_prefix (l s : text) : option text :=
  match l, s with
  | [], _ => Some s
  | c :: l', d :: s' => if N.eqb c d then strip_prefix l' s' else None
  | _ :: _, [] => None
  end.

Section Matcher.
Context {R : Type}.

(** Greedy repeat of a character set, then the rest [k] of the pattern:
    the longest run first, giving back one character at a time. *)
Fixpoint rep_greedy (p : N -> bool) (s : text) (k : text -> option R) : option R :=
  match s with
  | c :: s' =>
      if p c then
        match rep_greedy p s' k with
        | Some r => Some r
        | None => k s
        end
      else k s
  | [] => k []
  end.

(** Lazy repeat: the shortest run first, taking one more character each time
    the rest of the pattern fails. *)
Fixpoint rep_lazy (p : N -> bool) (s : text) (k : text -> option R) : option R :=
  match k s with
  | Some r => Some r
  | None =>
      match s with
      | c :: s' => if p c then rep_lazy p s' k else None
      | [] => None
      end
  end.

(** [rmatch r s g k]: match [r] at the head of [s] with the groups [g] set so
    far, then the rest [k] of the pattern on what is left. *)
Fixpoint rmatch (r : regex) (s : text) (g : groups)
    (k : text -> groups -> option R) : option R :=
  match r with
  | Lit l =>
      match strip_prefix l s with
      | Some s' => k s' g
      | None => None
      end
  | Cls p =>
      match s with
      | c :: s' => if p c then k s' g else None
      | [] => None
      end
  | Star p => rep_greedy p s (fun s' => k s' g)
  | Plus p =>
      match s with
      | c :: s' => if p c then rep_greedy p s' (fun s' => k s' g) else None
      | [] => None
      end
  | LazyStar p => rep_lazy p s (fun s' => k s' g)
  | Seq r1 r2 => rmatch r1 s g (fun s1 g1 => rmatch r2 s1 g1 k)
  | Opt r1 =>
      match rmatch r1 s g k with
      | Some x => Some x
      | None => k s g
      end
  | Group i r1 => rmatch r1 s g (fun s' g' => k s' (set_group i (consumed s s') g'))
  end.

End Matcher.

(** [pattern.match] at the head of [s]: the rest of the input and the groups. *)
Definition match_at (r : regex) (s : text) : option (text * groups) :=
  rmatch r s [] (fun s' g => Some (s', g)).

(** A match object: its span in the searched string, [group(0)] and the
    numbered groups. *)
Record Match : Type := mkMatch {
  m_start : nat;
  m_end : nat;
  m_group0 : text;
  m_groups : list (nat * list N)
}.

Definition group (m : Match) (i : nat) : option text :=
  match i with
  | O => Some (m_group0 m)
  | _ => get_group i (m_groups m)
  end.

(** [pattern.finditer]: the matches from left to right, each search starting
    where the previous match ended. (The patterns of this script never match
    the empty string; after an empty match the search moves on by one
    character.) [fuel] bounds the number of searches. *)
Fixpoint finditer_from (fuel : nat) (r : regex) (pos : nat) (s : text) : list Match :=
  match fuel with
  | O => []
  | S fuel' =>
      match match_at r s with
      | Some (s', g) =>
          let n := (length s - length s')%nat in
          mkMatch pos (pos + n) (consumed s s') g ::
            match n with
            | O => match s with
                   | [] => []
                   | _ :: s1 => finditer_from fuel' r (S pos) s1
                   end
            | S _ => finditer_from fuel' r (pos + n) s'
            end
      | None =>
          match s with
          | [] => []
          | _ :: s1 => finditer_from fuel' r (S pos) s1
          end
      end
  end.

Definition finditer (r : regex) (s : text) : list Match :=
  finditer_from (S (length s)) r 0 s.

(** [pattern.sub(repl, s)] for a replacement without group references. *)
Fixpoint sub_from (fuel : nat) (r : regex) (repl : text) (s : text) : text :=
  match fuel with
  | O => s
  | S fuel' =>
      match match_at r s with
      | Some (s', _) =>
          match (length s - length s')%nat with
          | O => match s with
                 | [] => repl
                 | c :: s1 => repl ++ c :: sub_from fuel' r repl s1
                 end
          | S _ => repl ++ sub_from fuel' r repl s'
          end
      | None =>
          match s with
          | [] => []
          | c :: s1 => c :: sub_from fuel' r repl s1
          end
      end
  end.

Definition sub (r : regex) (repl s : text) : text :=
  sub_from (S (length s)) r repl s.

End Re.

Infix "&>" := Re.Seq (at level 60, right associativity).

(** [STRING_RE], compiled with [re.DOTALL]. Writing Q for the double quote,
    the pattern is
    [(<string\s+[^>]*name=Q(?P<name>[^Q]+)Q[^>]*>)(?P<body>.*?)(</string>)].
    The named groups [name] and [body] are groups 2 and 3. *)
Definition STRING_OPEN : text := Eval cbv in str "<string".
Definition NAME_EQ : text := Eval cbv in str "name=" ++ [dquote].
Definition STRING_CLOSE : text := Eval cbv in str "</string>".
Definition g_name : nat := 2.
Definition g_body : nat := 3.

Definition STRING_RE : Re.regex :=
  Re.Group 1
    (Re.Lit STRING_OPEN &> Re.Plus Re.is_space &> Re.Star (Re.no gt) &>
     Re.Lit NAME_EQ &> Re.Group g_name (Re.Plus (Re.no dquote)) &>
     Re.Lit [dquote] &> Re.Star (Re.no gt) &> Re.Lit [gt]) &>
  Re.Group g_body (Re.LazyStar Re.any) &>
  Re.Group 4 (Re.Lit STRING_CLOSE).

(** ** Library values

    [xml.etree.ElementTree.Element]: tag, attributes, the text before the
    first child ([None] or a string), the children, and the text after the
    element's end tag. *)
#[warnings="-register-all"]
Inductive Element : Type :=
  mkElement (tag : text) (attrib : gmap (list N) (list N))
            (e_text : option text) (children : list Element)
            (e_tail : option text).

Definition elem_tag (e : Element) : text :=
  match e with mkElement t _ _ _ _ => t end.
Definition elem_attrib (e : Element) : gmap (list N) (list N) :=
  match e with mkElement _ a _ _ _ => a end.
Definition elem_text (e : Element) : option text :=
  match e with mkElement _ _ t _ _ => t end.
Definition elem_children (e : Element) : list Element :=
  match e with mkElement _ _ _ c _ => c end.

(** What the script takes from Python's libraries as it is. *)
Class Library : Type := {
  (** [\w] of [re] on [str] patterns *)
  is_word : N -> bool;
  (** [ET.tostring(elem, encoding="unicode")] *)
  tostring : Element -> text;
  (** the root of [ET.parse] for a file of this content; [None]: it raises *)
  et_parse : text -> option Element;
  (** the rows [csv.reader] yields for a file of this content, up to the
      row at which it raises [csv.Error], when it does *)
  csv_reader : text -> list (list (list N));
  (** whether, after these rows, [csv.reader] raises [csv.Error] (a field
      over the field size limit, say) instead of stopping *)
  csv_error : text -> bool
}.

(** Exceptions the script raises or lets through: the [ValueError] of
    [load_mapping] with the header it found, the [KeyError] of a missing
    attribute, [OSError] and [UnicodeDecodeError] of the file operations, the
    XML parser's [ParseError] and the reader's [csv.Error]. *)
Inductive exn : Type :=
| ValueError (fieldnames : option (list (list N)))
| KeyError (key : text)
| OSError
| UnicodeDecodeError
| ParseError
| CsvError.

(** ** The file system

    [pathlib.Path] and the file operations of [pathlib] and [shutil]. *)
Class FileSystem : Type := {
  fs : Type;
  path : Type;
  path_div : path -> text -> path;
  path_parent : path -> path;
  fs_exists : fs -> path -> bool;
  fs_read_text : fs -> path -> option text;
  (** the file is there to read, and is not UTF-8 text *)
  fs_not_utf8 : fs -> path -> bool;
  fs_write_text : path -> text -> fs -> option fs;
  fs_mkdir : path -> fs -> option fs;
  fs_move : path -> path -> fs -> option fs;
  fs_copy2 : path -> path -> fs -> option fs
}.

(** What the script relies on: an operation that returns has left in place
    what was there, and a move has put something at its destination. *)
Class FileSystemLaws `{FileSystem} : Prop := {
  fs_write_exists : forall p t s s' q,
    fs_write_text p t s = Some s' -> fs_exists s q = true -> fs_exists s' q = true;
  fs_mkdir_exists : forall p s s' q,
    fs_mkdir p s = Some s' -> fs_exists s q = true -> fs_exists s' q = true;
  fs_copy2_exists : forall p p' s s' q,
    fs_copy2 p p' s = Some s' -> fs_exists s q = true -> fs_exists s' q = true;
  fs_move_exists : forall src dst s s',
    fs_move src dst s = Some s' -> fs_exists s' dst = true
}.

Infix "</>" := path_div (at level 40, left associativity).

(** ** The script's state: the files and what was printed *)

Inductive stream : Type := Stdout | Stderr.

(** The result of a call: a value or an exception. *)
Inductive res (A : Type) : Type :=
| Ok (a : A)
| Raise (e : exn).
Arguments Ok {A} a.
Arguments Raise {A} e.

Section Script.
Context `{FileSystem} `{Library}.

(** The lines the script prints, by their format string. *)
Inductive line : Type :=
| MissingBase (base_strings : path)
| MissingLangDir (lang_dir : path)
| LegacyExists (legacy_dir : path)
| MissingMapping (mapping_path : path)
| Moving (lang_dir legacy_dir : path)
| Creating (lang_dir : path)
| LoadingMapping
| LoadingLegacy (legacy_strings_path : path)
| MissingLegacyStrings (legacy_strings_path : path)
| Applied (n : nat)
| Kept (n : nat)
| UsedDefaults (n : nat)
| SkippedOld (n : nat)
| SkippedNew (n : nat).

Record world : Type := mkWorld {
  w_fs : fs;
  w_out : list (stream * line)
}.

(** A computation: a result or an exception, and the state it leaves. *)
Definition M (A : Type) : Type := world -> res A * world.

Definition ret {A} (a : A) : M A := fun w => (Ok a, w).
Definition bind {A B} (m : M A) (f : A -> M B) : M B :=
  fun w =>
    match m w with
    | (Ok a, w') => f a w'
    | (Raise e, w') => (Raise e, w')
    end.
Definition raise {A} (e : exn) : M A := fun w => (Raise e, w).

Definition print (to : stream) (l : line) : M unit :=
  fun w => (Ok tt, mkWorld (w_fs w) (w_out w ++ [(to, l)])).
Definition path_exists (p : path) : M bool :=
  fun w => (Ok (fs_exists (w_fs w) p), w).
(** [Path.read_text(encoding="utf-8")]: the text, [UnicodeDecodeError] for a
    file that is not UTF-8 text, [OSError] for one that cannot be read. *)
Definition read_text (p : path) : M text :=
  fun w =>
    match fs_read_text (w_fs w) p with
    | Some t => (Ok t, w)
    | None =>
        (Raise (if fs_not_utf8 (w_fs w) p then UnicodeDecodeError else OSError), w)
    end.
(** A file operation: the new files, or [OSError] and the files as they were. *)
Definition file_op (op : fs -> option fs) : M unit :=
  fun w =>
    match op (w_fs w) with
    | Some s' => (Ok tt, mkWorld s' (w_out w))
    | None => (Raise OSError, w)
    end.
Definition write_text (p : path) (t : text) : M unit := file_op (fs_write_text p t).
Definition mkdir (p : path) : M unit := file_op (fs_mkdir p).
Definition move (src dst : path) : M unit := file_op (fs_move src dst).
Definition copy2 (src dst : path) : M unit := file_op (fs_copy2 src dst).

End Script.

Notation "x <- m ;; k" := (bind m (fun x => k))
  (at level 100, m at next level, right associativity).
Notation "m ;;; k" := (bind m (fun _ => k))
  (at level 100, right associativity).

(** ** The script *)

Record PortStats : Type := mkPortStats {
  applied : nat;
  fallback_existing : nat;
  fallback_default : nat;
  missing_old : gset (option (list N));
  missing_new : gset (list N)
}.

(** [PortStats()]: the counters at zero, and [__post_init__]'s empty sets. *)
Definition PortStats_new : PortStats := mkPortStats 0 0 0 ∅ ∅.

(** What [parse_args] returns. *)
Record Namespace : Type := mkNamespace { language : text }.

Definition NEW_KEY : text := Eval cbv in str "new_key".
Definition OLD_KEY : text := Eval cbv in str "old_key".
Definition LEGACY_PREFIX : text := Eval cbv in str "legacy_".
Definition STRINGS_XML : text := Eval cbv in str "strings.xml".

(** [csv.DictReader]: the field names are the reader's first row ([None] for
    an empty file); the rows after it, blank ones left out, are read by field
    name, a field the row is too short for being [None]. *)
Definition dr_fieldnames (reader : list (list (list N))) : option (list text) :=
  head reader.
Definition dr_rows (reader : list (list (list N))) : list (list text) :=
  filter (fun row => row <> []) (tail reader).
Fixpoint last_index (key : text) (l : list text) (i : nat) : option nat :=
  match l with
  | [] => None
  | f :: l' =>
      match last_index key l' (S i) with
      | Some j => Some j
      | None => if decide (f = key) then Some i else None
      end
  end.
Definition row_get (fieldnames row : list text) (key : text) : option text :=
  match last_index key fieldnames 0 with
  | Some i => row !! i
  | None => None
  end.

(** [f"values-{lang}"] *)
Definition values_folder (lang : text) : text := str "values-" ++ lang.
Arguments values_folder : simpl never.

(** [match.group(i)] of a group that took part in the match. *)
Definition group_str (m : Re.Match) (i : nat) : text :=
  default [] (Re.group m i).

(** [if s:] on a value that is a string or [None]. *)
Definition truthy (o : option text) : bool :=
  match o with
  | Some (_ :: _) => true
  | _ => false
  end.

(** [d.get(k)] for a key that is a string or [None]. *)
Definition dict_get {V} (d : gmap (list N) V) (k : option (list N)) : option V :=
  k ≫= (fun k => d !! k).

Section Port.
Context `{FileSystem} `{Library}.

(** The pattern of [element_inner_xml]'s [re.sub], with Q for the double
    quote: [\s+xmlns(:\w+)?=Q[^Q]+Q]. *)
Definition XMLNS_RE : Re.regex :=
  Re.Plus Re.is_space &> Re.Lit (str "xmlns") &>
  Re.Opt (Re.Group 1 (Re.Lit (str ":") &> Re.Plus is_word)) &>
  Re.Lit (str "=" ++ [dquote]) &> Re.Plus (Re.no dquote) &> Re.Lit [dquote].

Definition element_inner_xml (elem : Element) : text :=
  let parts : list text :=
    if truthy (elem_text elem) then [default [] (elem_text elem)] else [] in
  let parts :=
    foldl (fun parts child =>
             let child_xml := tostring child in
             let child_xml := Re.sub XMLNS_RE [] child_xml in
             parts ++ [child_xml])
          parts (elem_children elem) in
  concat parts.

(** Return a map of string names to their raw inner XML bodies. *)
Definition parse_string_bodies (content : text) : gmap (list N) (list N) :=
  foldl (fun d m => <[group_str m g_name := group_str m g_body]> d)
        ∅ (Re.finditer STRING_RE content).

(** Read the CSV mapping and return (new_key, old_key) tuples.
    [reader.fieldnames] reads the first row, and the loop the other rows to
    the end: the reader's error comes out of the first when the reader has no
    row before it, and out of the second otherwise, the rows read so far
    lost. *)
Definition load_mapping (p : path) : M (list (list N * option (list N))) :=
  content <- read_text p ;;
  let reader := csv_reader content in
  if bool_decide (reader = []) && csv_error content then raise CsvError else
  if decide (dr_fieldnames reader = Some [NEW_KEY; OLD_KEY]) then
    let rows :=
      foldl (fun rows row =>
               rows ++ [(default [] (row_get [NEW_KEY; OLD_KEY] row NEW_KEY),
                         row_get [NEW_KEY; OLD_KEY] row OLD_KEY)])
            [] (dr_rows reader) in
    if csv_error content then raise CsvError else ret rows
  else raise (ValueError (dr_fieldnames reader)).

(** Load the current locale strings (before porting) for fallback use. *)
Definition read_existing_strings (lang_dir : path) : M (gmap (list N) (list N)) :=
  let source_strings_path := lang_dir </> STRINGS_XML in
  e <- path_exists source_strings_path ;;
  if negb e then ret ∅
  else
    existing_content <- read_text source_strings_path ;;
    ret (parse_string_bodies existing_content).

(** One turn of [rewrite_strings]'s loop, on [(new_content_parts, last_idx)]. *)
Definition rewrite_step (target_content : text)
    (replacements : gmap (list N) (list N))
    (st : list (list N) * nat) (m : Re.Match) : list (list N) * nat :=
  let '(new_content_parts, last_idx) := st in
  let name := group_str m g_name in
  let new_body := replacements !! name in
  let new_content_parts :=
    new_content_parts ++ [slice target_content last_idx (Re.m_start m)] in
  let new_content_parts :=
    match new_body with
    | None => new_content_parts ++ [group_str m 0]
    | Some new_body =>
        new_content_parts ++ [group_str m 1] ++ [new_body] ++ [group_str m 4]
    end in
  (new_content_parts, Re.m_end m).

(** The text [rewrite_strings] writes when it writes. *)
Definition rewritten (target_content : text)
    (replacements : gmap (list N) (list N)) : text :=
  let '(new_content_parts, last_idx) :=
    foldl (rewrite_step target_content replacements) ([], 0%nat)
          (Re.finditer STRING_RE target_content) in
  let new_content_parts :=
    new_content_parts ++ [slice_from target_content last_idx] in
  concat new_content_parts.

(** Apply the replacements to the base XML while preserving its formatting. *)
Definition rewrite_strings (target_content : text)
    (replacements : gmap (list N) (list N)) (destination : path) : M unit :=
  if decide (replacements = ∅) then ret tt
  else write_text destination (rewritten target_content replacements).

(** One turn of [apply_mappings]'s first loop, on [(replacements, stats)]. *)
Definition resolve_pair
    (legacy_strings : gmap (list N) Element)
    (existing_strings : gmap (list N) (list N))
    (match_map : gmap (list N) Re.Match)
    (default_bodies : gmap (list N) (list N))
    (st : gmap (list N) (list N) * PortStats)
    (pair : list N * option (list N)) : gmap (list N) (list N) * PortStats :=
  let '(replacements, stats) := st in
  let '(new_key, old_key) := pair in
  match match_map !! new_key with
  | None =>
      (replacements,
       mkPortStats (applied stats) (fallback_existing stats) (fallback_default stats)
                   (missing_old stats) ({[new_key]} ∪ missing_new stats))
  | Some _ =>
      match dict_get legacy_strings old_key with
      | Some legacy_elem =>
          (<[new_key := element_inner_xml legacy_elem]> replacements,
           mkPortStats (S (applied stats)) (fallback_existing stats)
                       (fallback_default stats) (missing_old stats) (missing_new stats))
      | None =>
          match existing_strings !! new_key with
          | Some fallback =>
              (<[new_key := fallback]> replacements,
               mkPortStats (applied stats) (S (fallback_existing stats))
                           (fallback_default stats)
                           ({[old_key]} ∪ missing_old stats) (missing_new stats))
          | None =>
              (<[new_key := default [] (default_bodies !! new_key)]> replacements,
               mkPortStats (applied stats) (fallback_existing stats)
                           (S (fallback_default stats))
                           ({[old_key]} ∪ missing_old stats) (missing_new stats))
          end
      end
  end.

(** One turn of [apply_mappings]'s second loop, over [existing_strings.items()]. *)
Definition carry_existing (match_map : gmap (list N) Re.Match)
    (key : list N) (body : list N)
    (replacements : gmap (list N) (list N)) : gmap (list N) (list N) :=
  if startswith LEGACY_PREFIX key
     || bool_decide (is_Some (replacements !! key))
     || negb (bool_decide (is_Some (match_map !! key)))
  then replacements
  else <[key := body]> replacements.

(** The state after [apply_mappings]'s first loop. *)
Definition mapping_pass
    (mappings : list (list N * option (list N)))
    (legacy_strings : gmap (list N) Element)
    (existing_strings : gmap (list N) (list N))
    (match_map : gmap (list N) Re.Match)
    (default_bodies : gmap (list N) (list N))
    : gmap (list N) (list N) * PortStats :=
  foldl (resolve_pair legacy_strings existing_strings match_map default_bodies)
        (∅, PortStats_new) mappings.

(** Resolve each mapping to either a legacy translation, existing text, or
    fallback. *)
Definition apply_mappings
    (mappings : list (list N * option (list N)))
    (legacy_strings : gmap (list N) Element)
    (existing_strings : gmap (list N) (list N))
    (match_map : gmap (list N) Re.Match)
    (default_bodies : gmap (list N) (list N))
    : gmap (list N) (list N) * PortStats :=
  let '(replacements, stats) :=
    mapping_pass mappings legacy_strings existing_strings match_map default_bodies in
  let replacements :=
    map_fold (carry_existing match_map) replacements existing_strings in
  (replacements, stats).

Definition print_if (b : bool) (l : line) : M unit :=
  if b then print Stdout l else ret tt.

Definition report_stats (stats : PortStats) : M unit :=
  print Stdout (Applied (applied stats)) ;;;
  print_if (negb (Nat.eqb (fallback_existing stats) 0))
           (Kept (fallback_existing stats)) ;;;
  print_if (negb (Nat.eqb (fallback_default stats) 0))
           (UsedDefaults (fallback_default stats)) ;;;
  print_if (negb (Nat.eqb (size (missing_old stats)) 0))
           (SkippedOld (size (missing_old stats))) ;;;
  print_if (negb (Nat.eqb (size (missing_new stats)) 0))
           (SkippedNew (size (missing_new stats))).

(** [root.findall(tag)]: the children of [root] with this tag. *)
Definition findall (root : Element) (tag : text) : list Element :=
  filter (fun e => elem_tag e = tag) (elem_children root).

(** [{elem.attrib[key]: elem for elem in elems}]; [KeyError] at the first
    element without the attribute. *)
Definition by_attrib (key : text) (elems : list Element) : res (gmap (list N) Element) :=
  foldl (fun acc elem =>
           match acc with
           | Raise e => Raise e
           | Ok d =>
               match elem_attrib elem !! key with
               | Some n => Ok (<[n := elem]> d)
               | None => Raise (KeyError key)
               end
           end)
        (Ok ∅) elems.

Definition lift {A} (r : res A) : M A := fun w => (r, w).

(** The archive of a language: [translations_dir / "legacy" / f"values-{lang}"]. *)
Definition archive_dir (script_file : path) (lang : text) : path :=
  path_parent (path_parent script_file) </> str "legacy" </> values_folder lang.

(** [main], for the script file at [script_file] (Python's [__file__],
    resolved) and the parsed arguments [args]. *)
Definition main (script_file : path) (args : Namespace) : M nat :=
  let lang := language args in
  let scripts_dir := path_parent script_file in
  let translations_dir := path_parent scripts_dir in
  let mapping_path := scripts_dir </> str "mapping_2025.csv" in
  let base_strings := translations_dir </> str "values" </> STRINGS_XML in
  let lang_folder_name := values_folder lang in
  let lang_dir := translations_dir </> lang_folder_name in
  let legacy_dir := translations_dir </> str "legacy" </> lang_folder_name in
  base_ok <- path_exists base_strings ;;
  if negb base_ok then print Stderr (MissingBase base_strings) ;;; ret 1%nat else
  lang_ok <- path_exists lang_dir ;;
  if negb lang_ok then print Stderr (MissingLangDir lang_dir) ;;; ret 1%nat else
  legacy_there <- path_exists legacy_dir ;;
  if legacy_there then print Stderr (LegacyExists legacy_dir) ;;; ret 1%nat else
  mapping_ok <- path_exists mapping_path ;;
  if negb mapping_ok then print Stderr (MissingMapping mapping_path) ;;; ret 1%nat else
  existing_strings <- read_existing_strings lang_dir ;;
  mkdir (path_parent legacy_dir) ;;;
  print Stdout (Moving lang_dir legacy_dir) ;;;
  move lang_dir legacy_dir ;;;
  print Stdout (Creating lang_dir) ;;;
  mkdir lang_dir ;;;
  let target_strings_path := lang_dir </> STRINGS_XML in
  copy2 base_strings target_strings_path ;;;
  print Stdout LoadingMapping ;;;
  mappings <- load_mapping mapping_path ;;
  print Stdout (LoadingLegacy (legacy_dir </> STRINGS_XML)) ;;;
  let legacy_strings_path := legacy_dir </> STRINGS_XML in
  legacy_ok <- path_exists legacy_strings_path ;;
  if negb legacy_ok then
    print Stderr (MissingLegacyStrings legacy_strings_path) ;;; ret 1%nat
  else
  legacy_content <- read_text legacy_strings_path ;;
  legacy_root <-
    match et_parse legacy_content with
    | Some root => ret root
    | None => raise ParseError
    end ;;
  legacy_strings <- lift (by_attrib (str "name") (findall legacy_root (str "string"))) ;;
  target_content <- read_text target_strings_path ;;
  let matches := Re.finditer STRING_RE target_content in
  let match_map :=
    foldl (fun d m => <[group_str m g_name := m]> d) (∅ : gmap (list N) Re.Match) matches in
  let default_bodies :=
    foldl (fun d m => <[group_str m g_name := group_str m g_body]> d)
          (∅ : gmap (list N) (list N)) matches in
  let '(replacements, stats) :=
    apply_mappings mappings legacy_strings existing_strings match_map default_bodies in
  rewrite_strings target_content replacements target_strings_path ;;;
  report_stats stats ;;;
  ret 0%nat.

(** [raise SystemExit(main())]: the exit status of the run and the state it
    leaves; an exception nobody catches ends the run with status 1. *)
Definition script (script_file : path) (args : Namespace) (w : world) : nat * world :=
  match main script_file args w with
  | (Ok status, w') => (status, w')
  | (Raise _, w') => (1%nat, w')
  end.

End Port.

(** ** Instances to run the script on

    Files in memory: a path is the list of its components, and the files are
    the function from a path to what is there. *)
Module MemFS.

Inductive node : Type :=
| File (content : text)
| Dir.

(** [strip p q]: what follows [p] in [q], when [q] is at or below [p]. *)
Fixpoint strip (p q : list (list N)) : option (list (list N)) :=
  match p, q with
  | [], _ => Some q
  | a :: p', b :: q' => if decide (a = b) then strip p' q' else None
  | _ :: _, [] => None
  end.

Definition files : Type := list (list N) -> option node.

Definition nothing : files := fun _ => None.
Definition put (p : list (list N)) (n : node) (s : files) : files :=
  fun q => if decide (q = p) then Some n else s q.

Definition exists_ (s : files) (p : list (list N)) : bool :=
  match s p with
  | Some _ => true
  | None => false
  end.
Definition read_text (s : files) (p : list (list N)) : option text :=
  match s p with
  | Some (File c) => Some c
  | _ => None
  end.
Definition write_text (p : list (list N)) (t : text) (s : files) : option files :=
  match s p, s (removelast p) with
  | Some Dir, _ => None
  | _, Some Dir => Some (put p (File t) s)
  | _, _ => None
  end.
(** [mkdir(parents=True, exist_ok=True)] *)
Definition mkdir (p : list (list N)) (s : files) : option files :=
  if forallb (fun n => match s (take n p) with
                        | Some (File _) => false
                        | _ => true
                        end) (seq 0 (S (length p)))
  then Some (fun q => match strip q p with
                      | Some _ => Some Dir
                      | None => s q
                      end)
  else None.
(** A move to a destination that is free. *)
Definition move (src dst : list (list N)) (s : files) : option files :=
  match s src, s dst with
  | Some _, None =>
      Some (fun q => match strip dst q with
                     | Some rest => s (src ++ rest)
                     | None => match strip src q with
                               | Some _ => None
                               | None => s q
                               end
                     end)
  | _, _ => None
  end.
Definition copy2 (src dst : list (list N)) (s : files) : option files :=
  match s src, s dst with
  | Some (File c), Some Dir => None
  | Some (File c), _ => Some (put dst (File c) s)
  | _, _ => None
  end.

End MemFS.

(** A library for one run: the XML parser finds [root] in the one file it
    is given; [\w] on ASCII, an element serialised as its tag around its
    text and children, and a CSV reader for plain files, which raises at a
    field over the field size limit. *)
Module RunLib.

Definition ascii_word (c : N) : bool :=
  ((48 <=? c) && (c <=? 57)) || ((65 <=? c) && (c <=? 90)) || (c =? 95)
  || ((97 <=? c) && (c <=? 122)).

Fixpoint serialise (e : Element) : text :=
  match e with
  | mkElement tag _ e_text children e_tail =>
      str "<" ++ tag ++ str ">" ++ default [] e_text
      ++ concat (List.map serialise children)
      ++ str "</" ++ tag ++ str ">" ++ default [] e_tail
  end.

(** A CSV reader for files without quoted fields: a row per line, a field
    per comma, a blank line an empty row. *)
Fixpoint split_on (sep : N) (s : text) : list (list N) :=
  match s with
  | [] => [[]]
  | c :: s' =>
      if c =? sep then [] :: split_on sep s'
      else match split_on sep s' with
           | field :: fields => (c :: field) :: fields
           | [] => [[c]]
           end
  end.

Definition plain_csv (content : text) : list (list (list N)) :=
  let lines := split_on 10 content in
  let lines := match last lines with
               | Some [] => removelast lines
               | _ => lines
               end in
  List.map (fun l => match l with
                     | [] => []
                     | _ => split_on 44 l
                     end) lines.

(** [csv.field_size_limit()], and a field with more characters than a limit. *)
Definition field_size_limit : N := 131072.
Fixpoint exceeds (limit : N) (field : text) : bool :=
  match field with
  | [] => false
  | _ :: field' => if limit =? 0 then true else exceeds (N.pred limit) field'
  end.
Definition oversize (row : list text) : bool :=
  existsb (exceeds field_size_limit) row.

(** The rows before the first one with a field over the limit, and whether
    there is such a row. *)
Fixpoint rows_before_error (rows : list (list text)) : list (list text) :=
  match rows with
  | [] => []
  | row :: rows' => if oversize row then [] else row :: rows_before_error rows'
  end.
Definition read_rows (content : text) : list (list (list N)) :=
  rows_before_error (plain_csv content).
Definition read_error (content : text) : bool :=
  existsb oversize (plain_csv content).

End RunLib.

(** The file system of the files in memory, and the library of a run. *)
#[export] Instance mem_fs : FileSystem := {|
  fs := MemFS.files;
  path := list (list N);
  path_div p name := p ++ [name];
  path_parent := fun p => removelast p;
  fs_exists := MemFS.exists_;
  fs_read_text := MemFS.read_text;
  fs_not_utf8 := fun _ _ => false;
  fs_write_text := MemFS.write_text;
  fs_mkdir := MemFS.mkdir;
  fs_move := MemFS.move;
  fs_copy2 := MemFS.copy2
|}.

Definition run_lib (root : option Element) : Library := {|
  is_word := RunLib.ascii_word;
  tostring := RunLib.serialise;
  et_parse := fun _ => root;
  csv_reader := RunLib.read_rows;
  csv_error := RunLib.read_error
|}.

(** * Terms of the properties *)

(** ** The Resolution Engine *)

Section ResolutionTerms.
Context `{Library}.

(** The counters of a statistics record, added up. *)
Definition resolved (stats : PortStats) : nat :=
  applied stats + fallback_existing stats + fallback_default stats.

(** The pairs whose new key is a key of the target file. *)
Definition recognized (match_map : gmap (list N) Re.Match)
    (mappings : list (list N * option (list N)))
    : list (list N * option (list N)) :=
  filter (fun pair => is_Some (match_map !! pair.1)) mappings.

(** Legacy wins pair by pair: whenever a mapping pair has a target key as its
    new key and an old key with a legacy entry, the output for the new key is
    the body of that entry's element, whatever pairs come after it. *)
Definition legacy_always_wins
    (mappings : list (list N * option (list N)))
    (legacy_strings : gmap (list N) Element)
    (existing_strings : gmap (list N) (list N))
    (match_map : gmap (list N) Re.Match)
    (default_bodies : gmap (list N) (list N)) : Prop :=
  forall new_key old_key legacy_elem,
    (new_key, Some old_key) ∈ mappings ->
    is_Some (match_map !! new_key) ->
    legacy_strings !! old_key = Some legacy_elem ->
    (apply_mappings mappings legacy_strings existing_strings match_map
       default_bodies).1 !! new_key
    = Some (element_inner_xml legacy_elem).

End ResolutionTerms.

(** ** The run *)

Section RunTerms.
Context `{FileSystem}.

(** A computation that leaves in place whatever is at [q]. *)
Definition keeps {A} (q : path) (m : M A) : Prop :=
  forall w r w', m w = (r, w') ->
    fs_exists (w_fs w) q = true -> fs_exists (w_fs w') q = true.

(** The state after a run that stopped at a check: the files as they were,
    and one more line on the error stream. *)
Definition refused (w : world) (msg : line) : world :=
  mkWorld (w_fs w) (w_out w ++ [(Stderr, msg)]).

End RunTerms.

(** ** The matcher on [STRING_RE] *)

(** The longest run of characters of a set at the head of a text, and what
    follows it. *)
Fixpoint take_while (p : N -> bool) (s : list N) : list N :=
  match s with
  | c :: s' => if p c then c :: take_while p s' else []
  | [] => []
  end.

Fixpoint drop_while (p : N -> bool) (s : list N) : list N :=
  match s with
  | c :: s' => if p c then drop_while p s' else s
  | [] => []
  end.

Abbreviation nogt := (Re.no gt).
Abbreviation noquote := (Re.no dquote).

(** The text before the first closing tag, and the text after that tag. *)
Fixpoint find_close (s : list N) : option (list N * list N) :=
  match Re.strip_prefix STRING_CLOSE s with
  | Some rest => Some ([], rest)
  | None =>
      match s with
      | c :: s' =>
          match find_close s' with
          | Some (body, rest) => Some (c :: body, rest)
          | None => None
          end
      | [] => None
      end
  end.

(** From the name on: the name, the text after the opening tag, the body and
    the text after the closing tag. *)
Definition entry_tail (s3 : list N)
    : option (list N * list N * list N * list N) :=
  match take_while noquote s3, drop_while noquote s3 with
  | (_ :: _) as name, _ :: s6 =>
      match drop_while nogt s6 with
      | _ :: s8 =>
          match find_close s8 with
          | Some (body, rest) => Some (name, s8, body, rest)
          | None => None
          end
      | [] => None
      end
  | _, _ => None
  end.

(** The groups of a match. *)
Definition entry_groups (hdr name body : list N) : list (nat * list N) :=
  [(4%nat, STRING_CLOSE); (g_body, body); (1%nat, hdr); (g_name, name)].

(** The match of the attempt on [s] in which [name=] starts at [s2]. *)
Definition candidate (s s2 : list N) : option (list N * list (nat * list N)) :=
  match Re.strip_prefix NAME_EQ s2 with
  | Some s3 =>
      match entry_tail s3 with
      | Some (name, s8, body, rest) =>
          Some (rest, entry_groups (Re.consumed s s8) name body)
      | None => None
      end
  | None => None
  end.

(** An opening tag with its name. *)
Definition opening_tag (hdr name : list N) : Prop :=
  exists c a1 a2,
    hdr = STRING_OPEN ++ c :: a1 ++ NAME_EQ ++ name ++ dquote :: a2 ++ [gt] /\
    Re.is_space c = true /\
    Forall (fun c => nogt c = true) a1 /\
    name <> [] /\
    Forall (fun c => noquote c = true) name /\
    Forall (fun c => nogt c = true) a2.

(** A closing tag is somewhere in the text. *)
Definition has_close (x : list N) : Prop := is_Some (find_close x).

(** A name left open before the text is closed in it: a double quote, then a
    [>], then a closing tag. *)
Definition closes_later (x : list N) : Prop :=
  match drop_while noquote x with
  | _ :: x6 =>
      match drop_while nogt x6 with
      | _ :: x8 => has_close x8
      | [] => False
      end
  | [] => False
  end.

(** The opening tag has [name=] right before its last double quote: a name
    is left open there, which a double quote further on would close. *)
Definition name_open (hdr : list N) : bool :=
  match Re.strip_prefix (reverse NAME_EQ) (drop_while noquote (reverse hdr)) with
  | Some _ => true
  | None => false
  end.

(** A body a later scan reads as the body of the entry with the opening tag
    [hdr]: a text without a closing tag, and without a double quote when the
    opening tag leaves a name open. *)
Definition fits (hdr body : list N) : Prop :=
  ~ has_close body /\
  (name_open hdr = true -> Forall (fun c => c <> dquote) body).

(** ** Entries of a text *)

(** An entry as [finditer] finds it: the text between the previous entry
    and this one, the opening tag, the key, the body and the closing tag. *)
Record entry : Type := mkEntry {
  e_before : list N;
  e_open : list N;
  e_key : list N;
  e_body : list N;
  e_close : list N
}.

Definition entry_text (e : entry) : list N :=
  e_before e ++ e_open e ++ e_body e ++ e_close e.

(** The text made of entries and the text after the last one. *)
Definition document (es : list entry) (tail : list N) : list N :=
  concat (entry_text <$> es) ++ tail.

(** An entry with the body the resolution mapping has for its key, if any. *)
Definition resolve_body (replacements : gmap (list N) (list N)) (e : entry) : entry :=
  mkEntry (e_before e) (e_open e) (e_key e)
          (default (e_body e) (replacements !! e_key e)) (e_close e).

Definition entry_of (before : list N) (g : list (nat * list N)) : entry :=
  mkEntry before (default [] (Re.get_group 1 g))
          (default [] (Re.get_group g_name g))
          (default [] (Re.get_group g_body g))
          (default [] (Re.get_group 4 g)).

(** The resolution mapping has a fitting body for every entry it resolves. *)
Definition fitting (replacements : gmap (list N) (list N)) (es : list entry)
    : Prop :=
  Forall (fun e => forall body,
            replacements !! e_key e = Some body -> fits (e_open e) body) es.

(** The entries of a text from left to right, as [finditer] goes through it,
    and the text after the last entry; [before] is the text since the
    previous entry. *)
Fixpoint scan (fuel : nat) (before s : list N) : list entry * list N :=
  match fuel with
  | O => ([], before ++ s)
  | S fuel' =>
      match Re.match_at STRING_RE s with
      | Some (rest, g) =>
          let '(es, tail) := scan fuel' [] rest in
          (entry_of before g :: es, tail)
      | None =>
          match s with
          | [] => ([], before)
          | c :: s1 => scan fuel' (before ++ [c]) s1
          end
      end
  end.

(** What [finditer]'s matches and the entries have in common. *)
Definition match_parts (m : Re.Match) : list N * list N * list N * list N :=
  (group_str m 1, group_str m g_name, group_str m g_body, group_str m 4).
Definition entry_parts (e : entry) : list N * list N * list N * list N :=
  (e_open e, e_key e, e_body e, e_close e).

(** The text the Rewriter makes of a text. *)
Definition rewrite_text (replacements : gmap (list N) (list N)) (s : list N)
    : list N :=
  document (resolve_body replacements <$> (scan (S (length s)) [] s).1)
           (scan (S (length s)) [] s).2.

(** The key of a match. *)
Definition keys_of (ms : list Re.Match) : list (list N) :=
  (fun m => group_str m g_name) <$> ms.

(** ** The sources of a body *)

Section OutputTerms.
Context `{Library}.

(** A body of the mapping pass comes from a legacy element, from the existing
    translation or from the base defaults, by way of a mapping pair. *)
Definition sourced
    (legacy_strings : gmap (list N) Element)
    (existing_strings default_bodies : gmap (list N) (list N))
    (mappings : list (list N * option (list N)))
    (key body : list N) : Prop :=
  (exists old_key legacy_elem,
     (key, Some old_key) ∈ mappings /\
     legacy_strings !! old_key = Some legacy_elem /\
     body = element_inner_xml legacy_elem) \/
  existing_strings !! key = Some body \/
  (key ∈ mappings.*1 /\ body = default [] (default_bodies !! key)).

End OutputTerms.

(** ** Texts and streams *)

(** [l in s]: the text [l] occurs in [s]. *)
Fixpoint contains (l s : list N) : bool :=
  startswith l s
  || match s with
     | [] => false
     | _ :: s' => contains l s'
     end.

Section StreamTerms.
Context `{FileSystem} `{Library}.

(** A computation that prints on standard output only. *)
Definition quiet {A} (m : M A) : Prop :=
  forall w r w', m w = (r, w') ->
    exists lines, w_out w' = w_out w ++ lines /\
      Forall (fun l : stream * line => l.1 = Stdout) lines.

(** A computation that prints on standard output only, unless it returns
    another status than 0. *)
Definition quiet_at_0 (m : M nat) : Prop :=
  forall w w', m w = (Ok 0%nat, w') ->
    exists lines, w_out w' = w_out w ++ lines /\
      Forall (fun l : stream * line => l.1 = Stdout) lines.

End StreamTerms.

(** ** The scenario of the specification *)

Module Sample.

(** A text between double quotes. *)
Definition quoted (s : list N) : list N := [dquote] ++ s ++ [dquote].

(** [<string name="key">body</string>] *)
Definition string_entry (key body : list N) : list N :=
  str "<string name=" ++ quoted key ++ str ">" ++ body ++ str "</string>".

Definition newline : list N := [10].

(** The base file, the language's file before the port and the mapping of
    the specification's scenario. *)
Definition base_text : list N :=
  str "<resources>" ++ newline
  ++ str "  " ++ string_entry (str "new_a") (str "Hi") ++ newline
  ++ str "  " ++ string_entry (str "new_b") (str "Hey") ++ newline
  ++ str "</resources>" ++ newline.

Definition old_text : list N :=
  str "<resources>" ++ newline
  ++ str "  " ++ string_entry (str "old_a") (str "Hello") ++ newline
  ++ str "  " ++ string_entry (str "new_b") (str "Ola") ++ newline
  ++ str "</resources>" ++ newline.

Definition mapping_text : list N :=
  str "new_key,old_key" ++ newline
  ++ str "new_a,old_a" ++ newline
  ++ str "new_b,old_x" ++ newline.

(** What the XML parser makes of [old_text]. *)
Definition string_elem (key body : list N) : Element :=
  mkElement (str "string") {[ str "name" := key ]} (Some body) []
            (Some (newline ++ str "  ")).

Definition old_root : Element :=
  mkElement (str "resources") ∅ (Some (newline ++ str "  "))
            [string_elem (str "old_a") (str "Hello");
             string_elem (str "new_b") (str "Ola")]
            None.

Definition lib : Library := run_lib (Some old_root).

(** The repository in memory. *)
Definition repo : list (list N) := [str "repo"].
Definition script_file : list (list N) :=
  repo ++ [str "scripts"; str "port_translation.py"].

Definition files : MemFS.files :=
  MemFS.put (repo ++ [str "values-pt"; str "strings.xml"]) (MemFS.File old_text)
  (MemFS.put (repo ++ [str "values-pt"]) MemFS.Dir
  (MemFS.put (repo ++ [str "values"; str "strings.xml"]) (MemFS.File base_text)
  (MemFS.put (repo ++ [str "values"]) MemFS.Dir
  (MemFS.put (repo ++ [str "scripts"; str "mapping_2025.csv"]) (MemFS.File mapping_text)
  (MemFS.put (repo ++ [str "scripts"]) MemFS.Dir
  (MemFS.put repo MemFS.Dir
  (MemFS.put [] MemFS.Dir MemFS.nothing))))))).

Definition args : Namespace := mkNamespace (str "pt").

Definition start : @world mem_fs := mkWorld files [].

(** The state after the first run. *)
Definition ported : @world mem_fs := (@main mem_fs lib script_file args start).2.

(** The file the port writes. *)
Definition ported_text : list N :=
  str "<resources>" ++ newline
  ++ str "  " ++ string_entry (str "new_a") (str "Hello") ++ newline
  ++ str "  " ++ string_entry (str "new_b") (str "Ola") ++ newline
  ++ str "</resources>" ++ newline.

(** A match object to stand for an entry of the target file. *)
Definition some_match : Re.Match := Re.mkMatch 0 0 [] [].

(** A target with one entry. *)
Definition one_entry : list N := string_entry (str "a") (str "x").

(** A target with one entry, whose key ends like the start of an attribute. *)
Definition open_entry : list N := string_entry (str "name=") [].

(** A resolution of the base file, with double quotes in a body. *)
Definition resolution : gmap (list N) (list N) :=
  {[ str "new_a" := quoted (str "Hello"); str "new_b" := str "Ola" ]}.

End Sample.

(** A repository whose mapping file has its two columns the other way round. *)
Module Faulty.

Definition mapping_text : list N :=
  str "old_key,new_key" ++ Sample.newline
  ++ str "old_a,new_a" ++ Sample.newline.

Definition files : MemFS.files :=
  MemFS.put (Sample.repo ++ [str "scripts"; str "mapping_2025.csv"])
            (MemFS.File mapping_text) Sample.files.

Definition start : @world mem_fs := mkWorld files [].

End Faulty.

(** A repository whose mapping file has, under the right header, a row with a
    field one character over the csv reader's limit. *)
Module Oversize.

Definition long_field : list N :=
  replicate (N.to_nat (RunLib.field_size_limit + 1)) 97.

Definition mapping_text : list N :=
  str "new_key,old_key" ++ Sample.newline
  ++ str "new_a," ++ long_field ++ Sample.newline.

Definition files : MemFS.files :=
  MemFS.put (Sample.repo ++ [str "scripts"; str "mapping_2025.csv"])
            (MemFS.File mapping_text) Sample.files.

Definition start : @world mem_fs := mkWorld files [].

End Oversize.

(** A repository whose translation has an escape sequence in a body. *)
Module Escaped.

Definition old_text : list N :=
  str "<resources>" ++ Sample.newline
  ++ str "  " ++ Sample.string_entry (str "old_a") (str "Tom &amp; Jerry")
  ++ Sample.newline
  ++ str "</resources>" ++ Sample.newline.

Definition mapping_text : list N :=
  str "new_key,old_key" ++ Sample.newline
  ++ str "new_a,old_a" ++ Sample.newline.

(** What the XML parser makes of [old_text]: the text of an element has its
    entity references decoded. *)
Definition old_root : Element :=
  mkElement (str "resources") ∅ (Some (Sample.newline ++ str "  "))
            [mkElement (str "string") {[ str "name" := str "old_a" ]}
                       (Some (str "Tom & Jerry")) [] (Some Sample.newline)]
            None.

Definition lib : Library := run_lib (Some old_root).

Definition files : MemFS.files :=
  MemFS.put (Sample.repo ++ [str "values-pt"; str "strings.xml"])
            (MemFS.File old_text)
  (MemFS.put (Sample.repo ++ [str "scripts"; str "mapping_2025.csv"])
             (MemFS.File mapping_text) Sample.files).

Definition start : @world mem_fs := mkWorld files [].

(** The file the port writes. *)
Definition ported_text : list N :=
  str "<resources>" ++ Sample.newline
  ++ str "  " ++ Sample.string_entry (str "new_a") (str "Tom & Jerry")
  ++ Sample.newline
  ++ str "  " ++ Sample.string_entry (str "new_b") (str "Hey") ++ Sample.newline
  ++ str "</resources>" ++ Sample.newline.

End Escaped.

Module Scenario.

(** The tables of the specification's scenario. *)
Definition legacy_strings : gmap (list N) Element :=
  {[ str "old_a" := Sample.string_elem (str "old_a") (str "Hello") ]}.
Definition existing_strings : gmap (list N) (list N) :=
  {[ str "new_b" := str "Ola" ]}.
Definition match_map : gmap (list N) Re.Match :=
  {[ str "new_a" := Sample.some_match; str "new_b" := Sample.some_match ]}.
Definition default_bodies : gmap (list N) (list N) :=
  {[ str "new_a" := str "Hi"; str "new_b" := str "Hey" ]}.
Definition mappings : list (list N * option (list N)) :=
  [(str "new_a", Some (str "old_a")); (str "new_b", Some (str "old_x"))].

(** A file system without files. *)
Definition empty : @world mem_fs := mkWorld MemFS.nothing [].

(** The match of the one entry of [Sample.one_entry]. *)
Definition first_match : Re.Match :=
  default Sample.some_match (head (Re.finditer STRING_RE Sample.one_entry)).

End Scenario.

(** * Properties *)

(** ** The instances *)

Lemma memfs_strip_refl (p : list (list N)) : MemFS.strip p p = Some [].
Proof.
  induction p as [|a p IH]; simpl; [done|].
  by rewrite decide_True.
Qed.

Lemma memfs_put_exists p n s q :
  MemFS.exists_ s q = true -> MemFS.exists_ (MemFS.put p n s) q = true.
Proof.
  unfold MemFS.exists_, MemFS.put. by destruct (decide (q = p)).
Qed.

Lemma memfs_write_exists p t s s' q :
  MemFS.write_text p t s = Some s' ->
  MemFS.exists_ s q = true -> MemFS.exists_ s' q = true.
Proof.
  unfold MemFS.write_text. intros Hw Hq.
  destruct (s p) as [[c|]|], (s (removelast p)) as [[c'|]|];
    simplify_eq; by apply memfs_put_exists.
Qed.

Lemma memfs_mkdir_exists p s s' q :
  MemFS.mkdir p s = Some s' ->
  MemFS.exists_ s q = true -> MemFS.exists_ s' q = true.
Proof.
  unfold MemFS.mkdir. intros Hm Hq.
  destruct (forallb _ _); simplify_eq.
  unfold MemFS.exists_ in *. by destruct (MemFS.strip q p).
Qed.

Lemma memfs_copy2_exists p p' s s' q :
  MemFS.copy2 p p' s = Some s' ->
  MemFS.exists_ s q = true -> MemFS.exists_ s' q = true.
Proof.
  unfold MemFS.copy2. intros Hc Hq.
  destruct (s p) as [[c|]|], (s p') as [[c'|]|];
    simplify_eq; by apply memfs_put_exists.
Qed.

Lemma memfs_move_exists src dst s s' :
  MemFS.move src dst s = Some s' -> MemFS.exists_ s' dst = true.
Proof.
  unfold MemFS.move. intros Hm.
  destruct (s src) as [n|] eqn:Hsrc, (s dst); simplify_eq.
  unfold MemFS.exists_. by rewrite memfs_strip_refl, app_nil_r, Hsrc.
Qed.

#[export] Instance mem_fs_laws : @FileSystemLaws mem_fs.
Proof.
  split.
  - apply memfs_write_exists.
  - apply memfs_mkdir_exists.
  - apply memfs_copy2_exists.
  - apply memfs_move_exists.
Qed.

(** ** The Resolution Engine: [apply_mappings] *)

Section Resolution.
Context `{Library}.
Variable legacy_strings : gmap (list N) Element.
Variable existing_strings : gmap (list N) (list N).
Variable match_map : gmap (list N) Re.Match.
Variable default_bodies : gmap (list N) (list N).

Local Abbreviation resolve :=
  (resolve_pair legacy_strings existing_strings match_map default_bodies).
Local Abbreviation pass mappings :=
  (mapping_pass mappings legacy_strings existing_strings match_map default_bodies).
Local Abbreviation port mappings :=
  (apply_mappings mappings legacy_strings existing_strings match_map default_bodies).

Lemma mapping_pass_app (before after : list (list N * option (list N))) :
  pass (before ++ after) = foldl resolve (pass before) after.
Proof. unfold mapping_pass. apply foldl_app. Qed.

Lemma mapping_pass_snoc (before : list (list N * option (list N))) pair :
  pass (before ++ [pair]) = resolve (pass before) pair.
Proof. by rewrite mapping_pass_app. Qed.

(** C1. Every mapping pair the first loop processes has exactly one of four
    outcomes, tried in this order: (1) the new key is not a key of the target
    file: it joins [missing_new] and nothing else changes; (2) the old key has
    a legacy entry: its body is the output for the new key and [applied]
    grows by one; (3) the new key has an existing translation: that body is
    the output, [fallback_existing] grows by one and the old key joins
    [missing_old]; (4) otherwise the base default body (the empty string when
    there is none) is the output, [fallback_default] grows by one and the old
    key joins [missing_old]. *)
Theorem resolve_pair_four_outcomes
    (before after : list (list N * option (list N)))
    (new_key : list N) (old_key : option (list N)) :
  let st := pass before in
  let st' := pass (before ++ [(new_key, old_key)]) in
  pass (before ++ (new_key, old_key) :: after) = foldl resolve st' after /\
  (match_map !! new_key = None ->
     st'.1 = st.1 /\
     st'.2 = mkPortStats (applied st.2) (fallback_existing st.2)
               (fallback_default st.2) (missing_old st.2)
               ({[new_key]} ∪ missing_new st.2)) /\
  (forall legacy_elem,
     is_Some (match_map !! new_key) ->
     dict_get legacy_strings old_key = Some legacy_elem ->
     st'.1 = <[new_key := element_inner_xml legacy_elem]> st.1 /\
     st'.2 = mkPortStats (S (applied st.2)) (fallback_existing st.2)
               (fallback_default st.2) (missing_old st.2) (missing_new st.2)) /\
  (forall fallback,
     is_Some (match_map !! new_key) ->
     dict_get legacy_strings old_key = None ->
     existing_strings !! new_key = Some fallback ->
     st'.1 = <[new_key := fallback]> st.1 /\
     st'.2 = mkPortStats (applied st.2) (S (fallback_existing st.2))
               (fallback_default st.2) ({[old_key]} ∪ missing_old st.2)
               (missing_new st.2)) /\
  (is_Some (match_map !! new_key) ->
   dict_get legacy_strings old_key = None ->
   existing_strings !! new_key = None ->
   st'.1 = <[new_key := default [] (default_bodies !! new_key)]> st.1 /\
   st'.2 = mkPortStats (applied st.2) (fallback_existing st.2)
             (S (fallback_default st.2)) ({[old_key]} ∪ missing_old st.2)
             (missing_new st.2)).
Proof.
  intros st st'. subst st'. rewrite mapping_pass_snoc. fold st.
  split.
  { change (before ++ (new_key, old_key) :: after)
      with (before ++ [(new_key, old_key)] ++ after).
    by rewrite app_assoc, mapping_pass_app, mapping_pass_snoc. }
  destruct st as [replacements stats]. unfold resolve_pair. simpl.
  split; [|split; [|split]].
  - by intros ->.
  - by intros legacy_elem [m ->] ->.
  - by intros fallback [m ->] -> ->.
  - by intros [m ->] -> ->.
Qed.

Lemma resolve_pair_resolved st pair :
  resolved (resolve st pair).2 =
  (resolved st.2 + (if decide (is_Some (match_map !! pair.1)) then 1 else 0))%nat.
Proof.
  destruct st as [replacements stats], pair as [new_key old_key].
  unfold resolve_pair, resolved. simpl.
  destruct (match_map !! new_key) as [m|] eqn:Hm.
  - rewrite decide_True by eauto.
    destruct (dict_get legacy_strings old_key);
      [|destruct (existing_strings !! new_key)]; simpl; lia.
  - rewrite decide_False by (by intros [? ?]). simpl. lia.
Qed.

Lemma foldl_resolve_resolved mappings st :
  resolved (foldl resolve st mappings).2 =
  (resolved st.2 + length (recognized match_map mappings))%nat.
Proof.
  revert st. induction mappings as [|pair mappings IH]; intros st; simpl.
  - unfold recognized. simpl. lia.
  - rewrite IH, resolve_pair_resolved. unfold recognized.
    rewrite filter_cons. destruct (decide (is_Some (match_map !! pair.1))); simpl; lia.
Qed.

(** C3. After [apply_mappings], applied + fallback_existing + fallback_default
    is the number of mapping pairs whose new key is a key of the target file,
    and so at most the number of pairs processed. *)
Theorem statistics_conservation (mappings : list (list N * option (list N))) :
  resolved (port mappings).2 = length (recognized match_map mappings) /\
  (resolved (port mappings).2 <= length mappings)%nat.
Proof.
  assert (resolved (port mappings).2 = length (recognized match_map mappings)) as Heq.
  { unfold apply_mappings.
    destruct (pass mappings) as [replacements stats] eqn:Hpass. simpl.
    change stats with (replacements, stats).2. rewrite <-Hpass.
    unfold mapping_pass. rewrite foldl_resolve_resolved.
    unfold resolved, PortStats_new. simpl. lia. }
  split; [done|]. rewrite Heq. apply length_filter.
Qed.

(** The second loop, key by key: what the first loop produced stays, and an
    existing entry is added exactly for a target key without the reserved
    prefix. *)
Lemma carry_existing_lookup (replacements : gmap (list N) (list N)) (key : list N) :
  map_fold (carry_existing match_map) replacements existing_strings !! key =
  match replacements !! key with
  | Some body => Some body
  | None =>
      match existing_strings !! key with
      | Some body =>
          if bool_decide (is_Some (match_map !! key))
             && negb (startswith LEGACY_PREFIX key)
          then Some body else None
      | None => None
      end
  end.
Proof.
  apply (map_fold_weak_ind
    (fun (r : gmap (list N) (list N)) (m : gmap (list N) (list N)) =>
       r !! key =
       match replacements !! key with
       | Some body => Some body
       | None =>
           match m !! key with
           | Some body =>
               if bool_decide (is_Some (match_map !! key))
                  && negb (startswith LEGACY_PREFIX key)
               then Some body else None
           | None => None
           end
       end)).
  - rewrite lookup_empty. by destruct (replacements !! key).
  - intros i x m r Hi IH. unfold carry_existing.
    destruct (decide (i = key)) as [->|Hne].
    + rewrite lookup_insert_eq. rewrite Hi in IH.
      destruct (startswith LEGACY_PREFIX key); simpl.
      { rewrite IH. destruct (replacements !! key); [done|].
        by rewrite andb_false_r. }
      destruct (replacements !! key) as [body|] eqn:Hr.
      { rewrite bool_decide_eq_true_2 by (rewrite IH; eauto). simpl. done. }
      rewrite (bool_decide_eq_false_2 (is_Some (r !! key)))
        by (rewrite IH; by intros [? ?]).
      simpl. destruct (bool_decide (is_Some (match_map !! key))); simpl.
      * by rewrite lookup_insert_eq.
      * done.
    + rewrite lookup_insert_ne by done.
      destruct (_ || _ || _); [done|]. by rewrite lookup_insert_ne.
Qed.

(** C7. After the mapping pass, the second loop copies into the output every
    key of the existing translation that the mapping pass did not produce,
    that is a key of the target file and that does not start with [legacy_],
    with its body as it was; no other key is added, and nothing the mapping
    pass produced is changed. *)
Theorem second_pass_carries_existing
    (mappings : list (list N * option (list N))) (key : list N) :
  let produced := (pass mappings).1 in
  let output := (port mappings).1 in
  (forall body,
     existing_strings !! key = Some body ->
     produced !! key = None ->
     is_Some (match_map !! key) ->
     startswith LEGACY_PREFIX key = false ->
     output !! key = Some body) /\
  (existing_strings !! key = None \/ is_Some (produced !! key) \/
   match_map !! key = None \/ startswith LEGACY_PREFIX key = true ->
   output !! key = produced !! key).
Proof.
  intros produced output. subst produced output. unfold apply_mappings.
  destruct (pass mappings) as [replacements stats]. simpl.
  rewrite carry_existing_lookup. split.
  - intros body -> -> Hm ->. by rewrite bool_decide_eq_true_2.
  - intros [-> | [[body ->] | [-> | ->]]].
    + by destruct (replacements !! key).
    + done.
    + rewrite bool_decide_eq_false_2 by (by intros [? ?]).
      by destruct (replacements !! key), (existing_strings !! key).
    + rewrite andb_false_r.
      by destruct (replacements !! key), (existing_strings !! key).
Qed.

End Resolution.

(** ** Legacy entries win *)

Section LegacyWins.
Context `{Library}.

Variable legacy_strings : gmap (list N) Element.
Variable existing_strings : gmap (list N) (list N).
Variable match_map : gmap (list N) Re.Match.
Variable default_bodies : gmap (list N) (list N).

Local Abbreviation resolve :=
  (resolve_pair legacy_strings existing_strings match_map default_bodies).

Lemma resolve_pair_other st pair (key : list N) :
  pair.1 <> key -> (resolve st pair).1 !! key = st.1 !! key.
Proof.
  destruct st as [replacements stats], pair as [new_key old_key]. simpl.
  intros Hne. unfold resolve_pair.
  destruct (match_map !! new_key); [|done].
  destruct (dict_get legacy_strings old_key);
    [|destruct (existing_strings !! new_key)]; simpl;
    by rewrite lookup_insert_ne.
Qed.

Lemma foldl_resolve_other after st (key : list N) :
  key ∉ after.*1 -> (foldl resolve st after).1 !! key = st.1 !! key.
Proof.
  revert st. induction after as [|pair after IH]; intros st Hnot; simpl; [done|].
  rewrite fmap_cons, not_elem_of_cons in Hnot. destruct Hnot as [Hne Hnot].
  rewrite IH by done. by apply resolve_pair_other.
Qed.

(** X24. The last mapping pair for a new key decides its output: when that
    new key is a key of the target file and the pair's old key has a legacy
    element, the output body is what [element_inner_xml] makes of that
    element, whatever the existing translation and the base defaults hold for
    the key. *)
Theorem last_legacy_pair_wins
    (before after : list (list N * option (list N)))
    (new_key old_key : list N) (legacy_elem : Element) :
  is_Some (match_map !! new_key) ->
  legacy_strings !! old_key = Some legacy_elem ->
  new_key ∉ after.*1 ->
  (apply_mappings (before ++ (new_key, Some old_key) :: after)
     legacy_strings existing_strings match_map default_bodies).1 !! new_key
  = Some (element_inner_xml legacy_elem).
Proof.
  intros [m Hm] Hlegacy Hlast. unfold apply_mappings.
  destruct (mapping_pass _ _ _ _ _) as [replacements stats] eqn:Hpass. simpl.
  rewrite carry_existing_lookup.
  assert (replacements !! new_key = Some (element_inner_xml legacy_elem)) as ->; [|done].
  change replacements with (replacements, stats).1. rewrite <-Hpass.
  change (before ++ (new_key, Some old_key) :: after)
    with (before ++ [(new_key, Some old_key)] ++ after).
  rewrite app_assoc, mapping_pass_app, foldl_resolve_other by done.
  rewrite mapping_pass_snoc.
  destruct (mapping_pass before _ _ _ _) as [r0 s0]. unfold resolve_pair.
  rewrite Hm. simpl. rewrite Hlegacy. simpl. apply lookup_insert_eq.
Qed.

End LegacyWins.

(** ** The run: [main] *)

Section Run.
Context `{FileSystem} `{!FileSystemLaws} `{Library}.

Lemma bind_Ok {A B} (m : M A) (f : A -> M B) (w w1 : world) (b : B) :
  bind m f w = (Ok b, w1) ->
  exists a w', m w = (Ok a, w') /\ f a w' = (Ok b, w1).
Proof.
  unfold bind. destruct (m w) as [[a|e] w']; [eauto|discriminate].
Qed.

Lemma keeps_ret {A} q (a : A) : keeps q (ret a).
Proof. intros w r w' [= <- <-]. done. Qed.

Lemma keeps_raise {A} q e : keeps q (@raise _ A e).
Proof. intros w r w' [= <- <-]. done. Qed.

Lemma keeps_lift {A} q (r : res A) : keeps q (lift r).
Proof. intros w r' w' [= <- <-]. done. Qed.

Lemma keeps_bind {A B} q (m : M A) (f : A -> M B) :
  keeps q m -> (forall a, keeps q (f a)) -> keeps q (bind m f).
Proof.
  intros Hm Hf w r w'. unfold bind.
  destruct (m w) as [[a|e] w1] eqn:Em.
  - intros Hfa Hq. eapply Hf; [done|]. by eapply Hm.
  - intros [= <- <-] Hq. by eapply Hm.
Qed.

Lemma keeps_print q to l : keeps q (print to l).
Proof. intros w r w' [= <- <-]. done. Qed.

Lemma keeps_path_exists q p : keeps q (path_exists p).
Proof. intros w r w' [= <- <-]. done. Qed.

Lemma keeps_read_text q p : keeps q (read_text p).
Proof.
  intros w r w'. unfold read_text.
  destruct (fs_read_text _ _); by intros [= <- <-].
Qed.

Lemma keeps_file_op q (op : fs -> option fs) :
  (forall s s', op s = Some s' -> fs_exists s q = true -> fs_exists s' q = true) ->
  keeps q (file_op op).
Proof.
  intros Hop w r w'. unfold file_op.
  destruct (op (w_fs w)) as [s'|] eqn:Eop; intros [= <- <-]; [|done].
  simpl. by apply Hop.
Qed.

Lemma keeps_write_text q p t : keeps q (write_text p t).
Proof. apply keeps_file_op. intros s s'. apply fs_write_exists. Qed.

Lemma keeps_mkdir q p : keeps q (mkdir p).
Proof. apply keeps_file_op. intros s s'. apply fs_mkdir_exists. Qed.

Lemma keeps_copy2 q p p' : keeps q (copy2 p p').
Proof. apply keeps_file_op. intros s s'. apply fs_copy2_exists. Qed.

Lemma keeps_load_mapping q p : keeps q (load_mapping p).
Proof.
  apply keeps_bind; [apply keeps_read_text|]. intros content.
  cbv zeta. destruct (_ && _); [apply keeps_raise|].
  case_decide; [|apply keeps_raise].
  destruct (csv_error content); [apply keeps_raise|apply keeps_ret].
Qed.

Lemma keeps_rewrite_strings q target_content replacements destination :
  keeps q (rewrite_strings target_content replacements destination).
Proof.
  unfold rewrite_strings. case_decide; [apply keeps_ret|apply keeps_write_text].
Qed.

Lemma keeps_print_if q b l : keeps q (print_if b l).
Proof. destruct b; [apply keeps_print|apply keeps_ret]. Qed.

Lemma keeps_report_stats q stats : keeps q (report_stats stats).
Proof.
  unfold report_stats.
  repeat (apply keeps_bind; [first [apply keeps_print|apply keeps_print_if]|intros _]).
  apply keeps_print_if.
Qed.

Lemma move_Ok src dst w u w' :
  move src dst w = (Ok u, w') -> fs_exists (w_fs w') dst = true.
Proof.
  unfold move, file_op.
  destruct (fs_move src dst (w_fs w)) as [s'|] eqn:Emove; intros [= <- <-].
  simpl. by eapply fs_move_exists.
Qed.

(** What [main] does once the language folder has been moved. *)
Lemma main_after_move_keeps q script_file args existing_strings :
  let lang := language args in
  let scripts_dir := path_parent script_file in
  let translations_dir := path_parent scripts_dir in
  let mapping_path := scripts_dir </> str "mapping_2025.csv" in
  let base_strings := translations_dir </> str "values" </> STRINGS_XML in
  let lang_dir := translations_dir </> values_folder lang in
  let legacy_dir := archive_dir script_file lang in
  keeps q
    (print Stdout (Creating lang_dir) ;;;
     mkdir lang_dir ;;;
     let target_strings_path := lang_dir </> STRINGS_XML in
     copy2 base_strings target_strings_path ;;;
     print Stdout LoadingMapping ;;;
     mappings <- load_mapping mapping_path ;;
     print Stdout (LoadingLegacy (legacy_dir </> STRINGS_XML)) ;;;
     let legacy_strings_path := legacy_dir </> STRINGS_XML in
     legacy_ok <- path_exists legacy_strings_path ;;
     if negb legacy_ok then
       print Stderr (MissingLegacyStrings legacy_strings_path) ;;; ret 1%nat
     else
     legacy_content <- read_text legacy_strings_path ;;
     legacy_root <-
       match et_parse legacy_content with
       | Some root => ret root
       | None => raise ParseError
       end ;;
     legacy_strings <- lift (by_attrib (str "name") (findall legacy_root (str "string"))) ;;
     target_content <- read_text target_strings_path ;;
     let matches := Re.finditer STRING_RE target_content in
     let match_map :=
       foldl (fun d m => <[group_str m g_name := m]> d) (∅ : gmap (list N) Re.Match) matches in
     let default_bodies :=
       foldl (fun d m => <[group_str m g_name := group_str m g_body]> d)
             (∅ : gmap (list N) (list N)) matches in
     let '(replacements, stats) :=
       apply_mappings mappings legacy_strings existing_strings match_map default_bodies in
     rewrite_strings target_content replacements target_strings_path ;;;
     report_stats stats ;;;
     ret 0%nat).
Proof.
  intros.
  apply keeps_bind; [apply keeps_print|intros _].
  apply keeps_bind; [apply keeps_mkdir|intros _].
  apply keeps_bind; [apply keeps_copy2|intros _].
  apply keeps_bind; [apply keeps_print|intros _].
  apply keeps_bind; [apply keeps_load_mapping|intros mappings].
  apply keeps_bind; [apply keeps_print|intros _].
  apply keeps_bind; [apply keeps_path_exists|intros legacy_ok].
  destruct legacy_ok; simpl.
  2: { apply keeps_bind; [apply keeps_print|intros _]. apply keeps_ret. }
  apply keeps_bind; [apply keeps_read_text|intros legacy_content].
  apply keeps_bind; [destruct (et_parse _); [apply keeps_ret|apply keeps_raise]|intros root].
  apply keeps_bind; [apply keeps_lift|intros legacy_strings].
  apply keeps_bind; [apply keeps_read_text|intros target_content].
  destruct (apply_mappings _ _ _ _ _) as [replacements stats].
  apply keeps_bind; [apply keeps_rewrite_strings|intros _].
  apply keeps_bind; [apply keeps_report_stats|intros _].
  apply keeps_ret.
Qed.

(** A run that gets past its checks leaves an archive behind, however it ends. *)
Lemma abort_not_Ok_0 to l w w' :
  (print to l ;;; ret 1%nat) w <> (Ok 0%nat, w').
Proof. unfold bind, print, ret. by intros [= _]. Qed.

(** A run that returns 0 has left an archive behind. *)
Lemma main_leaves_archive script_file args w w' :
  main script_file args w = (Ok 0%nat, w') ->
  fs_exists (w_fs w') (archive_dir script_file (language args)) = true.
Proof.
  unfold main. intros Hmain.
  apply bind_Ok in Hmain as ([] & w1 & _ & Hmain);
    [|by apply abort_not_Ok_0 in Hmain].
  apply bind_Ok in Hmain as ([] & w2 & _ & Hmain);
    [|by apply abort_not_Ok_0 in Hmain].
  apply bind_Ok in Hmain as ([] & w3 & _ & Hmain);
    [by apply abort_not_Ok_0 in Hmain|].
  apply bind_Ok in Hmain as ([] & w4 & _ & Hmain);
    [|by apply abort_not_Ok_0 in Hmain].
  apply bind_Ok in Hmain as (existing_strings & w5 & _ & Hmain).
  apply bind_Ok in Hmain as (_ & w6 & _ & Hmain).
  apply bind_Ok in Hmain as (_ & w7 & _ & Hmain).
  apply bind_Ok in Hmain as (u & w8 & Hmove & Hmain).
  apply move_Ok in Hmove.
  by apply (main_after_move_keeps _ script_file args existing_strings w8 _ w' Hmain).
Qed.

Lemma bind_path_exists {B} p (f : bool -> M B) w :
  bind (path_exists p) f w = f (fs_exists (w_fs w) p) w.
Proof. reflexivity. Qed.

Lemma abort_run to l (status : nat) w :
  (print to l ;;; ret status) w
  = (Ok status, mkWorld (w_fs w) (w_out w ++ [(to, l)])).
Proof. reflexivity. Qed.

(** C9. When the archive of the requested language is already there, the run
    ends with status 1 and one diagnostic on the error stream, and the files
    are as they were: nothing has been moved, created or written. The
    diagnostic is the one about the archive when the base file and the
    language folder are in place. In particular a second run after one that
    returned 0 stops this way. *)
Theorem existing_archive_aborts (script_file : path) (args : Namespace) (w : world) :
  let translations_dir := path_parent (path_parent script_file) in
  let base_strings := translations_dir </> str "values" </> STRINGS_XML in
  let lang_dir := translations_dir </> values_folder (language args) in
  let legacy_dir := archive_dir script_file (language args) in
  (fs_exists (w_fs w) legacy_dir = true ->
   exists msg, script script_file args w = (1%nat, refused w msg)) /\
  (fs_exists (w_fs w) legacy_dir = true ->
   fs_exists (w_fs w) base_strings = true ->
   fs_exists (w_fs w) lang_dir = true ->
   script script_file args w = (1%nat, refused w (LegacyExists legacy_dir))) /\
  (forall w0,
     main script_file args w0 = (Ok 0%nat, w) ->
     exists msg, script script_file args w = (1%nat, refused w msg)).
Proof.
  intros translations_dir base_strings lang_dir legacy_dir.
  assert (fs_exists (w_fs w) legacy_dir = true ->
          script script_file args w =
          (1%nat, refused w
             (if fs_exists (w_fs w) base_strings
              then if fs_exists (w_fs w) lang_dir
                   then LegacyExists legacy_dir
                   else MissingLangDir lang_dir
              else MissingBase base_strings))) as Hstop.
  { intros Hlegacy. unfold script, main.
    rewrite bind_path_exists. fold translations_dir base_strings.
    destruct (fs_exists (w_fs w) base_strings); cbn [negb];
      [|by rewrite abort_run].
    rewrite bind_path_exists. fold lang_dir.
    destruct (fs_exists (w_fs w) lang_dir); cbn [negb];
      [|by rewrite abort_run].
    rewrite bind_path_exists.
    change (translations_dir </> str "legacy" </> values_folder (language args))
      with legacy_dir.
    rewrite Hlegacy. by rewrite abort_run. }
  split; [|split].
  - intros Hlegacy. eexists. by apply Hstop.
  - intros Hlegacy Hbase Hlang. rewrite Hstop by done. by rewrite Hbase, Hlang.
  - intros w0 Hfirst. eexists. apply Hstop.
    by apply (main_leaves_archive _ _ w0).
Qed.

End Run.

(** ** The Mapping Loader: [load_mapping] *)

Section Loader.
Context `{FileSystem} `{Library}.

Lemma foldl_snoc_fmap {A B} (f : A -> B) (l : list A) (acc : list B) :
  foldl (fun rows x => rows ++ [f x]) acc l = acc ++ (f <$> l).
Proof.
  revert acc. induction l as [|x l IH]; intros acc; simpl.
  - by rewrite app_nil_r.
  - by rewrite IH, <-app_assoc.
Qed.

Lemma row_get_new_key (row : list (list N)) :
  row_get [NEW_KEY; OLD_KEY] row NEW_KEY = row !! 0%nat.
Proof. reflexivity. Qed.

Lemma row_get_old_key (row : list (list N)) :
  row_get [NEW_KEY; OLD_KEY] row OLD_KEY = row !! 1%nat.
Proof. reflexivity. Qed.

(** C8, as amended. For a mapping file that can be read. When the csv reader
    gets through the file without an error, [load_mapping] raises a
    [ValueError] carrying the header it found exactly when the header is not
    the two columns [new_key], [old_key] in this order; when the header is
    that, it returns one pair per row that is not blank, in file order,
    repeated rows included. When the reader raises, its error comes out of
    [load_mapping] instead, both before a header is read and after the right
    header; a wrong header that was read is still told first. *)
Theorem load_mapping_header (mapping_path : path) (w : world) (content : list N) :
  fs_read_text (w_fs w) mapping_path = Some content ->
  let reader := csv_reader content in
  let header := dr_fieldnames reader in
  let pairs :=
    (fun row => (default [] (row !! 0%nat), row !! 1%nat)) <$> dr_rows reader in
  (csv_error content = false ->
   (header <> Some [NEW_KEY; OLD_KEY] ->
    load_mapping mapping_path w = (Raise (ValueError header), w)) /\
   (header = Some [NEW_KEY; OLD_KEY] ->
    load_mapping mapping_path w = (Ok pairs, w)) /\
   ((exists e, (load_mapping mapping_path w).1 = Raise e) <->
    header <> Some [NEW_KEY; OLD_KEY])) /\
  (csv_error content = true ->
   (reader = [] -> load_mapping mapping_path w = (Raise CsvError, w)) /\
   (reader <> [] -> header <> Some [NEW_KEY; OLD_KEY] ->
    load_mapping mapping_path w = (Raise (ValueError header), w)) /\
   (header = Some [NEW_KEY; OLD_KEY] ->
    load_mapping mapping_path w = (Raise CsvError, w))).
Proof.
  intros Hread reader header pairs.
  assert (load_mapping mapping_path w =
          if bool_decide (reader = []) && csv_error content
          then (Raise CsvError, w)
          else if decide (header = Some [NEW_KEY; OLD_KEY])
               then if csv_error content then (Raise CsvError, w) else (Ok pairs, w)
               else (Raise (ValueError header), w)) as ->.
  { unfold load_mapping, bind, read_text. rewrite Hread.
    fold reader. fold header. destruct (_ && _); [done|].
    case_decide; [|done]. destruct (csv_error content); [done|].
    unfold ret, pairs. f_equal. f_equal. by rewrite foldl_snoc_fmap. }
  split; intros ->; rewrite ?andb_false_r, ?andb_true_r.
  - case_decide as Hheader; cbn [fst].
    + split; [done|]. split; [done|]. split; [by intros [e ?]|done].
    + split; [done|]. split; [done|]. split; [done|eauto].
  - split_and!.
    + intros Hnil. by rewrite bool_decide_eq_true_2.
    + intros Hrows Hheader. by rewrite bool_decide_eq_false_2, decide_False.
    + intros Hheader.
      rewrite bool_decide_eq_false_2; [by rewrite decide_True|].
      intros Hnil. unfold header in Hheader. by rewrite Hnil in Hheader.
Qed.

End Loader.

(** ** The csv reader's field size limit *)

Section FieldLimit.

Lemma split_on_sep (sep : N) (l s : list N) :
  sep ∉ l -> RunLib.split_on sep (l ++ sep :: s) = l :: RunLib.split_on sep s.
Proof.
  induction l as [|c l IH]; intros Hl; simpl.
  - by rewrite N.eqb_refl.
  - apply not_elem_of_cons in Hl as [Hc Hl].
    destruct (N.eqb_spec c sep) as [->|_]; [done|]. by rewrite IH.
Qed.

Lemma split_on_plain (sep : N) (l : list N) :
  sep ∉ l -> RunLib.split_on sep l = [l].
Proof.
  induction l as [|c l IH]; intros Hl; simpl; [done|].
  apply not_elem_of_cons in Hl as [Hc Hl].
  destruct (N.eqb_spec c sep) as [->|_]; [done|]. by rewrite IH.
Qed.

Lemma exceeds_length (limit : N) (field : list N) :
  RunLib.exceeds limit field = bool_decide (limit < N.of_nat (length field))%N.
Proof.
  revert limit. induction field as [|c field IH]; intros limit.
  - simpl. rewrite bool_decide_eq_false_2; [done|lia].
  - cbn [RunLib.exceeds length]. destruct (N.eqb_spec limit 0) as [->|Hpos].
    + rewrite bool_decide_eq_true_2; [done|lia].
    + rewrite IH. apply bool_decide_ext. lia.
Qed.

(** A file of the right header and one row, whose second field is over the
    limit: the reader gives the header and raises at the row. *)
Lemma oversize_row (field : list N) :
  10%N ∉ field -> 44%N ∉ field ->
  (RunLib.field_size_limit < N.of_nat (length field))%N ->
  let content :=
    str "new_key,old_key" ++ [10%N] ++ str "new_a," ++ field ++ [10%N] in
  RunLib.read_rows content = [[NEW_KEY; OLD_KEY]] /\
  RunLib.read_error content = true.
Proof.
  intros Hnl Hcomma Hlong content.
  assert (RunLib.plain_csv content
          = [[NEW_KEY; OLD_KEY]; [str "new_a"; field]]) as Hrows.
  { unfold RunLib.plain_csv, content.
    change (str "new_key,old_key" ++ [10%N] ++ str "new_a," ++ field ++ [10%N])
      with (str "new_key,old_key" ++ 10%N :: (str "new_a," ++ field) ++ [10%N]).
    rewrite split_on_sep by (apply (bool_decide_unpack _); by vm_compute).
    rewrite split_on_sep.
    2:{ rewrite not_elem_of_app. split; [|done].
        apply (bool_decide_unpack _). by vm_compute. }
    cbn [RunLib.split_on last removelast List.map].
    change (str "new_a," ++ field) with (str "new_a" ++ 44%N :: field).
    destruct (str "new_a" ++ 44%N :: field) eqn:Hrow; [done|]. rewrite <-Hrow.
    rewrite split_on_sep by (apply (bool_decide_unpack _); by vm_compute).
    rewrite (split_on_plain 44 field) by done. by vm_compute. }
  assert (RunLib.oversize [str "new_a"; field] = true) as Hover.
  { unfold RunLib.oversize. cbn [existsb]. rewrite (exceeds_length _ field).
    rewrite (bool_decide_eq_true_2 _ Hlong). apply orb_true_iff. right. done. }
  unfold RunLib.read_rows, RunLib.read_error. rewrite Hrows.
  cbn [RunLib.rows_before_error existsb]. rewrite Hover.
  split; by vm_compute.
Qed.

End FieldLimit.

(** ** The Rewriter without resolutions *)

Section RewriterEmpty.
Context `{FileSystem}.

(** C10. With an empty resolution mapping [rewrite_strings] returns without
    writing: the state is as it was, and so is what can be read at the
    destination and at any other path. *)
Theorem rewrite_strings_empty_writes_nothing
    (target_content : list N) (destination : path) (w : world) :
  rewrite_strings target_content ∅ destination w = (Ok tt, w) /\
  forall p,
    fs_read_text (w_fs (rewrite_strings target_content ∅ destination w).2) p
    = fs_read_text (w_fs w) p.
Proof.
  assert (rewrite_strings target_content ∅ destination w = (Ok tt, w)) as Hret.
  { unfold rewrite_strings. by rewrite decide_True. }
  split; [done|]. intros p. by rewrite Hret.
Qed.

End RewriterEmpty.

(** ** The matcher *)

Section MatcherFacts.

Lemma strip_prefix_Some (l s s' : list N) :
  Re.strip_prefix l s = Some s' <-> s = l ++ s'.
Proof.
  revert s. induction l as [|c l IH]; intros s; simpl.
  - split; [by intros [= ->]|by intros ->].
  - destruct s as [|d s]; [by split|].
    destruct (N.eqb_spec c d) as [->|Hne].
    + rewrite IH. split; [by intros ->|by intros [= ->]].
    + split; [done|]. intros [= -> _]. done.
Qed.

Lemma strip_prefix_app (l s : list N) : Re.strip_prefix l (l ++ s) = Some s.
Proof. by apply strip_prefix_Some. Qed.

Lemma consumed_app (a s : list N) : Re.consumed (a ++ s) s = a.
Proof.
  unfold Re.consumed. rewrite length_app.
  replace (length a + length s - length s)%nat with (length a) by lia.
  by rewrite take_app_length.
Qed.

Lemma take_drop_while p s : take_while p s ++ drop_while p s = s.
Proof.
  induction s as [|c s IH]; simpl; [done|].
  destruct (p c); simpl; [by rewrite IH|done].
Qed.

Lemma take_while_all p s : Forall (fun c => p c = true) (take_while p s).
Proof.
  induction s as [|c s IH]; simpl; [constructor|].
  destruct (p c) eqn:Hc; by constructor.
Qed.

Lemma drop_while_head p s c s' : drop_while p s = c :: s' -> p c = false.
Proof.
  induction s as [|d s IH]; simpl; [done|].
  destruct (p d) eqn:Hd; [done|]. by intros [= <- _].
Qed.

Lemma drop_while_app_all p a s :
  Forall (fun c => p c = true) a -> drop_while p (a ++ s) = drop_while p s.
Proof.
  induction 1 as [|c a Hc _ IH]; simpl; [done|]. by rewrite Hc.
Qed.

Lemma take_while_app_all p a s :
  Forall (fun c => p c = true) a -> take_while p (a ++ s) = a ++ take_while p s.
Proof.
  induction 1 as [|c a Hc _ IH]; simpl; [done|]. by rewrite Hc, IH.
Qed.

Lemma drop_while_app_stop p a c a' s :
  drop_while p a = c :: a' -> drop_while p (a ++ s) = c :: a' ++ s.
Proof.
  induction a as [|d a IH]; simpl; [done|].
  destruct (p d); [done|]. by intros [= -> ->].
Qed.

Lemma take_while_app_stop p a c a' s :
  drop_while p a = c :: a' -> take_while p (a ++ s) = take_while p a.
Proof.
  induction a as [|d a IH]; simpl; [done|].
  destruct (p d); [|done]. intros Hd. by rewrite IH.
Qed.

Lemma drop_while_nil_all p a :
  drop_while p a = [] -> Forall (fun c => p c = true) a.
Proof.
  induction a as [|d a IH]; simpl; [constructor|].
  destruct (p d) eqn:Hd; [|done]. intros Ha. constructor; auto.
Qed.

Lemma drop_while_stop p a c s :
  Forall (fun c => p c = true) a -> p c = false ->
  drop_while p (a ++ c :: s) = c :: s.
Proof.
  intros Ha Hc. rewrite drop_while_app_all by done. simpl. by rewrite Hc.
Qed.

Lemma take_while_stop p a c s :
  Forall (fun c => p c = true) a -> p c = false ->
  take_while p (a ++ c :: s) = a.
Proof.
  intros Ha Hc. rewrite take_while_app_all by done. simpl.
  by rewrite Hc, app_nil_r.
Qed.

Context {R : Type}.

Lemma rep_greedy_ext p s (k k' : list N -> option R) :
  (forall v, k v = k' v) -> Re.rep_greedy p s k = Re.rep_greedy p s k'.
Proof.
  intros Hk. induction s as [|c s IH]; simpl; [done|].
  by rewrite IH, Hk.
Qed.

Lemma rep_lazy_ext p s (k k' : list N -> option R) :
  (forall v, k v = k' v) -> Re.rep_lazy p s k = Re.rep_lazy p s k'.
Proof.
  intros Hk. induction s as [|c s IH]; simpl; rewrite Hk; [done|].
  by rewrite IH.
Qed.

(** A greedy repeat whose continuation cannot start with a character of the
    set has one way to match: the whole run. *)
Lemma rep_greedy_det p s (k : list N -> option R) :
  (forall c v, p c = true -> k (c :: v) = None) ->
  Re.rep_greedy p s k = k (drop_while p s).
Proof.
  intros Hk. induction s as [|c s IH]; simpl; [done|].
  destruct (p c) eqn:Hc; [|done].
  rewrite IH. destruct (k (drop_while p s)); [done|]. by apply Hk.
Qed.

(** A greedy repeat fails when the continuation fails after every run. *)
Lemma rep_greedy_None p s (k : list N -> option R) :
  Re.rep_greedy p s k = None <->
  forall a v, s = a ++ v -> Forall (fun c => p c = true) a -> k v = None.
Proof.
  induction s as [|c s IH]; simpl.
  - split.
    + intros Hk a v Hs _. symmetry in Hs. apply app_eq_nil in Hs as [-> ->]. done.
    + intros Hk. by apply (Hk [] []).
  - destruct (p c) eqn:Hc.
    + split.
      * intros Hk a v Hs Ha.
        destruct (Re.rep_greedy p s k) eqn:Hdeep; [done|].
        destruct a as [|d a]; simpl in Hs; [by subst v|].
        injection Hs as <- ->. apply Forall_cons in Ha as [_ Ha].
        by apply (proj1 IH eq_refl a v).
      * intros Hk.
        rewrite (proj2 IH); [by apply (Hk [] (c :: s))|].
        intros a v -> Ha. apply (Hk (c :: a) v); [done|by constructor].
    + split.
      * intros Hk a v Hs Ha.
        destruct a as [|d a]; simpl in Hs; [by subst v|].
        injection Hs as <- ->. apply Forall_cons in Ha as [Hd _]. congruence.
      * intros Hk. by apply (Hk [] (c :: s)).
Qed.

(** It succeeds with the result of the continuation after the longest run
    after which the continuation succeeds. *)
Lemma rep_greedy_Some p s (k : list N -> option R) r :
  Re.rep_greedy p s k = Some r <->
  exists a v, s = a ++ v /\ Forall (fun c => p c = true) a /\ k v = Some r /\
    forall a' v', s = a' ++ v' -> Forall (fun c => p c = true) a' ->
      (length a < length a')%nat -> k v' = None.
Proof.
  induction s as [|c s IH]; simpl.
  - split.
    + intros Hk. exists [], []. split_and!; [done|done|done|].
      intros a' v' Hs _ Hlen. symmetry in Hs. apply app_eq_nil in Hs as [-> ->].
      simpl in Hlen. lia.
    + intros (a & v & Hs & _ & Hk & _). symmetry in Hs.
      apply app_eq_nil in Hs as [-> ->]. done.
  - destruct (p c) eqn:Hc.
    + split.
      * destruct (Re.rep_greedy p s k) as [r'|] eqn:Hdeep.
        -- intros [= ->].
           destruct (proj1 IH eq_refl) as (a & v & -> & Ha & Hk & Hbest).
           exists (c :: a), v. split_and!; [done|by constructor|done|].
           intros a' v' Hs Ha' Hlen.
           destruct a' as [|d a']; simpl in Hlen; [lia|].
           injection Hs as <- Hs. apply Forall_cons in Ha' as [_ Ha'].
           apply (Hbest a' v'); [done|done|lia].
        -- intros Hk. exists [], (c :: s). split_and!; [done|done|done|].
           intros a' v' Hs Ha' Hlen.
           destruct a' as [|d a']; simpl in Hlen; [lia|].
           injection Hs as <- ->. apply Forall_cons in Ha' as [_ Ha'].
           by apply (proj1 (rep_greedy_None p _ k) Hdeep a' v').
      * intros (a & v & Hs & Ha & Hk & Hbest).
        destruct a as [|d a]; simpl in Hs.
        -- subst v.
           rewrite (proj2 (rep_greedy_None p s k)); [done|].
           intros a' v' -> Ha'.
           apply (Hbest (c :: a') v'); [done|by constructor|simpl; lia].
        -- injection Hs as <- ->. apply Forall_cons in Ha as [_ Ha].
           rewrite (proj2 IH); [done|].
           exists a, v. split_and!; [done|done|done|].
           intros a' v' Hs Ha' Hlen.
           apply (Hbest (c :: a') v'); [by rewrite Hs|by constructor|simpl; lia].
    + split.
      * intros Hk. exists [], (c :: s). split_and!; [done|done|done|].
        intros a' v' Hs Ha' Hlen.
        destruct a' as [|d a']; simpl in Hlen; [lia|].
        injection Hs as <- ->. apply Forall_cons in Ha' as [Hd _]. congruence.
      * intros (a & v & Hs & Ha & Hk & _).
        destruct a as [|d a]; simpl in Hs; [by subst v|].
        injection Hs as <- ->. apply Forall_cons in Ha as [Hd _]. congruence.
Qed.

End MatcherFacts.

(** ** Entries: what [STRING_RE] matches

    The pattern read from left to right as functions on the text: the body
    runs to the first closing tag, the name to the next double quote and the
    opening tag to the next [>] after it; the only choice the matcher has is
    where [name=] starts among the characters before the first [>]. *)

Section Entries.

Lemma find_close_Some s body rest :
  find_close s = Some (body, rest) -> s = body ++ STRING_CLOSE ++ rest.
Proof.
  revert body. induction s as [|c s IH]; intros body.
  - simpl. done.
  - cbn [find_close].
    destruct (Re.strip_prefix STRING_CLOSE (c :: s)) as [rest'|] eqn:Hstrip.
    + intros [= <- <-]. by apply strip_prefix_Some in Hstrip.
    + destruct (find_close s) as [[body' rest']|]; [|done].
      intros [= <- <-]. simpl. f_equal. by apply IH.
Qed.

Lemma rep_lazy_find_close {R} (f : list N -> list N -> list N -> R) s :
  Re.rep_lazy Re.any s
    (fun s9 => match Re.strip_prefix STRING_CLOSE s9 with
               | Some s10 => Some (f (Re.consumed s s9) s9 s10)
               | None => None
               end)
  = match find_close s with
    | Some (body, rest) => Some (f body (STRING_CLOSE ++ rest) rest)
    | None => None
    end.
Proof.
  assert (forall pre,
    Re.rep_lazy Re.any s
      (fun s9 => match Re.strip_prefix STRING_CLOSE s9 with
                 | Some s10 => Some (f (Re.consumed (pre ++ s) s9) s9 s10)
                 | None => None
                 end)
    = match find_close s with
      | Some (body, rest) => Some (f (pre ++ body) (STRING_CLOSE ++ rest) rest)
      | None => None
      end) as Hgen.
  { induction s as [|c s IH]; intros pre.
    - simpl. done.
    - cbn [Re.rep_lazy find_close].
      destruct (Re.strip_prefix STRING_CLOSE (c :: s)) as [rest|] eqn:Hstrip.
      + apply strip_prefix_Some in Hstrip.
        rewrite consumed_app, app_nil_r. by rewrite <-Hstrip.
      + cbn [Re.any].
        erewrite rep_lazy_ext; [rewrite (IH (pre ++ [c]))|].
        * destruct (find_close s) as [[body rest]|]; [|done].
          by rewrite <-app_assoc.
        * intros v. by rewrite <-app_assoc. }
  apply (Hgen []).
Qed.

Lemma is_space_not_gt c : Re.is_space c = true -> nogt c = true.
Proof.
  unfold Re.no. destruct (N.eqb_spec c gt) as [->|]; [|done].
  by vm_compute.
Qed.

Lemma greedy_space_then_nogt {R} u (k : list N -> option R) :
  (forall c v, Re.is_space c = true -> k (c :: v) = None) ->
  Re.rep_greedy Re.is_space u (fun s1 => Re.rep_greedy nogt s1 k)
  = Re.rep_greedy nogt u k.
Proof.
  intros Hk. induction u as [|c u IH]; [done|].
  cbn [Re.rep_greedy]. destruct (Re.is_space c) eqn:Hc; [|done].
  rewrite IH, (is_space_not_gt c Hc).
  destruct (Re.rep_greedy nogt u k); [done|].
  by rewrite Hk.
Qed.

Lemma entry_tail_matcher s s3 :
  match s3 with
  | c0 :: s4 =>
      if noquote c0 then
        Re.rep_greedy noquote s4
          (fun s5 =>
             match Re.strip_prefix [dquote] s5 with
             | Some s6 =>
                 Re.rep_greedy nogt s6
                   (fun s7 =>
                      match Re.strip_prefix [gt] s7 with
                      | Some s8 =>
                          Re.rep_lazy Re.any s8
                            (fun s9 =>
                               match Re.strip_prefix STRING_CLOSE s9 with
                               | Some s10 =>
                                   Some (s10,
                                         Re.set_group 4 (Re.consumed s9 s10)
                                           (Re.set_group 3 (Re.consumed s8 s9)
                                              (Re.set_group 1 (Re.consumed s s8)
                                                 (Re.set_group 2 (Re.consumed s3 s5) []))))
                               | None => None
                               end)
                      | None => None
                      end)
             | None => None
             end)
      else None
  | [] => None
  end
  = match entry_tail s3 with
    | Some (name, s8, body, rest) =>
        Some (rest, entry_groups (Re.consumed s s8) name body)
    | None => None
    end.
Proof.
  destruct s3 as [|c0 s4]; [done|].
  unfold entry_tail. cbn [take_while drop_while].
  destruct (noquote c0) eqn:Hc0; [|done].
  rewrite rep_greedy_det.
  2: { intros c v Hc. cbn [Re.strip_prefix]. unfold Re.no in Hc.
       rewrite N.eqb_sym. by destruct (c =? dquote). }
  pose proof (take_drop_while noquote s4) as Hname.
  destruct (drop_while noquote s4) as [|d s6] eqn:Hs5; [done|].
  apply drop_while_head in Hs5 as Hd. unfold Re.no in Hd.
  apply negb_false_iff, N.eqb_eq in Hd. subst d.
  cbn [Re.strip_prefix]. rewrite N.eqb_refl.
  rewrite rep_greedy_det.
  2: { intros c v Hc. cbn [Re.strip_prefix]. unfold Re.no in Hc.
       rewrite N.eqb_sym. by destruct (c =? gt). }
  destruct (drop_while nogt s6) as [|g s8] eqn:Hs7; [done|].
  apply drop_while_head in Hs7 as Hg. unfold Re.no in Hg.
  apply negb_false_iff, N.eqb_eq in Hg. subst g.
  cbn [Re.strip_prefix]. rewrite N.eqb_refl.
  rewrite (rep_lazy_find_close
    (fun body s9 s10 =>
       (s10, Re.set_group 4 (Re.consumed s9 s10)
               (Re.set_group 3 body
                  (Re.set_group 1 (Re.consumed s s8)
                     (Re.set_group 2 (Re.consumed (c0 :: s4) (dquote :: s6)) [])))))).
  destruct (find_close s8) as [[body rest]|]; [|done].
  rewrite consumed_app.
  replace (Re.consumed (c0 :: s4) (dquote :: s6)) with (c0 :: take_while noquote s4).
  2: { assert (c0 :: s4 = (c0 :: take_while noquote s4) ++ dquote :: s6) as Hs3
         by (simpl; by rewrite Hname).
       rewrite Hs3 at 1. by rewrite consumed_app. }
  done.
Qed.

(** The matcher on [STRING_RE]: after [<string] and a whitespace character,
    the last start of [name=] before the first [>] from which the rest of
    the pattern matches. *)
Lemma match_at_STRING_RE s :
  Re.match_at STRING_RE s =
  match Re.strip_prefix STRING_OPEN s with
  | Some (c :: u) =>
      if Re.is_space c then Re.rep_greedy nogt u (candidate s) else None
  | _ => None
  end.
Proof.
  unfold Re.match_at, STRING_RE. cbn [Re.rmatch].
  destruct (Re.strip_prefix STRING_OPEN s) as [[|c u]|]; [done| |done].
  destruct (Re.is_space c); [|done].
  rewrite greedy_space_then_nogt.
  - apply rep_greedy_ext. intros s2. unfold candidate.
    destruct (Re.strip_prefix NAME_EQ s2) as [s3|]; [|done].
    apply (entry_tail_matcher s s3).
  - intros d v Hd. cbn [Re.strip_prefix NAME_EQ].
    destruct (N.eqb_spec 110 d) as [<-|]; [|done]. by vm_compute in Hd.
Qed.

End Entries.

Section EntryShape.

Lemma entry_tail_Some s3 name s8 body rest :
  entry_tail s3 = Some (name, s8, body, rest) ->
  exists a2,
    s3 = name ++ dquote :: a2 ++ gt :: s8 /\ name <> [] /\
    Forall (fun c => noquote c = true) name /\
    Forall (fun c => nogt c = true) a2 /\
    find_close s8 = Some (body, rest).
Proof.
  unfold entry_tail.
  pose proof (take_drop_while noquote s3) as Hname.
  pose proof (take_while_all noquote s3) as Hnoquote.
  destruct (take_while noquote s3) as [|n name'] eqn:Htake; [done|].
  destruct (drop_while noquote s3) as [|d s6] eqn:Hs5; [done|].
  apply drop_while_head in Hs5 as Hd. unfold Re.no in Hd.
  apply negb_false_iff, N.eqb_eq in Hd. subst d.
  pose proof (take_drop_while nogt s6) as Hattrs.
  pose proof (take_while_all nogt s6) as Hnogt.
  destruct (drop_while nogt s6) as [|g s8'] eqn:Hs7; [done|].
  apply drop_while_head in Hs7 as Hg. unfold Re.no in Hg.
  apply negb_false_iff, N.eqb_eq in Hg. subst g.
  destruct (find_close s8') as [[body' rest']|] eqn:Hclose; [|done].
  intros [= <- <- <- <-]. exists (take_while nogt s6).
  split_and!; [|done|done|done|done].
  by rewrite Hattrs.
Qed.

Lemma entry_tail_intro name a2 s8 body rest :
  name <> [] ->
  Forall (fun c => noquote c = true) name ->
  Forall (fun c => nogt c = true) a2 ->
  find_close s8 = Some (body, rest) ->
  entry_tail (name ++ dquote :: a2 ++ gt :: s8) = Some (name, s8, body, rest).
Proof.
  intros Hne Hname Ha2 Hclose. unfold entry_tail.
  rewrite take_while_stop, drop_while_stop by done.
  destruct name as [|n name]; [done|].
  rewrite drop_while_stop by done. by rewrite Hclose.
Qed.

Lemma opening_tag_cons hdr name :
  opening_tag hdr name -> exists c hdr', hdr = c :: hdr'.
Proof. intros (c & a1 & a2 & -> & _). by eexists _, _. Qed.

(** A match is an opening tag, a body and the closing tag, and the groups are
    these. *)
Lemma match_at_entry s rest g :
  Re.match_at STRING_RE s = Some (rest, g) ->
  exists hdr name body,
    s = hdr ++ body ++ STRING_CLOSE ++ rest /\
    g = entry_groups hdr name body /\
    opening_tag hdr name /\
    find_close (body ++ STRING_CLOSE ++ rest) = Some (body, rest).
Proof.
  rewrite match_at_STRING_RE.
  destruct (Re.strip_prefix STRING_OPEN s) as [[|c u]|] eqn:Hopen; [done| |done].
  apply strip_prefix_Some in Hopen.
  destruct (Re.is_space c) eqn:Hc; [|done].
  intros (a1 & s2 & -> & Ha1 & Hcand & _)%rep_greedy_Some.
  unfold candidate in Hcand.
  destruct (Re.strip_prefix NAME_EQ s2) as [s3|] eqn:Hname_eq; [|done].
  apply strip_prefix_Some in Hname_eq as ->.
  destruct (entry_tail s3) as [[[[name s8] body] rest']|] eqn:Htail; [|done].
  injection Hcand as -> <-.
  apply entry_tail_Some in Htail as (a2 & -> & Hne & Hname & Ha2 & Hclose).
  pose proof (find_close_Some _ _ _ Hclose) as ->.
  exists (STRING_OPEN ++ c :: a1 ++ NAME_EQ ++ name ++ dquote :: a2 ++ [gt]), name, body.
  assert (s = (STRING_OPEN ++ c :: a1 ++ NAME_EQ ++ name ++ dquote :: a2 ++ [gt])
              ++ body ++ STRING_CLOSE ++ rest) as Hs.
  { rewrite Hopen. by repeat (rewrite <-app_assoc || cbn [app]). }
  split_and!; [done| |by exists c, a1, a2|done].
  f_equal. rewrite Hs. apply consumed_app.
Qed.

End EntryShape.

(** ** Replacing a body under the matcher's eyes *)

Section Transport.

Lemma find_close_eq s :
  find_close s =
  match Re.strip_prefix STRING_CLOSE s with
  | Some rest => Some ([], rest)
  | None =>
      match s with
      | c :: s' =>
          match find_close s' with
          | Some (body, rest) => Some (c :: body, rest)
          | None => None
          end
      | [] => None
      end
  end.
Proof. by destruct s. Qed.

Lemma has_close_app_close a r : has_close (a ++ STRING_CLOSE ++ r).
Proof.
  unfold has_close. induction a as [|c a IH].
  - rewrite app_nil_l, find_close_eq. by rewrite strip_prefix_app.
  - rewrite find_close_eq.
    destruct (Re.strip_prefix _ _); [done|]. cbn [app].
    destruct IH as [[b rest] ->]. done.
Qed.

Lemma has_close_app a x : has_close x -> has_close (a ++ x).
Proof.
  unfold has_close. intros Hx. induction a as [|c a IH]; [done|].
  rewrite find_close_eq.
  destruct (Re.strip_prefix _ _); [done|]. cbn [app].
  destruct IH as [[b rest] ->]. done.
Qed.

Lemma strip_prefix_app_indep l a r r' :
  (length l <= length a)%nat ->
  Re.strip_prefix l (a ++ r) = None -> Re.strip_prefix l (a ++ r') = None.
Proof.
  revert a. induction l as [|c l IH]; intros a Hlen; [done|].
  destruct a as [|d a]; simpl in Hlen; [lia|].
  cbn [app Re.strip_prefix]. destruct (c =? d); [|done].
  apply IH. lia.
Qed.

Lemma find_close_rest b r r' :
  find_close (b ++ STRING_CLOSE ++ r) = Some (b, r) ->
  find_close (b ++ STRING_CLOSE ++ r') = Some (b, r').
Proof.
  induction b as [|c b IH].
  - intros _. rewrite app_nil_l, find_close_eq. by rewrite strip_prefix_app.
  - rewrite !(find_close_eq ((c :: b) ++ _)).
    destruct (Re.strip_prefix STRING_CLOSE ((c :: b) ++ STRING_CLOSE ++ r))
      as [rest|] eqn:Hstrip; [done|].
    rewrite (app_assoc (c :: b)) in Hstrip.
    apply (strip_prefix_app_indep _ _ _ r') in Hstrip;
      [|rewrite length_app; lia].
    rewrite <-app_assoc in Hstrip. rewrite Hstrip. cbn [app].
    destruct (find_close (b ++ STRING_CLOSE ++ r)) as [[b0 r0]|]; [|done].
    intros [= -> ->]. by rewrite (IH eq_refl).
Qed.

(** The closing tag does not overlap itself. *)
Lemma close_no_border p k r rest :
  STRING_CLOSE = p ++ k -> p <> [] -> STRING_CLOSE ++ r = k ++ rest -> k = [].
Proof.
  intros Hsplit Hp Hk. destruct k as [|e k]; [done|]. exfalso.
  destruct p as [|c p]; [done|].
  injection Hk as <- _. injection Hsplit as _ Htail.
  assert (60 ∈ p ++ 60 :: k) as Hin by set_solver.
  rewrite <-Htail in Hin.
  repeat (apply elem_of_cons in Hin as [?|Hin]; [done|]).
  by apply elem_of_nil in Hin.
Qed.

Lemma find_close_plain b r :
  ~ has_close b -> find_close (b ++ STRING_CLOSE ++ r) = Some (b, r).
Proof.
  induction b as [|c b IH]; intros Hb.
  - rewrite app_nil_l, find_close_eq. by rewrite strip_prefix_app.
  - rewrite find_close_eq.
    destruct (Re.strip_prefix STRING_CLOSE ((c :: b) ++ STRING_CLOSE ++ r))
      as [rest|] eqn:Hstrip.
    + exfalso. apply strip_prefix_Some in Hstrip.
      apply app_eq_inv in Hstrip as [(k & Hcb & _)|(k & Hclose & Hk)].
      * apply Hb. rewrite Hcb, <-(app_nil_l (STRING_CLOSE ++ k)).
        apply has_close_app_close.
      * pose proof (close_no_border (c :: b) k r rest Hclose ltac:(done) Hk) as ->.
        apply Hb. rewrite app_nil_r in Hclose. rewrite <-Hclose.
        by exists ([], []).
    + cbn [app]. rewrite IH; [done|].
      intros Hclose. apply Hb. by apply (has_close_app [c]).
Qed.

Lemma closes_has_close x : closes_later x -> has_close x.
Proof.
  unfold closes_later.
  pose proof (take_drop_while noquote x) as Hx.
  destruct (drop_while noquote x) as [|d x6]; [done|].
  pose proof (take_drop_while nogt x6) as Hx6.
  destruct (drop_while nogt x6) as [|g x8]; [done|].
  intros Hclose. rewrite <-Hx, <-Hx6.
  replace (take_while noquote x ++ d :: take_while nogt x6 ++ g :: x8)
    with ((take_while noquote x ++ d :: take_while nogt x6 ++ [g]) ++ x8)
    by (by repeat (rewrite <-app_assoc || cbn [app])).
  by apply has_close_app.
Qed.

Lemma closes_app_noquote y x :
  Forall (fun c => noquote c = true) y ->
  closes_later (y ++ x) <-> closes_later x.
Proof. intros Hy. unfold closes_later. by rewrite drop_while_app_all. Qed.

Lemma noquote_close : Forall (fun c => noquote c = true) STRING_CLOSE.
Proof. by repeat constructor. Qed.

Lemma closes_app_quote y d y6 r :
  drop_while noquote y = d :: y6 ->
  closes_later (y ++ STRING_CLOSE ++ r) <->
  match drop_while nogt y6 with
  | _ :: _ => True
  | [] => has_close r
  end.
Proof.
  intros Hy. unfold closes_later.
  rewrite (drop_while_app_stop _ _ _ _ _ Hy).
  destruct (drop_while nogt y6) as [|g y8] eqn:Hy6.
  - rewrite drop_while_app_all by (by apply drop_while_nil_all). done.
  - rewrite (drop_while_app_stop _ _ _ _ _ Hy6).
    split; [done|]. intros _. apply has_close_app_close.
Qed.

(** Replacing a body by itself or by one without a double quote, in front of
    a rest that was rewritten the same way, closes no name that was not closed
    before. *)
Lemma closes_later_mono b b' rest rest' :
  b' = b \/ Forall (fun c => c <> dquote) b' ->
  (closes_later rest' -> closes_later rest) ->
  (has_close rest' -> has_close rest) ->
  closes_later (b' ++ STRING_CLOSE ++ rest') ->
  closes_later (b ++ STRING_CLOSE ++ rest).
Proof.
  intros Hb Hcloses Hhas.
  assert (closes_later rest' -> closes_later (b ++ STRING_CLOSE ++ rest)) as Hrest.
  { intros Hr%Hcloses.
    destruct (drop_while noquote b) as [|d b6] eqn:Hdrop.
    - rewrite app_assoc. apply closes_app_noquote; [|done].
      apply Forall_app. split; [by apply drop_while_nil_all|apply noquote_close].
    - apply (closes_app_quote _ _ _ _ Hdrop).
      destruct (drop_while nogt b6); [|done]. by apply closes_has_close. }
  destruct (drop_while noquote b') as [|d b6] eqn:Hdrop.
  - rewrite (app_assoc b'), closes_app_noquote; [done|].
    apply Forall_app. split; [by apply drop_while_nil_all|apply noquote_close].
  - destruct Hb as [->|Hquote].
    + rewrite !(closes_app_quote _ _ _ _ Hdrop).
      destruct (drop_while nogt b6); [done|done].
    + apply drop_while_head in Hdrop as Hd.
      assert (d ∈ b') as Hin.
      { rewrite <-(take_drop_while noquote b'), Hdrop. set_solver. }
      rewrite Forall_forall in Hquote.
      specialize (Hquote d Hin). unfold Re.no in Hd.
      apply negb_false_iff, N.eqb_eq in Hd. done.
Qed.

End Transport.

Section TransportMatch.

Lemma last_cons_ne {A} (x : A) (l : list A) : l <> [] -> last (x :: l) = last l.
Proof. by destruct l. Qed.

Lemma forall_last_false (p : N -> bool) (l : list N) c :
  Forall (fun c => p c = true) l -> last l = Some c -> p c = false -> False.
Proof.
  intros Hl Hlast Hc. apply last_Some in Hlast as [l' ->].
  apply Forall_app in Hl as [_ Hl]. apply Forall_cons in Hl as [Hl _]. congruence.
Qed.

(** A text that ends with [>], cut after a run without [>]: the cut is
    inside, and what is left of the text ends with [>] too. *)
Lemma split_before_gt d x a v :
  last d = Some gt ->
  d ++ x = a ++ v ->
  Forall (fun c => nogt c = true) a ->
  exists d2, d = a ++ d2 /\ v = d2 ++ x /\ last d2 = Some gt.
Proof.
  intros Hlast Heq Ha.
  apply app_eq_inv in Heq as [(d2 & -> & ->)|(w & -> & ->)].
  - exists d2. split_and!; [done|done|].
    destruct d2 as [|e d2].
    { rewrite app_nil_r in Hlast. by destruct (forall_last_false _ _ _ Ha Hlast). }
    rewrite last_app in Hlast.
    destruct (last (e :: d2)) eqn:Hd2; [done|]. by apply last_None in Hd2.
  - apply Forall_app in Ha as [Hd _].
    by destruct (forall_last_false _ _ _ Hd Hlast).
Qed.

Lemma last_app_r {A} (l1 l2 : list A) : l2 <> [] -> last (l1 ++ l2) = last l2.
Proof.
  intros Hne. rewrite last_app.
  destruct (last l2) eqn:Hl2; [done|]. by apply last_None in Hl2.
Qed.

(** With a name open at the end of [w], the rest of the pattern matches
    exactly when the name is closed later. *)
Lemma entry_tail_open w x :
  w <> [] -> Forall (fun c => noquote c = true) w ->
  is_Some (entry_tail (w ++ x)) <-> closes_later x.
Proof.
  intros Hne Hw. unfold entry_tail, closes_later.
  rewrite take_while_app_all, drop_while_app_all by done.
  destruct w as [|c w]; [done|]. cbn [app].
  destruct (drop_while noquote x) as [|d x6]; [by split; [intros [? ?]|]|].
  destruct (drop_while nogt x6) as [|g x8]; [by split; [intros [? ?]|]|].
  unfold has_close.
  destruct (find_close x8) as [[body rest]|]; split; intros [? ?]; by eauto.
Qed.

(** A candidate that fails before a replaced body fails after it. *)
Lemma entry_tail_None_transport w x x' :
  last w = Some gt ->
  has_close x ->
  (Forall (fun c => noquote c = true) w -> closes_later x' -> closes_later x) ->
  entry_tail (w ++ x) = None -> entry_tail (w ++ x') = None.
Proof.
  intros Hlast Hx Hcloses Hnone.
  assert (w <> []) as Hne by (by intros ->).
  destruct (drop_while noquote w) as [|d w6] eqn:Hdrop.
  - apply drop_while_nil_all in Hdrop.
    apply eq_None_not_Some. rewrite entry_tail_open by done.
    intros Hc%(Hcloses Hdrop). apply (entry_tail_open w x) in Hc; [|done|done].
    rewrite Hnone in Hc. by destruct Hc.
  - revert Hnone. unfold entry_tail.
    rewrite !(take_while_app_stop _ _ _ _ _ Hdrop).
    rewrite !(drop_while_app_stop _ _ _ _ _ Hdrop).
    pose proof (take_drop_while noquote w) as Hw. rewrite Hdrop in Hw.
    destruct (take_while noquote w) as [|n name]; [done|].
    assert (last w6 = Some gt) as Hlast6.
    { rewrite <-Hw, last_app_r in Hlast by done.
      destruct w6 as [|e w6]; [|by rewrite last_cons_ne in Hlast].
      injection Hlast as ->.
      apply drop_while_head in Hdrop. by vm_compute in Hdrop. }
    destruct (drop_while nogt w6) as [|g w8] eqn:Hdrop6.
    { apply drop_while_nil_all in Hdrop6.
      by destruct (forall_last_false _ _ _ Hdrop6 Hlast6). }
    rewrite !(drop_while_app_stop _ _ _ _ _ Hdrop6).
    destruct (has_close_app w8 x Hx) as [[body rest] ->]. done.
Qed.

Lemma gt_not_in_name_eq : gt ∉ NAME_EQ.
Proof. intros Hin. by repeat (apply elem_of_cons in Hin as [?|Hin]; [done|]); inversion Hin. Qed.

(** The same for the start of [name=]. *)
Lemma candidate_None_transport s s' d2 x x' :
  last d2 = Some gt ->
  has_close x ->
  (forall w, d2 = NAME_EQ ++ w -> Forall (fun c => noquote c = true) w ->
     closes_later x' -> closes_later x) ->
  candidate s (d2 ++ x) = None -> candidate s' (d2 ++ x') = None.
Proof.
  intros Hlast Hx Hcloses. unfold candidate.
  destruct (Re.strip_prefix NAME_EQ (d2 ++ x')) as [s3'|] eqn:Hstrip'; [|done].
  apply strip_prefix_Some in Hstrip'.
  apply app_eq_inv in Hstrip' as [(w & Hw & ->)|(w & Hw & ->)].
  2: { exfalso. apply gt_not_in_name_eq. apply last_Some in Hlast as [d2' ->].
       rewrite Hw. set_solver. }
  subst d2. rewrite <-app_assoc, strip_prefix_app.
  assert (last w = Some gt) as Hlastw.
  { destruct w as [|e w]; [by vm_compute in Hlast|].
    by rewrite last_app_r in Hlast. }
  destruct (entry_tail (w ++ x)) as [[[[? ?] ?] ?]|] eqn:Htail; [done|].
  intros _. rewrite (entry_tail_None_transport w x x'); [done..| |done].
  by apply Hcloses.
Qed.

Lemma strip_prefix_app_long l c0 x :
  (length l <= length c0)%nat ->
  Re.strip_prefix l (c0 ++ x) = (fun r => r ++ x) <$> Re.strip_prefix l c0.
Proof.
  revert c0. induction l as [|c l IH]; intros c0 Hlen; [done|].
  destruct c0 as [|d c0]; simpl in Hlen; [lia|].
  cbn [app Re.strip_prefix]. destruct (c =? d); [|done].
  apply IH. lia.
Qed.

Lemma name_open_intro a w :
  Forall (fun c => noquote c = true) w -> name_open (a ++ NAME_EQ ++ w) = true.
Proof.
  intros Hw. unfold name_open.
  rewrite !reverse_app, <-app_assoc.
  rewrite drop_while_app_all by (by apply Forall_reverse).
  change (reverse NAME_EQ ++ reverse a)
    with (dquote :: tail (reverse NAME_EQ) ++ reverse a).
  cbn [drop_while]. change (noquote dquote) with false. cbv iota.
  change (dquote :: tail (reverse NAME_EQ) ++ reverse a)
    with (reverse NAME_EQ ++ reverse a).
  by rewrite strip_prefix_app.
Qed.

Lemma drop_while_length p l1 c l2 :
  p c = false -> (length l2 < length (drop_while p (l1 ++ c :: l2)))%nat.
Proof.
  intros Hc. induction l1 as [|d l1 IH]; cbn [app drop_while].
  - rewrite Hc. simpl. lia.
  - destruct (p d); [done|]. simpl. rewrite length_app. simpl. lia.
Qed.

(** What comes before an opening tag does not open a name in it. *)
Lemma name_open_app v hdr name :
  opening_tag hdr name -> name_open (v ++ hdr) = name_open hdr.
Proof.
  intros (c & a1 & a2 & Hhdr & _). unfold name_open. rewrite reverse_app.
  set (front := STRING_OPEN ++ c :: a1 ++ NAME_EQ ++ name).
  assert (reverse hdr = reverse (a2 ++ [gt]) ++ dquote :: reverse front) as Hrev.
  { rewrite Hhdr.
    replace (STRING_OPEN ++ c :: a1 ++ NAME_EQ ++ name ++ dquote :: a2 ++ [gt])
      with (front ++ dquote :: a2 ++ [gt])
      by (unfold front; by repeat (rewrite <-app_assoc || cbn [app])).
    rewrite reverse_app, reverse_cons, <-app_assoc. done. }
  pose proof (drop_while_length noquote (reverse (a2 ++ [gt])) dquote
                (reverse front) eq_refl) as Hlen.
  rewrite <-Hrev in Hlen.
  destruct (drop_while noquote (reverse hdr)) as [|d r] eqn:Hdrop;
    [simpl in Hlen; lia|].
  rewrite (drop_while_app_stop _ _ _ _ _ Hdrop).
  change (d :: r ++ reverse v) with ((d :: r) ++ reverse v).
  rewrite (strip_prefix_app_long _ (d :: r)).
  - by destruct (Re.strip_prefix (reverse NAME_EQ) (d :: r)).
  - rewrite length_reverse in Hlen. unfold front in Hlen.
    rewrite !length_app in Hlen. simpl in *. lia.
Qed.

(** An attempt that fails before a replaced body fails after it. *)
Lemma match_at_None_transport c0 x x' :
  (length STRING_OPEN < length c0)%nat ->
  last c0 = Some gt ->
  has_close x ->
  (name_open c0 = true -> closes_later x' -> closes_later x) ->
  Re.match_at STRING_RE (c0 ++ x) = None ->
  Re.match_at STRING_RE (c0 ++ x') = None.
Proof.
  intros Hlen Hlast Hx Hcloses.
  rewrite !match_at_STRING_RE, !strip_prefix_app_long by lia.
  destruct (Re.strip_prefix STRING_OPEN c0) as [[|c d]|] eqn:Hopen; [|
    |done].
  { apply strip_prefix_Some in Hopen. subst c0. rewrite app_nil_r in Hlen. lia. }
  cbn [fmap option_fmap option_map app].
  destruct (Re.is_space c) eqn:Hc; [|done].
  apply strip_prefix_Some in Hopen. subst c0.
  assert (last d = Some gt) as Hlastd.
  { rewrite last_app_r in Hlast by done.
    destruct d as [|e d]; [|by rewrite last_cons_ne in Hlast].
    injection Hlast as ->. by vm_compute in Hc. }
  rewrite !rep_greedy_None. intros Hnone a v Heq Ha.
  destruct (split_before_gt _ _ _ _ Hlastd Heq Ha) as (d2 & -> & -> & Hlast2).
  apply (candidate_None_transport ((STRING_OPEN ++ c :: a ++ d2) ++ x) _ d2 x x');
    [done|done| |].
  - intros w -> Hw. apply Hcloses.
    replace (STRING_OPEN ++ c :: a ++ NAME_EQ ++ w)
      with ((STRING_OPEN ++ c :: a) ++ NAME_EQ ++ w)
      by (by repeat (rewrite <-app_assoc || cbn [app])).
    by apply name_open_intro.
  - apply (Hnone a); [by rewrite <-app_assoc|done].
Qed.

(** A match is an opening tag, a body and the closing tag, and with another
    body in its place, one that ends at the closing tag and closes no name
    that was open, the match is the same but for the body. *)
Lemma match_at_transport s rest g :
  Re.match_at STRING_RE s = Some (rest, g) ->
  exists hdr name body,
    s = hdr ++ body ++ STRING_CLOSE ++ rest /\
    g = entry_groups hdr name body /\
    opening_tag hdr name /\
    find_close (body ++ STRING_CLOSE ++ rest) = Some (body, rest) /\
    forall body' rest',
      find_close (body' ++ STRING_CLOSE ++ rest') = Some (body', rest') ->
      (name_open hdr = true ->
       closes_later (body' ++ STRING_CLOSE ++ rest') ->
       closes_later (body ++ STRING_CLOSE ++ rest)) ->
      Re.match_at STRING_RE (hdr ++ body' ++ STRING_CLOSE ++ rest')
      = Some (rest', entry_groups hdr name body').
Proof.
  rewrite match_at_STRING_RE.
  destruct (Re.strip_prefix STRING_OPEN s) as [[|c u]|] eqn:Hopen; [done| |done].
  apply strip_prefix_Some in Hopen.
  destruct (Re.is_space c) eqn:Hc; [|done].
  intros (a1 & s2 & -> & Ha1 & Hcand & Hbest)%rep_greedy_Some.
  unfold candidate in Hcand.
  destruct (Re.strip_prefix NAME_EQ s2) as [s3|] eqn:Hname_eq; [|done].
  apply strip_prefix_Some in Hname_eq as ->.
  destruct (entry_tail s3) as [[[[name s8] body] rest0]|] eqn:Htail; [|done].
  injection Hcand as -> <-.
  apply entry_tail_Some in Htail as (a2 & -> & Hne & Hname & Ha2 & Hclose).
  pose proof (find_close_Some _ _ _ Hclose) as ->.
  set (d := a1 ++ NAME_EQ ++ name ++ dquote :: a2 ++ [gt]).
  set (hdr := STRING_OPEN ++ c :: d).
  assert (forall y, STRING_OPEN ++ c :: a1 ++ NAME_EQ ++ name ++ dquote :: a2 ++ gt :: y
                    = hdr ++ y) as Hhdr.
  { intros y. unfold hdr, d. by repeat (rewrite <-app_assoc || cbn [app]). }
  assert (forall y, a1 ++ NAME_EQ ++ name ++ dquote :: a2 ++ gt :: y = d ++ y) as Hd.
  { intros y. unfold d. by repeat (rewrite <-app_assoc || cbn [app]). }
  rewrite Hhdr in Hopen. rewrite Hd in Hbest.
  exists hdr, name, body.
  split_and!; [done| |by exists c, a1, a2|done|].
  { f_equal. rewrite Hopen. apply consumed_app. }
  intros body' rest' Hclose' Hcloses.
  rewrite match_at_STRING_RE. unfold hdr at 1.
  rewrite <-app_assoc, strip_prefix_app. cbn [app]. rewrite Hc.
  apply rep_greedy_Some.
  exists a1, (NAME_EQ ++ name ++ dquote :: a2 ++ gt :: body' ++ STRING_CLOSE ++ rest').
  split_and!; [by rewrite Hd|done| |].
  - unfold candidate. rewrite strip_prefix_app.
    rewrite (entry_tail_intro name a2 _ body' rest') by done.
    do 3 f_equal. rewrite <-(Hhdr (body' ++ _)). 
    rewrite (Hhdr (body' ++ _)). apply consumed_app.
  - intros a' v' Heq Ha' Hlonger.
    assert (last d = Some gt) as Hlastd.
    { replace d with ((a1 ++ NAME_EQ ++ name ++ dquote :: a2) ++ [gt])
        by (unfold d; by repeat (rewrite <-app_assoc || cbn [app])).
      apply last_snoc. }
    destruct (split_before_gt _ _ _ _ Hlastd Heq Ha') as (d2 & Hd2 & -> & Hlast2).
    apply (candidate_None_transport s _ d2 (body ++ STRING_CLOSE ++ rest));
      [done|apply has_close_app_close| |].
    + intros w -> Hw. apply Hcloses. unfold hdr. rewrite Hd2.
      replace (STRING_OPEN ++ c :: a' ++ NAME_EQ ++ w)
        with ((STRING_OPEN ++ c :: a') ++ NAME_EQ ++ w)
        by (by repeat (rewrite <-app_assoc || cbn [app])).
      by apply name_open_intro.
    + apply (Hbest a'); [by rewrite Hd2, <-app_assoc|done|done].
Qed.

End TransportMatch.

(** ** Entries of a text and the Rewriter *)

Section Scan.

Lemma match_consumes s rest g :
  Re.match_at STRING_RE s = Some (rest, g) ->
  exists n, (length s - length rest = S n)%nat.
Proof.
  intros (hdr & name & body & -> & _ & Htag & _)%match_at_entry.
  destruct (opening_tag_cons _ _ Htag) as (c & hdr' & ->).
  exists (length (hdr' ++ body ++ STRING_CLOSE)).
  rewrite <-app_comm_cons. cbn [length]. rewrite !length_app. lia.
Qed.

Lemma finditer_from_Some fuel pos s rest g :
  Re.match_at STRING_RE s = Some (rest, g) ->
  Re.finditer_from (S fuel) STRING_RE pos s =
  Re.mkMatch pos (pos + (length s - length rest)) (Re.consumed s rest) g
  :: Re.finditer_from fuel STRING_RE (pos + (length s - length rest)) rest.
Proof.
  intros Hm. cbn [Re.finditer_from]. rewrite Hm.
  destruct (match_consumes _ _ _ Hm) as [n ->]. done.
Qed.

Lemma finditer_from_None fuel pos s :
  Re.match_at STRING_RE s = None ->
  Re.finditer_from (S fuel) STRING_RE pos s =
  match s with
  | [] => []
  | _ :: s1 => Re.finditer_from fuel STRING_RE (S pos) s1
  end.
Proof. intros Hm. cbn [Re.finditer_from]. by rewrite Hm. Qed.

(** The entries are [finditer]'s matches. *)
Lemma finditer_scan fuel pos before s :
  match_parts <$> Re.finditer_from fuel STRING_RE pos s
  = entry_parts <$> (scan fuel before s).1.
Proof.
  revert pos before s. induction fuel as [|fuel IH]; intros pos before s; [done|].
  destruct (Re.match_at STRING_RE s) as [[rest g]|] eqn:Hm.
  - rewrite (finditer_from_Some _ _ _ _ _ Hm). cbn [scan]. rewrite Hm.
    specialize (IH (pos + (length s - length rest))%nat [] rest).
    destruct (scan fuel [] rest) as [es tail]. cbn [fst fmap list_fmap] in *.
    by rewrite IH.
  - rewrite (finditer_from_None _ _ _ Hm). cbn [scan]. rewrite Hm.
    destruct s as [|c s1]; [done|]. apply IH.
Qed.

(** The entries and the text around them make up the text. *)
Lemma scan_document fuel before s :
  document (scan fuel before s).1 (scan fuel before s).2 = before ++ s.
Proof.
  revert before s. induction fuel as [|fuel IH]; intros before s; [done|].
  cbn [scan].
  destruct (Re.match_at STRING_RE s) as [[rest g]|] eqn:Hm.
  - apply match_at_entry in Hm as (hdr & name & body & -> & -> & _).
    specialize (IH [] rest).
    destruct (scan fuel [] rest) as [es tail]. cbn [fst snd] in *.
    unfold document in *. cbn [fmap list_fmap concat].
    rewrite <-app_assoc, IH. unfold entry_text. cbn.
    by repeat (rewrite <-app_assoc || cbn [app]).
  - destruct s as [|c s1].
    + unfold document. cbn. by rewrite app_nil_r.
    + rewrite IH. by rewrite <-app_assoc.
Qed.

End Scan.
Section Rewriter.
Context `{FileSystem}.
Variable target_content : list N.
Variable replacements : gmap (list N) (list N).

Lemma document_cons e es tail :
  document (e :: es) tail = entry_text e ++ document es tail.
Proof. unfold document. cbn [fmap list_fmap concat]. by rewrite <-app_assoc. Qed.

Lemma slice_before pre s last :
  (last <= length pre)%nat -> slice (pre ++ s) last (length pre) = drop last pre.
Proof.
  intros Hlast. unfold slice. rewrite drop_app_le by done.
  rewrite take_app_le by (rewrite length_drop; lia).
  apply take_ge. rewrite length_drop. lia.
Qed.

(** One turn of the loop on an entry. *)
Lemma rewrite_step_entry pre hdr name body rest parts last :
  target_content = pre ++ (hdr ++ body ++ STRING_CLOSE) ++ rest ->
  (last <= length pre)%nat ->
  exists parts',
    rewrite_step target_content replacements (parts, last)
      (Re.mkMatch (length pre) (length (pre ++ hdr ++ body ++ STRING_CLOSE))
         (hdr ++ body ++ STRING_CLOSE) (entry_groups hdr name body))
    = (parts', length (pre ++ hdr ++ body ++ STRING_CLOSE)) /\
    concat parts'
    = concat parts ++ drop last pre ++ hdr
      ++ default body (replacements !! name) ++ STRING_CLOSE.
Proof.
  intros Htarget Hlast.
  assert (slice target_content last (length pre) = drop last pre) as Hslice
    by (rewrite Htarget; by apply slice_before).
  unfold rewrite_step. cbn [Re.m_start Re.m_end]. rewrite Hslice.
  change (group_str _ g_name) with name.
  destruct (replacements !! name) as [new_body|]; eexists; (split; [done|]).
  - rewrite !concat_app. cbn. rewrite !app_nil_r.
    by repeat (rewrite <-app_assoc || cbn [app]).
  - rewrite !concat_app. cbn. rewrite !app_nil_r.
    by repeat (rewrite <-app_assoc || cbn [app]).
Qed.

(** [rewrite_strings]'s loop, from any point of the text on: the parts it
    collects are the entries with their bodies resolved and the text between
    them. *)
Lemma rewrite_loop fuel pre s parts last :
  target_content = pre ++ s ->
  (last <= length pre)%nat ->
  let st := foldl (rewrite_step target_content replacements) (parts, last)
                  (Re.finditer_from fuel STRING_RE (length pre) s) in
  concat st.1 ++ drop st.2 target_content
  = concat parts
    ++ document (resolve_body replacements <$> (scan fuel (drop last pre) s).1)
                (scan fuel (drop last pre) s).2.
Proof.
  revert pre s parts last.
  induction fuel as [|fuel IH]; intros pre s parts last Htarget Hlast.
  { cbn. rewrite Htarget, drop_app_le by done. done. }
  destruct (Re.match_at STRING_RE s) as [[rest g]|] eqn:Hm.
  - rewrite (finditer_from_Some _ _ _ _ _ Hm). cbn [scan foldl]. rewrite Hm.
    apply match_at_entry in Hm as (hdr & name & body & -> & -> & _).
    set (found := hdr ++ body ++ STRING_CLOSE).
    assert (hdr ++ body ++ STRING_CLOSE ++ rest = found ++ rest) as Hfound
      by (unfold found; by rewrite <-!app_assoc).
    rewrite Hfound in *. rewrite consumed_app.
    replace (length (found ++ rest) - length rest)%nat with (length found)
      by (rewrite length_app; lia).
    rewrite <-(length_app pre found).
    destruct (rewrite_step_entry pre hdr name body rest parts last Htarget Hlast)
      as (parts' & Hstep & Hparts').
    fold found in Hstep. rewrite Hstep.
    assert (target_content = (pre ++ found) ++ rest) as Htarget'
      by (by rewrite Htarget, <-app_assoc).
    pose proof (IH (pre ++ found) rest parts' (length (pre ++ found))
                  Htarget' (Nat.le_refl _)) as Hrec.
    rewrite drop_all in Hrec. cbn zeta in Hrec. rewrite Hrec, Hparts'.
    destruct (scan fuel [] rest) as [es tail]. cbn [fst snd].
    cbn [fmap list_fmap]. rewrite document_cons.
    unfold resolve_body at 1, entry_text. cbn.
    by repeat (rewrite <-app_assoc || cbn [app]).
  - rewrite (finditer_from_None _ _ _ Hm). cbn [scan]. rewrite Hm.
    destruct s as [|c s1].
    + cbn. rewrite Htarget, app_nil_r. done.
    + pose proof (IH (pre ++ [c]) s1 parts last) as Hrec.
      rewrite length_app, Nat.add_1_r in Hrec.
      rewrite (drop_app_le pre) in Hrec by done.
      apply Hrec; [by rewrite Htarget, <-app_assoc|lia].
Qed.

(** What [rewrite_strings] writes: the target's entries with their bodies
    resolved, and the text around them. *)
Lemma rewritten_document :
  rewritten target_content replacements
  = document
      (resolve_body replacements
         <$> (scan (S (length target_content)) [] target_content).1)
      (scan (S (length target_content)) [] target_content).2.
Proof.
  unfold rewritten, Re.finditer.
  pose proof (rewrite_loop (S (length target_content)) [] target_content [] 0%nat
                eq_refl (Nat.le_refl _)) as Hloop.
  cbn [length drop concat app] in Hloop.
  destruct (foldl _ _ _) as [new_content_parts last_idx]. cbn [fst snd] in Hloop.
  rewrite concat_app. cbn. by rewrite app_nil_r.
Qed.

End Rewriter.

(** ** Scanning the Rewriter's output *)

Section ScanFacts.

Lemma scan_fuel fuel fuel' before s :
  (length s < fuel)%nat -> (length s < fuel')%nat ->
  scan fuel before s = scan fuel' before s.
Proof.
  revert fuel' before s.
  induction fuel as [|fuel IH]; intros fuel' before s Hfuel Hfuel'; [lia|].
  destruct fuel' as [|fuel']; [lia|]. cbn [scan].
  destruct (Re.match_at STRING_RE s) as [[rest g]|] eqn:Hm.
  - destruct (match_consumes _ _ _ Hm) as [n Hn].
    rewrite (IH fuel' [] rest) by lia. done.
  - destruct s as [|c s1]; [done|]. simpl in *. apply IH; lia.
Qed.

Lemma scan_no_match fuel before s :
  (forall v1 v2, s = v1 ++ v2 -> Re.match_at STRING_RE v2 = None) ->
  scan fuel before s = ([], before ++ s).
Proof.
  revert before s. induction fuel as [|fuel IH]; intros before s Hnone; [done|].
  cbn [scan]. rewrite (Hnone [] s eq_refl).
  destruct s as [|c s1]; [by rewrite app_nil_r|].
  rewrite IH; [by rewrite <-app_assoc|].
  intros v1 v2 ->. by apply (Hnone (c :: v1)).
Qed.

Lemma scan_first_match fuel before pre s0 rest g :
  (length pre < fuel)%nat ->
  (forall v1 v2, pre = v1 ++ v2 -> v2 <> [] ->
     Re.match_at STRING_RE (v2 ++ s0) = None) ->
  Re.match_at STRING_RE s0 = Some (rest, g) ->
  scan fuel before (pre ++ s0)
  = (entry_of (before ++ pre) g :: (scan (fuel - S (length pre)) [] rest).1,
     (scan (fuel - S (length pre)) [] rest).2).
Proof.
  revert fuel before.
  induction pre as [|c pre IH]; intros fuel before Hfuel Hnone Hm.
  - destruct fuel as [|fuel]; [simpl in Hfuel; lia|].
    replace (S fuel - S (length (@nil N)))%nat with fuel by (cbn; lia).
    cbn [scan app]. rewrite Hm, app_nil_r.
    by destruct (scan fuel [] rest).
  - destruct fuel as [|fuel]; [simpl in Hfuel; lia|].
    replace (S fuel - S (length (c :: pre)))%nat with (fuel - S (length pre))%nat
      by (cbn; lia).
    pose proof (Hnone [] (c :: pre) eq_refl ltac:(done)) as Hc.
    cbn [scan app] in *. rewrite Hc.
    rewrite IH; [|simpl in Hfuel; lia| |done].
    + rewrite <-app_assoc. done.
    + intros v1 v2 -> Hne. by apply (Hnone (c :: v1)).
Qed.

Lemma match_at_nil : Re.match_at STRING_RE [] = None.
Proof. done. Qed.

(** A text has no entry, or a first one. *)
Lemma scan_cases s :
  (forall v1 v2, s = v1 ++ v2 -> Re.match_at STRING_RE v2 = None) \/
  (exists pre s0 rest g,
     s = pre ++ s0 /\
     (forall v1 v2, pre = v1 ++ v2 -> v2 <> [] ->
        Re.match_at STRING_RE (v2 ++ s0) = None) /\
     Re.match_at STRING_RE s0 = Some (rest, g)).
Proof.
  induction s as [|c s IH].
  - left. intros v1 v2 Hs. symmetry in Hs. apply app_eq_nil in Hs as [_ ->].
    apply match_at_nil.
  - destruct (Re.match_at STRING_RE (c :: s)) as [[rest g]|] eqn:Hm.
    { right. exists [], (c :: s), rest, g. split_and!; [done| |done].
      intros v1 v2 Hnil. symmetry in Hnil. by apply app_eq_nil in Hnil as [_ ->]. }
    destruct IH as [Hnone|(pre & s0 & rest & g & -> & Hnone & Hm0)].
    + left. intros [|d v1] v2; cbn [app].
      * by intros <-.
      * intros [= <- ->]. by apply (Hnone v1).
    + right. exists (c :: pre), s0, rest, g. split_and!; [done| |done].
      intros [|d v1] v2; cbn [app].
      * by intros <- _.
      * intros [= <- ->] Hne. by apply (Hnone v1).
Qed.

Lemma after_quote_gt z d z6 :
  last z = Some gt -> drop_while noquote z = d :: z6 ->
  exists g z8, drop_while nogt z6 = g :: z8.
Proof.
  intros Hlast Hdrop.
  pose proof (take_drop_while noquote z) as Hz. rewrite Hdrop in Hz.
  assert (last z6 = Some gt) as Hlast6.
  { rewrite <-Hz, last_app_r in Hlast by done.
    destruct z6 as [|e z6]; [|by rewrite last_cons_ne in Hlast].
    injection Hlast as ->.
    apply drop_while_head in Hdrop. by vm_compute in Hdrop. }
  destruct (drop_while nogt z6) as [|g z8] eqn:Hdrop6; [|by eauto].
  apply drop_while_nil_all in Hdrop6.
  by destruct (forall_last_false _ _ _ Hdrop6 Hlast6).
Qed.

Lemma opening_tag_last hdr name : opening_tag hdr name -> last hdr = Some gt.
Proof.
  intros (c & a1 & a2 & -> & _).
  replace (STRING_OPEN ++ c :: a1 ++ NAME_EQ ++ name ++ dquote :: a2 ++ [gt])
    with ((STRING_OPEN ++ c :: a1 ++ NAME_EQ ++ name ++ dquote :: a2) ++ [gt])
    by (by repeat (rewrite <-app_assoc || cbn [app])).
  apply last_snoc.
Qed.

Lemma opening_tag_length hdr name :
  opening_tag hdr name -> (length STRING_OPEN < length hdr)%nat.
Proof. intros (c & a1 & a2 & -> & _). rewrite length_app. simpl. lia. Qed.

(** A text with an entry in it closes a name left open before it. *)
Lemma entry_closes pre hdr name y :
  opening_tag hdr name -> has_close y -> closes_later (pre ++ hdr ++ y).
Proof.
  intros Htag Hy. unfold closes_later. rewrite app_assoc.
  assert (last (pre ++ hdr) = Some gt) as Hlast.
  { rewrite last_app_r; [by eapply opening_tag_last|].
    destruct (opening_tag_cons _ _ Htag) as (c & hdr' & ->). done. }
  destruct (drop_while noquote (pre ++ hdr)) as [|d z6] eqn:Hdrop.
  { apply drop_while_nil_all in Hdrop.
    destruct Htag as (c & a1 & a2 & -> & _).
    rewrite Forall_forall in Hdrop. specialize (Hdrop dquote).
    unfold Re.no in Hdrop. rewrite N.eqb_refl in Hdrop.
    discriminate Hdrop. set_solver. }
  rewrite (drop_while_app_stop _ _ _ _ _ Hdrop).
  destruct (after_quote_gt _ _ _ Hlast Hdrop) as (g & z8 & Hdrop6).
  rewrite (drop_while_app_stop _ _ _ _ _ Hdrop6). by apply has_close_app.
Qed.

End ScanFacts.

Section Rescan.
Variable replacements : gmap (list N) (list N).

Lemma rewrite_text_no_match s :
  (forall v1 v2, s = v1 ++ v2 -> Re.match_at STRING_RE v2 = None) ->
  rewrite_text replacements s = s.
Proof. intros Hnone. unfold rewrite_text. by rewrite scan_no_match. Qed.

Lemma rewrite_text_first_match pre s0 rest g :
  (forall v1 v2, pre = v1 ++ v2 -> v2 <> [] ->
     Re.match_at STRING_RE (v2 ++ s0) = None) ->
  Re.match_at STRING_RE s0 = Some (rest, g) ->
  scan (S (length (pre ++ s0))) [] (pre ++ s0)
  = (entry_of pre g :: (scan (S (length rest)) [] rest).1,
     (scan (S (length rest)) [] rest).2).
Proof.
  intros Hnone Hm.
  rewrite (scan_first_match _ [] pre s0 rest g) by (rewrite ?length_app; done || lia).
  destruct (match_consumes _ _ _ Hm) as [n Hn].
  rewrite (scan_fuel _ (S (length rest)) [] rest) by (rewrite ?length_app; lia).
  done.
Qed.

Lemma rewrite_text_keeps_open s :
  (closes_later (rewrite_text replacements s) -> closes_later s) /\
  (has_close (rewrite_text replacements s) -> has_close s).
Proof.
  destruct (scan_cases s) as [Hnone|(pre & s0 & rest & g & -> & Hnone & Hm)].
  - by rewrite rewrite_text_no_match.
  - apply match_at_entry in Hm as (hdr & name & body & -> & _ & Htag & _).
    split; intros _.
    + apply (entry_closes pre hdr name); [done|]. apply has_close_app_close.
    + rewrite !app_assoc, <-(app_assoc _ STRING_CLOSE). apply has_close_app_close.
Qed.

Lemma resolved_entry_text pre hdr name body :
  entry_text (resolve_body replacements (entry_of pre (entry_groups hdr name body)))
  = pre ++ hdr ++ default body (replacements !! name) ++ STRING_CLOSE.
Proof. done. Qed.

Lemma resolved_entry_of pre hdr name body :
  resolve_body replacements (entry_of pre (entry_groups hdr name body))
  = entry_of pre (entry_groups hdr name (default body (replacements !! name))).
Proof. done. Qed.

(** Scanning what the Rewriter made of a text finds the entries of the text
    with their bodies resolved, and the same text around them. *)
Lemma rescan s fuel :
  fitting replacements (scan (S (length s)) [] s).1 ->
  (length (rewrite_text replacements s) < fuel)%nat ->
  scan fuel [] (rewrite_text replacements s)
  = (resolve_body replacements <$> (scan (S (length s)) [] s).1,
     (scan (S (length s)) [] s).2).
Proof.
  remember (length s) as n eqn:Hn. revert s Hn fuel.
  induction n as [n IH] using lt_wf_ind. intros s -> fuel Hfit Hfuel.
  destruct (scan_cases s) as [Hnone|(pre & s0 & rest & g & -> & Hnone & Hm)].
  { rewrite rewrite_text_no_match in * by done. by rewrite !scan_no_match. }
  pose proof Hm as Hm'.
  apply match_at_transport in Hm'
    as (hdr & name & body & -> & -> & Htag & Hclose & Htrans).
  unfold rewrite_text in *.
  rewrite (rewrite_text_first_match pre _ rest _ Hnone Hm) in *.
  cbn [fst snd fmap list_fmap] in *. rewrite document_cons in *.
  fold (rewrite_text replacements rest) in *.
  rewrite resolved_entry_text in *. rewrite resolved_entry_of.
  set (body' := default body (replacements !! name)) in *.
  set (rest' := rewrite_text replacements rest) in *.
  apply Forall_cons in Hfit as [Hhead Htail].
  assert (body' = body \/ fits hdr body') as Hbody.
  { unfold body'. destruct (replacements !! name) as [b|] eqn:Hb; [|by left].
    right. exact (Hhead b Hb). }
  assert (find_close (body' ++ STRING_CLOSE ++ rest') = Some (body', rest'))
    as Hclose'.
  { destruct Hbody as [->|[Hb _]];
      [by eapply find_close_rest|by apply find_close_plain]. }
  assert (name_open hdr = true ->
          closes_later (body' ++ STRING_CLOSE ++ rest') ->
          closes_later (body ++ STRING_CLOSE ++ rest)) as Hcloses.
  { intros Hopen. destruct (rewrite_text_keeps_open rest).
    apply closes_later_mono; [|done|done].
    destruct Hbody as [->|[_ Hquote]]; [by left|right; by apply Hquote]. }
  replace ((pre ++ hdr ++ body' ++ STRING_CLOSE) ++ rest')
    with (pre ++ hdr ++ body' ++ STRING_CLOSE ++ rest') in *
    by (by repeat (rewrite <-app_assoc || cbn [app])).
  rewrite (scan_first_match fuel [] pre _ rest'
             (entry_groups hdr name body')).
  - pose proof (opening_tag_length _ _ Htag) as Hlen.
    assert (length rest < length (pre ++ hdr ++ body ++ STRING_CLOSE ++ rest))%nat
      as Hshorter by (rewrite !length_app; lia).
    assert (length rest' < fuel - S (length pre))%nat as Hfuel'
      by (rewrite !length_app in Hfuel; lia).
    subst rest'. unfold rewrite_text in *.
    by rewrite (IH (length rest) Hshorter rest eq_refl _ Htail Hfuel').
  - rewrite length_app in Hfuel. lia.
  - intros v1 v2 -> Hne. rewrite app_assoc.
    apply (match_at_None_transport _ (body ++ STRING_CLOSE ++ rest)).
    + rewrite length_app. pose proof (opening_tag_length _ _ Htag). lia.
    + rewrite last_app_r; [by eapply opening_tag_last|].
      destruct (opening_tag_cons _ _ Htag) as (c & hdr' & ->). done.
    + apply has_close_app_close.
    + by rewrite (name_open_app _ _ _ Htag).
    + rewrite <-app_assoc. by apply (Hnone v1).
  - by apply Htrans.
Qed.

End Rescan.

(** ** The Rewriter: [rewrite_strings] *)

Section RewriterClaims.
Context `{FileSystem}.

Lemma finditer_entries s :
  match_parts <$> Re.finditer STRING_RE s
  = entry_parts <$> (scan (S (length s)) [] s).1.
Proof. apply finditer_scan. Qed.

Lemma keys_of_parts ms :
  keys_of ms = (fun parts => parts.1.1.2) <$> (match_parts <$> ms).
Proof. unfold keys_of. by rewrite <-list_fmap_compose. Qed.

Lemma fitting_finditer (replacements : gmap (list N) (list N)) s :
  (forall m body, m ∈ Re.finditer STRING_RE s ->
     replacements !! group_str m g_name = Some body ->
     fits (group_str m 1) body) ->
  fitting replacements (scan (S (length s)) [] s).1.
Proof.
  intros Hfits. apply Forall_forall. intros e He body Hbody.
  apply (list_elem_of_fmap_2 entry_parts) in He.
  rewrite <-finditer_entries in He.
  apply list_elem_of_fmap in He as (m & Hparts & Hm).
  injection Hparts as Hopen Hkey _ _.
  rewrite Hopen. apply Hfits; [done|]. by rewrite <-Hkey.
Qed.

Lemma rewritten_rewrite_text target_content replacements :
  rewritten target_content replacements = rewrite_text replacements target_content.
Proof. apply rewritten_document. Qed.

(** C4. What the Rewriter writes differs from the target text only inside
    the bodies of the entries whose key has a resolution: the target is its
    entries, as [finditer] finds them, with the text before each and the text
    after the last; the output is the same entries and the same text around
    them, each entry with its opening and closing tag as they were and with
    the resolved body when its key has one; an entry whose key has none is
    the same text as before. *)
Theorem rewrite_strings_frame
    (target_content : list N) (replacements : gmap (list N) (list N))
    (destination : path) (w : world) :
  exists (entries : list entry) (tail : list N),
    target_content = document entries tail /\
    entry_parts <$> entries = match_parts <$> Re.finditer STRING_RE target_content /\
    (replacements <> ∅ ->
     rewrite_strings target_content replacements destination w
     = write_text destination
         (document (resolve_body replacements <$> entries) tail) w) /\
    Forall (fun e =>
              e_before (resolve_body replacements e) = e_before e /\
              e_open (resolve_body replacements e) = e_open e /\
              e_close (resolve_body replacements e) = e_close e /\
              (replacements !! e_key e = None ->
               entry_text (resolve_body replacements e) = entry_text e) /\
              (forall new_body, replacements !! e_key e = Some new_body ->
               e_body (resolve_body replacements e) = new_body))
           entries.
Proof.
  exists (scan (S (length target_content)) [] target_content).1,
         (scan (S (length target_content)) [] target_content).2.
  split_and!.
  - by rewrite scan_document.
  - by rewrite finditer_entries.
  - intros Hne. unfold rewrite_strings. rewrite decide_False by done.
    by rewrite rewritten_document.
  - apply Forall_forall. intros e _. unfold resolve_body, entry_text. cbn.
    split_and!; [done|done|done| |].
    + by intros ->.
    + by intros new_body ->.
Qed.

(** C5, as amended. When the body that the resolution mapping has for an
    entry of the target contains no closing tag of an entry, and no double
    quote in case the opening tag of that entry has [name=] right before its
    last double quote, the keys of the entries of what the Rewriter writes are
    the keys of the entries of the target, in the same order. *)
Theorem rewritten_keeps_keys
    (target_content : list N) (replacements : gmap (list N) (list N)) :
  (forall m body, m ∈ Re.finditer STRING_RE target_content ->
     replacements !! group_str m g_name = Some body ->
     fits (group_str m 1) body) ->
  keys_of (Re.finditer STRING_RE (rewritten target_content replacements))
  = keys_of (Re.finditer STRING_RE target_content).
Proof.
  intros Hfits%fitting_finditer. rewrite !keys_of_parts, !finditer_entries.
  rewrite rewritten_rewrite_text, rescan by (done || lia). cbn [fst].
  rewrite <-!list_fmap_compose. by apply list_fmap_ext.
Qed.

Lemma parse_string_bodies_entries s :
  parse_string_bodies s
  = foldl (fun d parts => <[parts.1.1.2 := parts.1.2]> d) ∅
          (entry_parts <$> (scan (S (length s)) [] s).1).
Proof.
  unfold parse_string_bodies. rewrite <-finditer_entries.
  generalize (∅ : gmap (list N) (list N)).
  induction (Re.finditer STRING_RE s) as [|m ms IH]; intros d; [done|].
  cbn [foldl fmap list_fmap]. by rewrite IH.
Qed.

Lemma foldl_insert_lookup (ps : list (list N * list N * list N * list N))
    (d : gmap (list N) (list N)) key body :
  (forall parts, parts ∈ ps -> parts.1.1.2 = key -> parts.1.2 = body) ->
  key ∈ (fun parts => parts.1.1.2) <$> ps \/ d !! key = Some body ->
  foldl (fun d parts => <[parts.1.1.2 := parts.1.2]> d) d ps !! key = Some body.
Proof.
  revert d. induction ps as [|parts ps IH]; intros d Hbody Hin.
  - destruct Hin as [Hin|Hd]; [by apply elem_of_nil in Hin|done].
  - cbn [foldl]. apply IH.
    + intros parts' Hin'. apply Hbody. by right.
    + destruct (decide (parts.1.1.2 = key)) as [Hkey|Hkey].
      * right. rewrite Hkey, lookup_insert_eq. f_equal. apply Hbody; [by left|done].
      * rewrite lookup_insert_ne by done.
        destruct Hin as [Hin|Hd]; [|by right].
        rewrite fmap_cons in Hin. apply elem_of_cons in Hin as [Hin|Hin]; [done|by left].
Qed.

(** C6, as amended. When the body that the resolution mapping has for an
    entry of the target contains no closing tag of an entry, and no double
    quote in case the opening tag of that entry has [name=] right before its
    last double quote, extracting the bodies from what the Rewriter writes
    gives, for every key that has a resolution and is the key of an entry of
    the target, the body the mapping has for it. *)
Theorem reextract_resolved
    (target_content : list N) (replacements : gmap (list N) (list N))
    (key body : list N) :
  (forall m body, m ∈ Re.finditer STRING_RE target_content ->
     replacements !! group_str m g_name = Some body ->
     fits (group_str m 1) body) ->
  replacements !! key = Some body ->
  key ∈ keys_of (Re.finditer STRING_RE target_content) ->
  parse_string_bodies (rewritten target_content replacements) !! key = Some body.
Proof.
  intros Hfits%fitting_finditer Hkey Hin.
  rewrite keys_of_parts, finditer_entries in Hin.
  rewrite parse_string_bodies_entries.
  rewrite rewritten_rewrite_text, rescan by (done || lia). cbn [fst].
  set (es := (scan (S (length target_content)) [] target_content).1) in *.
  apply foldl_insert_lookup.
  - intros parts (e' & -> & (e & -> & _)%list_elem_of_fmap)%list_elem_of_fmap.
    cbn. intros ->. by rewrite Hkey.
  - left. rewrite <-!list_fmap_compose in *.
    erewrite list_fmap_ext; [exact Hin|]. done.
Qed.

End RewriterClaims.

(** * More of the script *)

Local Set Warnings "-clear-no-such-hyp".

(** ** The Block Extractor and the Rewriter *)

Section Extractor.

(** A dict filled from a list, key by key: the last element with the key
    decides. *)
Lemma foldl_insert_last {A V} (f : A -> list N) (g : A -> V) (l : list A)
    (d : gmap (list N) V) (key : list N) :
  foldl (fun d a => <[f a := g a]> d) d l !! key
  = match last (filter (fun a => f a = key) l) with
    | Some a => Some (g a)
    | None => d !! key
    end.
Proof.
  revert d. induction l as [|a l IH]; intros d; [done|].
  cbn [foldl]. rewrite IH, filter_cons.
  destruct (decide (f a = key)) as [<-|Hne].
  - rewrite last_cons. destruct (last _); [done|]. by rewrite lookup_insert_eq.
  - destruct (last _); [done|]. by rewrite lookup_insert_ne.
Qed.

Lemma NoDup_fmap_eq {A B} (f : A -> B) (l : list A) (x y : A) :
  NoDup (f <$> l) -> x ∈ l -> y ∈ l -> f x = f y -> x = y.
Proof.
  induction l as [|a l IH]; [by intros _ ?%elem_of_nil|].
  rewrite fmap_cons, NoDup_cons. intros [Hnot Hdup].
  intros [->|Hx]%elem_of_cons [->|Hy]%elem_of_cons Heq; [done| | |by apply IH].
  - destruct Hnot. rewrite Heq. by apply list_elem_of_fmap_2.
  - destruct Hnot. rewrite <-Heq. by apply list_elem_of_fmap_2.
Qed.

Lemma find_close_body s body rest :
  find_close s = Some (body, rest) -> ~ has_close body.
Proof.
  revert body. induction s as [|c s IH]; intros body.
  - by vm_compute.
  - rewrite find_close_eq.
    destruct (Re.strip_prefix STRING_CLOSE (c :: s)) as [r|] eqn:Hstrip.
    { intros [= <- <-]. by intros [? ?]. }
    destruct (find_close s) as [[b r]|] eqn:Hs; [|done].
    intros [= <- <-] [x Hx]. specialize (IH b eq_refl).
    rewrite find_close_eq in Hx.
    destruct (Re.strip_prefix STRING_CLOSE (c :: b)) as [r'|] eqn:Hb.
    + apply strip_prefix_Some in Hb. apply find_close_Some in Hs.
      assert (Re.strip_prefix STRING_CLOSE (c :: s) = Some (r' ++ STRING_CLOSE ++ r))
        as Hstrip'.
      { apply strip_prefix_Some. rewrite Hs, app_comm_cons, Hb.
        by rewrite <-!app_assoc. }
      congruence.
    + destruct (find_close b) as [[? ?]|] eqn:Hfb; [|done].
      apply IH. by eexists.
Qed.

(** Every entry of a scan is an opening tag for its key, a body without a
    closing tag in it, and the closing tag. *)
Lemma scan_entry_shape fuel before s e :
  e ∈ (scan fuel before s).1 ->
  opening_tag (e_open e) (e_key e) /\ ~ has_close (e_body e) /\
  e_close e = STRING_CLOSE.
Proof.
  revert before s. induction fuel as [|fuel IH]; intros before s;
    [by intros ?%elem_of_nil|].
  cbn [scan]. destruct (Re.match_at STRING_RE s) as [[rest g]|] eqn:Hm.
  - destruct (scan fuel [] rest) as [es tail] eqn:Hscan. cbn [fst].
    intros [->|He]%elem_of_cons.
    + apply match_at_entry in Hm as (hdr & name & body & _ & -> & Htag & Hclose).
      split_and!; [done| |done]. by apply find_close_body in Hclose.
    + apply (IH [] rest). by rewrite Hscan.
  - destruct s as [|c s1]; [by intros ?%elem_of_nil|]. apply IH.
Qed.

(** The entries of a text are its matches. *)
Lemma entry_is_match s e :
  e ∈ (scan (S (length s)) [] s).1 ->
  exists m, m ∈ Re.finditer STRING_RE s /\ match_parts m = entry_parts e.
Proof.
  intros He. apply (list_elem_of_fmap_2 entry_parts) in He.
  rewrite <-finditer_entries in He.
  apply list_elem_of_fmap in He as (m & Hparts & Hm). by exists m.
Qed.

(** The extractor's table, entry by entry. *)
Lemma parse_string_bodies_scan s :
  parse_string_bodies s
  = foldl (fun d e => <[e_key e := e_body e]> d) ∅ (scan (S (length s)) [] s).1.
Proof.
  rewrite parse_string_bodies_entries.
  generalize (∅ : gmap (list N) (list N)).
  induction (scan (S (length s)) [] s).1 as [|e es IH]; intros d; [done|].
  cbn [foldl fmap list_fmap]. by rewrite IH.
Qed.

(** Resolving the entries whose resolution is the body they have changes
    nothing. *)
Lemma resolve_same_bodies (replacements : gmap (list N) (list N)) s :
  (forall e body, e ∈ (scan (S (length s)) [] s).1 ->
     replacements !! e_key e = Some body -> body = e_body e) ->
  rewritten s replacements = s.
Proof.
  intros Hsame. rewrite rewritten_rewrite_text. unfold rewrite_text.
  assert (resolve_body replacements <$> (scan (S (length s)) [] s).1
          = (scan (S (length s)) [] s).1) as ->;
    [|apply (scan_document _ [] s)].
  rewrite <-(list_fmap_id (scan (S (length s)) [] s).1) at 2.
  apply list_fmap_ext. intros i e He%list_elem_of_lookup_2.
  unfold resolve_body.
  destruct (replacements !! e_key e) as [new_body|] eqn:Hnew;
    [rewrite (Hsame e new_body He Hnew)|]; by destruct e.
Qed.

(** X1. The body the extractor has for a key is the body of the last
    entry with that key; a key without an entry has none. *)
Theorem extracted_body_of_last_entry (content key : list N) :
  parse_string_bodies content !! key
  = (fun m => group_str m g_body)
      <$> last (filter (fun m => group_str m g_name = key)
                  (Re.finditer STRING_RE content)).
Proof.
  unfold parse_string_bodies. rewrite foldl_insert_last, lookup_empty.
  by destruct (last _).
Qed.

(** X2. The keys the extractor finds are not empty and have no double quote in
    them, and the bodies have no closing tag in them. *)
Theorem extracted_entries_shape (content key body : list N) :
  parse_string_bodies content !! key = Some body ->
  key <> [] /\ Forall (fun c => c <> dquote) key /\ ~ has_close body.
Proof.
  rewrite parse_string_bodies_scan, foldl_insert_last, lookup_empty.
  destruct (last _) as [e|] eqn:Hlast; [|done]. intros [= <-].
  apply last_Some_elem_of, list_elem_of_filter in Hlast as [<- He].
  apply scan_entry_shape in He as ((c & a1 & a2 & _ & _ & _ & Hne & Hname & _) & Hbody & _).
  split_and!; [done| |done].
  eapply Forall_impl; [exact Hname|]. intros d Hd ->. by vm_compute in Hd.
Qed.

(** X3. When every resolution is the body its entry has already, what the
    Rewriter makes is the target text itself; so it is when no resolution is
    for a key of the target. *)
Theorem rewritten_same_bodies
    (target_content : list N) (replacements : gmap (list N) (list N)) :
  (forall m body, m ∈ Re.finditer STRING_RE target_content ->
     replacements !! group_str m g_name = Some body ->
     body = group_str m g_body) ->
  rewritten target_content replacements = target_content.
Proof.
  intros Hsame. apply resolve_same_bodies. intros e body He Hbody.
  apply entry_is_match in He as (m & Hm & Hparts).
  injection Hparts as _ Hkey Hbody' _.
  rewrite <-Hbody'. apply Hsame; [done|]. by rewrite Hkey.
Qed.

(** X4. Rewriting a text with the bodies extracted from it gives the text back,
    when no two of its entries have the same key. *)
Theorem rewritten_with_own_bodies (target_content : list N) :
  NoDup (keys_of (Re.finditer STRING_RE target_content)) ->
  rewritten target_content (parse_string_bodies target_content) = target_content.
Proof.
  intros Hdup. apply resolve_same_bodies. intros e body He.
  rewrite keys_of_parts, finditer_entries, <-list_fmap_compose in Hdup.
  rewrite parse_string_bodies_scan, foldl_insert_last, lookup_empty.
  destruct (last _) as [e'|] eqn:Hlast; [|done]. intros [= <-].
  apply last_Some_elem_of, list_elem_of_filter in Hlast as [Hkey He'].
  by rewrite (NoDup_fmap_eq _ _ e' e Hdup He' He Hkey).
Qed.

Lemma resolve_body_twice (replacements : gmap (list N) (list N)) e :
  resolve_body replacements (resolve_body replacements e)
  = resolve_body replacements e.
Proof.
  unfold resolve_body. cbn. by destruct (replacements !! e_key e).
Qed.

(** X5. Rewriting what the Rewriter wrote, with the same resolutions, changes
    nothing, when the bodies fit their entries. *)
Theorem rewritten_twice
    (target_content : list N) (replacements : gmap (list N) (list N)) :
  (forall m body, m ∈ Re.finditer STRING_RE target_content ->
     replacements !! group_str m g_name = Some body ->
     fits (group_str m 1) body) ->
  rewritten (rewritten target_content replacements) replacements
  = rewritten target_content replacements.
Proof.
  intros Hfits%fitting_finditer. rewrite !rewritten_rewrite_text.
  unfold rewrite_text at 1. rewrite rescan by (done || lia). cbn [fst snd].
  rewrite <-list_fmap_compose. unfold rewrite_text. f_equal.
  apply list_fmap_ext. intros i e _. apply resolve_body_twice.
Qed.

Lemma filter_key_resolved (replacements : gmap (list N) (list N)) key
    (es : list entry) :
  filter (fun e => e_key e = key) (resolve_body replacements <$> es)
  = resolve_body replacements <$> filter (fun e => e_key e = key) es.
Proof.
  induction es as [|e es IH]; [done|].
  rewrite fmap_cons, !filter_cons. cbn [resolve_body e_key].
  destruct (decide (e_key e = key)); by rewrite IH.
Qed.

(** X6. The bodies extracted from what the Rewriter wrote are, key by key, the
    bodies of the target with the resolutions in their place, when the
    bodies fit their entries. *)
Theorem reextracted_bodies
    (target_content : list N) (replacements : gmap (list N) (list N))
    (key : list N) :
  (forall m body, m ∈ Re.finditer STRING_RE target_content ->
     replacements !! group_str m g_name = Some body ->
     fits (group_str m 1) body) ->
  parse_string_bodies (rewritten target_content replacements) !! key
  = (fun body => default body (replacements !! key))
      <$> parse_string_bodies target_content !! key.
Proof.
  intros Hfits%fitting_finditer.
  rewrite !parse_string_bodies_scan, rewritten_rewrite_text.
  rewrite rescan by (done || lia). cbn [fst].
  rewrite !foldl_insert_last, !lookup_empty, filter_key_resolved, fmap_last.
  destruct (last _) as [e|] eqn:Hlast; [|done]. cbn.
  apply last_Some_elem_of, list_elem_of_filter in Hlast as [<- _]. done.
Qed.

End Extractor.

Section Spans.

(** The matches of a text from a point on: each one is an entry of the text,
    at its place. *)
Lemma finditer_from_spans fuel pre s m :
  m ∈ Re.finditer_from fuel STRING_RE (length pre) s ->
  exists before hdr name body rest,
    pre ++ s = before ++ (hdr ++ body ++ STRING_CLOSE) ++ rest /\
    m = Re.mkMatch (length before) (length (before ++ hdr ++ body ++ STRING_CLOSE))
          (hdr ++ body ++ STRING_CLOSE) (entry_groups hdr name body) /\
    opening_tag hdr name.
Proof.
  revert pre s. induction fuel as [|fuel IH]; intros pre s;
    [by intros ?%elem_of_nil|].
  destruct (Re.match_at STRING_RE s) as [[rest g]|] eqn:Hm.
  - rewrite (finditer_from_Some _ _ _ _ _ Hm).
    apply match_at_entry in Hm as (hdr & name & body & -> & -> & Htag & _).
    replace (hdr ++ body ++ STRING_CLOSE ++ rest)
      with ((hdr ++ body ++ STRING_CLOSE) ++ rest)
      by (by rewrite <-!app_assoc).
    rewrite consumed_app.
    replace (length pre + (length ((hdr ++ body ++ STRING_CLOSE) ++ rest) - length rest))%nat
      with (length (pre ++ hdr ++ body ++ STRING_CLOSE))
      by (rewrite !length_app; lia).
    intros [->|Hin]%elem_of_cons.
    + by exists pre, hdr, name, body, rest.
    + apply IH in Hin as (before & hdr' & name' & body' & rest' & Heq & -> & Htag').
      exists before, hdr', name', body', rest'. split_and!; [|done|done].
      rewrite <-Heq. by rewrite <-!app_assoc.
  - rewrite (finditer_from_None _ _ _ Hm). destruct s as [|c s1];
      [by intros ?%elem_of_nil|].
    replace (S (length pre)) with (length (pre ++ [c]))
      by (rewrite length_app; simpl; lia).
    intros (before & hdr & name & body & rest & Heq & -> & Htag)%IH.
    exists before, hdr, name, body, rest. split_and!; [|done|done].
    rewrite <-Heq. by rewrite <-app_assoc.
Qed.

(** X22. The parts of a match of [STRING_RE]: the whole match is the text from
    its start to its end, made of the opening tag, the body and the closing
    tag; the opening tag holds the name between double quotes. *)
Theorem match_spans_entry (content : list N) (m : Re.Match) :
  m ∈ Re.finditer STRING_RE content ->
  slice content (Re.m_start m) (Re.m_end m) = group_str m 0 /\
  group_str m 0 = group_str m 1 ++ group_str m g_body ++ group_str m 4 /\
  group_str m 4 = STRING_CLOSE /\
  opening_tag (group_str m 1) (group_str m g_name).
Proof.
  intros (before & hdr & name & body & rest & Heq & -> & Htag)
    %(finditer_from_spans _ []).
  cbn [app] in Heq. split_and!; [|done|done|done].
  rewrite Heq. unfold slice. cbn [Re.m_start Re.m_end].
  rewrite drop_app_length.
  replace (length (before ++ hdr ++ body ++ STRING_CLOSE) - length before)%nat
    with (length (hdr ++ body ++ STRING_CLOSE))
    by (rewrite !length_app; lia).
  by rewrite take_app_length.
Qed.

End Spans.

(** ** The output of the Resolution Engine *)

Section ResolutionOutput.
Context `{Library}.
Variable legacy_strings : gmap (list N) Element.
Variable existing_strings : gmap (list N) (list N).
Variable match_map : gmap (list N) Re.Match.
Variable default_bodies : gmap (list N) (list N).

Local Abbreviation resolve :=
  (resolve_pair legacy_strings existing_strings match_map default_bodies).
Local Abbreviation pass mappings :=
  (mapping_pass mappings legacy_strings existing_strings match_map default_bodies).
Local Abbreviation port mappings :=
  (apply_mappings mappings legacy_strings existing_strings match_map default_bodies).
Local Abbreviation sourced :=
  (sourced legacy_strings existing_strings default_bodies).

Lemma apply_mappings_parts (mappings : list (list N * option (list N))) :
  port mappings
  = (map_fold (carry_existing match_map) (pass mappings).1 existing_strings,
     (pass mappings).2).
Proof. unfold apply_mappings. by destruct (pass mappings). Qed.

(** What one turn of the first loop does to each field of the state. *)
Lemma resolve_pair_fields st pair :
  let recognised := bool_decide (is_Some (match_map !! pair.1)) in
  let legacy := bool_decide (is_Some (dict_get legacy_strings pair.2)) in
  let existing := bool_decide (is_Some (existing_strings !! pair.1)) in
  (resolve st pair).1
  = (if recognised
     then <[pair.1 :=
              match dict_get legacy_strings pair.2 with
              | Some legacy_elem => element_inner_xml legacy_elem
              | None =>
                  default (default [] (default_bodies !! pair.1))
                          (existing_strings !! pair.1)
              end]> st.1
     else st.1) /\
  applied (resolve st pair).2
  = (applied st.2 + if recognised && legacy then 1 else 0)%nat /\
  fallback_existing (resolve st pair).2
  = (fallback_existing st.2
     + if recognised && negb legacy && existing then 1 else 0)%nat /\
  fallback_default (resolve st pair).2
  = (fallback_default st.2
     + if recognised && negb legacy && negb existing then 1 else 0)%nat /\
  missing_old (resolve st pair).2
  = (if recognised && negb legacy then {[pair.2]} ∪ missing_old st.2
     else missing_old st.2) /\
  missing_new (resolve st pair).2
  = (if recognised then missing_new st.2 else {[pair.1]} ∪ missing_new st.2).
Proof.
  destruct st as [replacements stats], pair as [new_key old_key].
  unfold resolve_pair. cbn [fst snd].
  destruct (match_map !! new_key) as [m|]; cbn;
    [|split_and!; (done || lia)].
  destruct (dict_get legacy_strings old_key) as [legacy_elem|]; cbn;
    [split_and!; (done || lia)|].
  destruct (existing_strings !! new_key) as [fallback|]; cbn;
    split_and!; (done || lia).
Qed.

Lemma foldl_resolve_dom mappings st :
  dom st.1 ⊆ dom match_map ->
  dom (foldl resolve st mappings).1 ⊆ dom match_map.
Proof.
  revert st. induction mappings as [|pair mappings IH]; intros st Hst; [done|].
  cbn [foldl]. apply IH.
  destruct (resolve_pair_fields st pair) as (-> & _).
  case_bool_decide as Hm; [|done].
  rewrite dom_insert. apply elem_of_dom in Hm. set_solver.
Qed.

Lemma foldl_resolve_missing_new mappings st key :
  key ∈ missing_new (foldl resolve st mappings).2 <->
  key ∈ missing_new st.2 \/ (key ∈ mappings.*1 /\ match_map !! key = None).
Proof.
  revert st. induction mappings as [|pair mappings IH]; intros st.
  { cbn. rewrite elem_of_nil. naive_solver. }
  cbn [foldl]. rewrite IH, fmap_cons, elem_of_cons.
  destruct (resolve_pair_fields st pair) as (_ & _ & _ & _ & _ & ->).
  case_bool_decide as Hm.
  - split; [naive_solver|]. intros [?|[[->|?] Hnone]]; [by left| |by right].
    rewrite Hnone in Hm. by destruct Hm.
  - rewrite elem_of_union, elem_of_singleton.
    apply eq_None_not_Some in Hm. naive_solver.
Qed.

Lemma foldl_resolve_missing_old mappings st old_key :
  old_key ∈ missing_old (foldl resolve st mappings).2 <->
  old_key ∈ missing_old st.2 \/
  exists new_key, (new_key, old_key) ∈ mappings /\
    is_Some (match_map !! new_key) /\ dict_get legacy_strings old_key = None.
Proof.
  revert st. induction mappings as [|pair mappings IH]; intros st.
  { cbn. setoid_rewrite elem_of_nil. naive_solver. }
  cbn [foldl]. rewrite IH. setoid_rewrite elem_of_cons.
  destruct (resolve_pair_fields st pair) as (_ & _ & _ & _ & -> & _).
  destruct pair as [new_key' old_key']. cbn [fst snd].
  do 2 case_bool_decide; cbn [andb negb].
  - split; [naive_solver|]. intros [?|(k & [[= -> ->]|?] & ? & Hnone)];
      [by left| |naive_solver].
    rewrite Hnone in *. by destruct H1.
  - rewrite elem_of_union, elem_of_singleton.
    apply eq_None_not_Some in H1. naive_solver.
  - split; [naive_solver|]. intros [?|(k & [[= -> ->]|?] & ? & Hnone)];
      [by left|done|naive_solver].
  - split; [naive_solver|]. intros [?|(k & [[= -> ->]|?] & ? & Hnone)];
      [by left|done|naive_solver].
Qed.

Lemma foldl_resolve_counters mappings st :
  let legacy (pair : list N * option (list N)) :=
    is_Some (dict_get legacy_strings pair.2) in
  let existing (pair : list N * option (list N)) :=
    is_Some (existing_strings !! pair.1) in
  let st' := foldl resolve st mappings in
  applied st'.2
  = (applied st.2
     + length (filter legacy (recognized match_map mappings)))%nat /\
  fallback_existing st'.2
  = (fallback_existing st.2
     + length (filter (fun pair => ~ legacy pair /\ existing pair)
                 (recognized match_map mappings)))%nat /\
  fallback_default st'.2
  = (fallback_default st.2
     + length (filter (fun pair => ~ legacy pair /\ ~ existing pair)
                 (recognized match_map mappings)))%nat.
Proof.
  intros legacy existing. cbv zeta.
  revert st. induction mappings as [|pair mappings IH]; intros st.
  { cbn. split_and!; lia. }
  cbn [foldl]. destruct (IH (resolve st pair)) as (-> & -> & ->).
  destruct (resolve_pair_fields st pair) as (_ & -> & -> & -> & _).
  unfold recognized. rewrite filter_cons.
  case_bool_decide as Hm; [rewrite decide_True by done|rewrite decide_False by done];
    cbn [andb]; [|split_and!; lia].
  rewrite !filter_cons.
  repeat case_decide; repeat case_bool_decide; subst legacy existing;
    cbn [negb andb length] in *; try (exfalso; tauto); split_and!; lia.
Qed.

Lemma mapping_pass_sourced mappings key body :
  (pass mappings).1 !! key = Some body -> sourced mappings key body.
Proof.
  revert key body. induction mappings as [|pair mappings IH] using rev_ind;
    intros key body; [done|].
  rewrite mapping_pass_snoc.
  destruct (resolve_pair_fields (pass mappings) pair) as (-> & _).
  assert (sourced mappings key body -> sourced (mappings ++ [pair]) key body)
    as Hmono.
  { unfold sourced. setoid_rewrite fmap_app. setoid_rewrite elem_of_app.
    naive_solver. }
  case_bool_decide as Hm; [|by intros ?%IH%Hmono].
  destruct (decide (pair.1 = key)) as [<-|Hne];
    [|rewrite lookup_insert_ne by done; by intros ?%IH%Hmono].
  rewrite lookup_insert_eq. intros [= <-]. destruct pair as [new_key old_key].
  cbn [fst snd]. unfold sourced. setoid_rewrite fmap_app.
  setoid_rewrite elem_of_app. setoid_rewrite list_elem_of_singleton.
  destruct old_key as [old_key|]; cbn.
  - destruct (legacy_strings !! old_key) as [legacy_elem|] eqn:Hl.
    { left. exists old_key, legacy_elem. naive_solver. }
    destruct (existing_strings !! new_key); cbn; naive_solver.
  - destruct (existing_strings !! new_key); cbn; naive_solver.
Qed.

(** X7. The keys of the output are keys of the target file, and no key reported
    as unknown is among them. *)
Theorem output_keys_are_target_keys (mappings : list (list N * option (list N))) :
  dom (port mappings).1 ⊆ dom match_map /\
  missing_new (port mappings).2 ## dom (port mappings).1.
Proof.
  rewrite apply_mappings_parts. cbn [fst snd].
  assert (dom (map_fold (carry_existing match_map) (pass mappings).1
                 existing_strings) ⊆ dom match_map) as Hdom.
  { intros key [body Hkey]%elem_of_dom. apply elem_of_dom.
    rewrite carry_existing_lookup in Hkey.
    destruct ((pass mappings).1 !! key) as [produced|] eqn:Hpass.
    - apply elem_of_dom. apply (foldl_resolve_dom mappings (∅, PortStats_new)).
      + cbn. by rewrite dom_empty.
      + apply elem_of_dom. by exists produced.
    - destruct (existing_strings !! key); [|done].
      case_bool_decide; [done|by rewrite andb_false_l in Hkey]. }
  split; [done|].
  intros key Hnew Hout. apply Hdom, elem_of_dom in Hout as [m Hm].
  apply (foldl_resolve_missing_new mappings (∅, PortStats_new)) in Hnew
    as [Hnew|[_ Hnone]]; [by apply elem_of_empty in Hnew|].
  by rewrite Hnone in Hm.
Qed.

(** X8. The two sets of the statistics: the unknown new keys are the new keys of
    the mapping that are no keys of the target file; the missing old keys are
    the old keys, of pairs with a new key of the target file, that have no
    legacy entry. *)
Theorem missing_keys_reported
    (mappings : list (list N * option (list N)))
    (new_key : list N) (old_key : option (list N)) :
  (new_key ∈ missing_new (port mappings).2 <->
   new_key ∈ mappings.*1 /\ match_map !! new_key = None) /\
  (old_key ∈ missing_old (port mappings).2 <->
   exists new_key, (new_key, old_key) ∈ mappings /\
     is_Some (match_map !! new_key) /\ dict_get legacy_strings old_key = None).
Proof.
  rewrite apply_mappings_parts. cbn [fst snd]. unfold mapping_pass. split.
  - rewrite foldl_resolve_missing_new. cbn. rewrite elem_of_empty. tauto.
  - rewrite foldl_resolve_missing_old. cbn. rewrite elem_of_empty. tauto.
Qed.

(** X9. The three counters, each by its own kind of pair among those whose new
    key is a key of the target file: [applied] counts the pairs whose old key
    has a legacy entry, [fallback_existing] those without one whose new key has
    an existing translation, [fallback_default] the others. *)
Theorem counters_by_source (mappings : list (list N * option (list N))) :
  let legacy (pair : list N * option (list N)) :=
    is_Some (dict_get legacy_strings pair.2) in
  let existing (pair : list N * option (list N)) :=
    is_Some (existing_strings !! pair.1) in
  let stats := (port mappings).2 in
  applied stats = length (filter legacy (recognized match_map mappings)) /\
  fallback_existing stats
  = length (filter (fun pair => ~ legacy pair /\ existing pair)
              (recognized match_map mappings)) /\
  fallback_default stats
  = length (filter (fun pair => ~ legacy pair /\ ~ existing pair)
              (recognized match_map mappings)).
Proof.
  intros legacy existing stats. subst stats.
  rewrite apply_mappings_parts. cbn [snd]. unfold mapping_pass.
  destruct (foldl_resolve_counters mappings (∅, PortStats_new)) as (-> & -> & ->).
  done.
Qed.

(** X10. No body of the output is made up: each one is the inner XML of the legacy
    element of a mapping pair for its key, the existing translation of the
    key, or the base default of a key of the mapping (the empty string when
    the base has none). *)
Theorem output_bodies_sourced
    (mappings : list (list N * option (list N))) (key body : list N) :
  (port mappings).1 !! key = Some body -> sourced mappings key body.
Proof.
  rewrite apply_mappings_parts. cbn [fst]. rewrite carry_existing_lookup.
  destruct ((pass mappings).1 !! key) as [produced|] eqn:Hpass.
  - intros [= <-]. by apply mapping_pass_sourced.
  - destruct (existing_strings !! key) as [existing|] eqn:He; [|done].
    destruct (_ && _); [|done]. intros [= <-]. right. by left.
Qed.

End ResolutionOutput.

(** ** The bodies of the legacy elements: [element_inner_xml] *)

Section MatcherRest.
Context {R : Type}.

Lemma rep_greedy_rest p s (k : list N -> option R) x :
  Re.rep_greedy p s k = Some x -> exists s', s' `suffix_of` s /\ k s' = Some x.
Proof.
  induction s as [|c s IH]; cbn.
  - intros Hk. by exists [].
  - destruct (p c).
    + destruct (Re.rep_greedy p s k) as [y|] eqn:Hrep.
      * intros [= <-]. destruct (IH eq_refl) as (s' & Hs' & Hk).
        exists s'. split; [by apply suffix_cons_r|done].
      * intros Hk. by exists (c :: s).
    + intros Hk. by exists (c :: s).
Qed.

Lemma rep_lazy_rest p s (k : list N -> option R) x :
  Re.rep_lazy p s k = Some x -> exists s', s' `suffix_of` s /\ k s' = Some x.
Proof.
  induction s as [|c s IH]; cbn.
  - destruct (k []) eqn:Hk; [|done]. intros [= <-]. by exists [].
  - destruct (k (c :: s)) eqn:Hk.
    + intros [= <-]. by exists (c :: s).
    + destruct (p c); [|done]. intros (s' & Hs' & Hk')%IH.
      exists s'. split; [by apply suffix_cons_r|done].
Qed.

(** A match hands to the rest of the pattern a rest of the input. *)
Lemma rmatch_rest r s g (k : list N -> list (nat * list N) -> option R) x :
  Re.rmatch r s g k = Some x ->
  exists s' g', s' `suffix_of` s /\ k s' g' = Some x.
Proof.
  revert s g k. induction r as [l|p|p|p|p|r1 IH1 r2 IH2|r1 IH1|i r1 IH1];
    intros s g k; cbn.
  - destruct (Re.strip_prefix l s) as [s'|] eqn:Hl; [|done].
    apply strip_prefix_Some in Hl as ->. intros Hk.
    exists s', g. split; [by apply suffix_app_r|done].
  - destruct s as [|c s]; [done|]. destruct (p c); [|done]. intros Hk.
    exists s, g. split; [by apply suffix_cons_r|done].
  - intros (s' & Hs' & Hk)%rep_greedy_rest. by exists s', g.
  - destruct s as [|c s]; [done|]. destruct (p c); [|done].
    intros (s' & Hs' & Hk)%rep_greedy_rest.
    exists s', g. split; [by apply suffix_cons_r|done].
  - intros (s' & Hs' & Hk)%rep_lazy_rest. by exists s', g.
  - intros (s1 & g1 & Hs1 & (s2 & g2 & Hs2 & Hk)%IH2)%IH1.
    exists s2, g2. split; [by etrans|done].
  - destruct (Re.rmatch r1 s g k) as [y|] eqn:Hr1.
    + intros [= <-]. by apply IH1 in Hr1.
    + intros Hk. by exists s, g.
  - intros (s' & g' & Hs' & Hk)%IH1. by eexists _, _.
Qed.

End MatcherRest.

Section InnerXml.
Context `{Library}.

Lemma match_at_rest r s s' g :
  Re.match_at r s = Some (s', g) -> s' `suffix_of` s.
Proof.
  unfold Re.match_at. intros (s1 & g1 & Hs1 & [= <- _])%rmatch_rest. done.
Qed.

(** Substituting the empty string takes characters out and puts none in. *)
Lemma sub_from_sublist fuel r s : Re.sub_from fuel r [] s `sublist_of` s.
Proof.
  revert s. induction fuel as [|fuel IH]; intros s; [done|]. cbn.
  destruct (Re.match_at r s) as [[s' g]|] eqn:Hm.
  - apply match_at_rest in Hm as [pre ->].
    destruct (length (pre ++ s') - length s')%nat.
    + destruct (pre ++ s') as [|c s1]; [done|]. by apply sublist_skip.
    + by apply sublist_inserts_l.
  - destruct s as [|c s1]; [done|]. by apply sublist_skip.
Qed.

Lemma concat_sublist (xs ys : list (list N)) :
  Forall2 sublist xs ys -> concat xs `sublist_of` concat ys.
Proof.
  induction 1 as [|x y xs ys Hxy _ IH]; [done|]. cbn. by apply sublist_app.
Qed.

(** X11. The body made of a legacy element has the characters of the element's
    text and of its serialised children, in their order, and no others:
    taking out the namespace declarations only takes characters out. *)
Theorem element_inner_xml_within (elem : Element) :
  element_inner_xml elem
  `sublist_of` default [] (elem_text elem) ++ concat (tostring <$> elem_children elem).
Proof.
  unfold element_inner_xml.
  rewrite (foldl_snoc_fmap (fun child => Re.sub XMLNS_RE [] (tostring child))).
  rewrite concat_app. apply sublist_app.
  - destruct (elem_text elem) as [[|c t]|]; cbn; by rewrite ?app_nil_r.
  - apply concat_sublist. apply Forall2_fmap, Forall_Forall2_diag, Forall_forall.
    intros child _. apply sub_from_sublist.
Qed.

End InnerXml.

Section Namespaces.
Context `{Library}.

Lemma startswith_strip_prefix l s v :
  Re.strip_prefix l s = Some v -> startswith l s = true.
Proof.
  revert s. induction l as [|c l IH]; intros s; [done|].
  destruct s as [|d s]; [done|].
  change (startswith (c :: l) (d :: s)) with (if c =? d then startswith l s else false).
  cbn [Re.strip_prefix]. destruct (c =? d); [apply IH|done].
Qed.

Lemma contains_suffix l s1 s :
  s1 `suffix_of` s -> startswith l s1 = true -> contains l s = true.
Proof.
  intros [pre ->] Hs1. induction pre as [|c pre IH].
  - destruct s1; cbn; by rewrite Hs1.
  - cbn. rewrite IH. apply orb_true_r.
Qed.

Lemma contains_tail l c s : contains l (c :: s) = false -> contains l s = false.
Proof. cbn. by intros [_ ?]%orb_false_iff. Qed.

(** The pattern of the namespace declarations matches only where the text
    goes on with [xmlns]. *)
Lemma match_at_XMLNS_RE s x :
  Re.match_at XMLNS_RE s = Some x -> contains (str "xmlns") s = true.
Proof.
  unfold Re.match_at, XMLNS_RE. cbn [Re.rmatch].
  destruct s as [|c s]; [done|]. destruct (Re.is_space c); [|done].
  intros (s1 & Hs1 & Hk)%rep_greedy_rest.
  destruct (Re.strip_prefix (str "xmlns") s1) as [v|] eqn:Hstrip; [|done].
  apply startswith_strip_prefix in Hstrip.
  apply (contains_suffix _ s1); [by apply suffix_cons_r|done].
Qed.

Lemma sub_from_XMLNS_RE fuel repl s :
  contains (str "xmlns") s = false -> Re.sub_from fuel XMLNS_RE repl s = s.
Proof.
  revert s. induction fuel as [|fuel IH]; intros s Hs; [done|].
  cbn [Re.sub_from].
  destruct (Re.match_at XMLNS_RE s) as [[s' g]|] eqn:Hm.
  { apply match_at_XMLNS_RE in Hm. congruence. }
  destruct s as [|c s1]; [done|]. f_equal. apply IH. by eapply contains_tail.
Qed.

(** X12. The body made of a legacy element whose serialised children do not
    mention [xmlns] is the element's text followed by its children as the
    library serialises them. *)
Theorem element_inner_xml_verbatim (elem : Element) :
  Forall (fun child => contains (str "xmlns") (tostring child) = false)
         (elem_children elem) ->
  element_inner_xml elem
  = default [] (elem_text elem) ++ concat (tostring <$> elem_children elem).
Proof.
  intros Hchildren. unfold element_inner_xml.
  rewrite (foldl_snoc_fmap (fun child => Re.sub XMLNS_RE [] (tostring child))).
  rewrite concat_app. f_equal.
  - destruct (elem_text elem) as [[|c t]|]; cbn; by rewrite ?app_nil_r.
  - f_equal. apply Forall_fmap_ext_1. eapply Forall_impl; [exact Hchildren|].
    intros child Hchild. by apply sub_from_XMLNS_RE.
Qed.

End Namespaces.

(** ** The tables of [main] *)

Section LegacyTable.

Lemma by_attrib_snoc key elems elem :
  by_attrib key (elems ++ [elem])
  = match by_attrib key elems with
    | Raise e => Raise e
    | Ok d =>
        match elem_attrib elem !! key with
        | Some n => Ok (<[n := elem]> d)
        | None => Raise (KeyError key)
        end
    end.
Proof. unfold by_attrib. by rewrite foldl_app. Qed.

(** X13. The table of the legacy elements by name, as [main] builds it: when every
    element has the attribute, the table has for a name the last element with
    that name; when one has not, the comprehension raises [KeyError]. *)
Theorem by_attrib_result (key : list N) (elems : list Element) :
  (Forall (fun elem => is_Some (elem_attrib elem !! key)) elems ->
   exists d, by_attrib key elems = Ok d /\
     forall n, d !! n
               = last (filter (fun elem => elem_attrib elem !! key = Some n) elems)) /\
  (~ Forall (fun elem => is_Some (elem_attrib elem !! key)) elems ->
   by_attrib key elems = Raise (KeyError key)).
Proof.
  induction elems as [|elem elems [Hok Hraise]] using rev_ind.
  { split; [by exists ∅|]. intros []. constructor. }
  rewrite by_attrib_snoc, Forall_app, Forall_singleton. split.
  - intros [(d & -> & Hd)%Hok [m Hattr]]. rewrite Hattr.
    eexists. split; [done|]. intros n. rewrite filter_app, filter_cons, filter_nil.
    destruct (decide (elem_attrib elem !! key = Some n)) as [Hn|Hn].
    + rewrite last_snoc. rewrite Hattr in Hn. injection Hn as ->.
      by rewrite lookup_insert_eq.
    + rewrite app_nil_r, lookup_insert_ne; [done|].
      intros ->. by rewrite Hattr in Hn.
  - intros Hnot.
    destruct (decide (Forall (fun elem => is_Some (elem_attrib elem !! key)) elems))
      as [Hall|Hall]; [|by rewrite Hraise].
    destruct (Hok Hall) as (d & -> & _).
    destruct (elem_attrib elem !! key) eqn:Hattr; [|done].
    destruct Hnot. split; [done|]. by eexists.
Qed.

(** X14. The two tables [main] builds from the matches of the target file agree:
    the base default of a key is the body of the match recorded for the key,
    so a key of the target always has a default, and the table of the
    defaults is the extractor's table of the target. *)
Theorem defaults_follow_matches (target_content key : list N) :
  let matches := Re.finditer STRING_RE target_content in
  let match_map :=
    foldl (fun d m => <[group_str m g_name := m]> d)
          (∅ : gmap (list N) Re.Match) matches in
  let default_bodies :=
    foldl (fun d m => <[group_str m g_name := group_str m g_body]> d)
          (∅ : gmap (list N) (list N)) matches in
  default_bodies !! key = (fun m => group_str m g_body) <$> match_map !! key /\
  default_bodies = parse_string_bodies target_content.
Proof.
  cbv zeta. split; [|done].
  rewrite !foldl_insert_last, !lookup_empty. by destruct (last _).
Qed.

End LegacyTable.

(** ** The readers *)

Section Readers.
Context `{FileSystem} `{Library}.

(** X15. The two readers leave the files and the output as they are, whether they
    return or raise; and without a [strings.xml] in the language folder the
    table of the existing translation is empty. *)
Theorem readers_leave_state (mapping_path lang_dir : path) (w : world) :
  (load_mapping mapping_path w).2 = w /\
  (read_existing_strings lang_dir w).2 = w /\
  (fs_exists (w_fs w) (lang_dir </> STRINGS_XML) = false ->
   (read_existing_strings lang_dir w).1 = Ok ∅).
Proof.
  unfold load_mapping, read_existing_strings, bind, path_exists, read_text.
  split_and!.
  - destruct (fs_read_text (w_fs w) mapping_path) as [content|]; [|done].
    cbv zeta. destruct (_ && _); [done|]. case_decide; [|done].
    by destruct (csv_error content).
  - destruct (fs_exists _ _); [|done]. cbn.
    by destruct (fs_read_text (w_fs w) _).
  - by intros ->.
Qed.

End Readers.

(** ** The run, check by check *)

Section RunChecks.
Context `{FileSystem} `{Library}.

Lemma bind_Raise {A B} (m : M A) (f : A -> M B) (w w' : world) (e : exn) :
  bind m f w = (Raise e, w') ->
  m w = (Raise e, w') \/
  exists a w1, m w = (Ok a, w1) /\ f a w1 = (Raise e, w').
Proof.
  unfold bind. destruct (m w) as [[a|e1] w1]; [by eauto|]. intros [= -> ->]. by left.
Qed.

Lemma ret_Ok {A} (a b : A) (w w' : world) : ret a w = (Ok b, w') -> a = b.
Proof. by intros [= -> _]. Qed.

(** X16. The four checks of [main], in their order: the first one that fails ends
    the run with status 1 and its line on the error stream, the files as they
    were. *)
Theorem failed_check_aborts (script_file : path) (args : Namespace) (w : world) :
  let translations_dir := path_parent (path_parent script_file) in
  let mapping_path := path_parent script_file </> str "mapping_2025.csv" in
  let base_strings := translations_dir </> str "values" </> STRINGS_XML in
  let lang_dir := translations_dir </> values_folder (language args) in
  let legacy_dir := translations_dir </> str "legacy" </> values_folder (language args) in
  let base_ok := fs_exists (w_fs w) base_strings in
  let lang_ok := fs_exists (w_fs w) lang_dir in
  let legacy_there := fs_exists (w_fs w) legacy_dir in
  let mapping_ok := fs_exists (w_fs w) mapping_path in
  negb base_ok || negb lang_ok || legacy_there || negb mapping_ok = true ->
  script script_file args w
  = (1%nat,
     refused w
       (if negb base_ok then MissingBase base_strings
        else if negb lang_ok then MissingLangDir lang_dir
        else if legacy_there then LegacyExists legacy_dir
        else MissingMapping mapping_path)).
Proof.
  intros translations_dir mapping_path base_strings lang_dir legacy_dir.
  cbv zeta. intros Hfail. unfold script, main.
  rewrite bind_path_exists. fold translations_dir base_strings.
  destruct (fs_exists (w_fs w) base_strings); cbn [negb orb] in *;
    [|by rewrite abort_run].
  rewrite bind_path_exists. fold lang_dir.
  destruct (fs_exists (w_fs w) lang_dir); cbn [negb orb] in *;
    [|by rewrite abort_run].
  rewrite bind_path_exists. fold legacy_dir.
  destruct (fs_exists (w_fs w) legacy_dir); cbn [negb orb] in *;
    [by rewrite abort_run|].
  rewrite bind_path_exists. fold mapping_path.
  destruct (fs_exists (w_fs w) mapping_path); cbn [negb orb] in *;
    [done|by rewrite abort_run].
Qed.

(** X17. Once the arguments are parsed, the exit status of a run is 0 or 1,
    whatever the files hold: what [main] returns, or 1 for an exception
    nobody catches. *)
Theorem exit_status_0_or_1 (script_file : path) (args : Namespace) (w : world) :
  (script script_file args w).1 = 0%nat \/ (script script_file args w).1 = 1%nat.
Proof.
  unfold script.
  destruct (main script_file args w) as [[status|e] w'] eqn:Hmain; [|by right].
  cbn [fst]. unfold main in Hmain.
  repeat
    (match type of Hmain with
     | (if ?b then _ else _) _ = _ => destruct b
     | (let '(_, _) := ?p in _) _ = _ => destruct p
     | bind _ _ _ = _ => apply bind_Ok in Hmain as (? & ? & _ & Hmain)
     end; cbn [negb] in Hmain);
    apply ret_Ok in Hmain as <-; by eauto.
Qed.

End RunChecks.

Section RunOutcomes.
Context `{FileSystem} `{!FileSystemLaws} `{Library}.

Lemma path_exists_Ok p (w w1 : world) (a : bool) :
  path_exists p w = (Ok a, w1) -> a = fs_exists (w_fs w) p /\ w1 = w.
Proof. by intros [= <- <-]. Qed.

Lemma file_op_Raise (op : fs -> option fs) (w w' : world) e :
  file_op op w = (Raise e, w') -> e = OSError.
Proof. unfold file_op. destruct (op (w_fs w)); by intros [= <- _]. Qed.

Lemma read_text_Raise p (w w' : world) e :
  read_text p w = (Raise e, w') -> e = OSError \/ e = UnicodeDecodeError.
Proof.
  unfold read_text. destruct (fs_read_text _ _); [done|].
  intros [= <- _]. destruct (fs_not_utf8 _ _); by eauto.
Qed.

Lemma read_existing_strings_Raise lang_dir (w w' : world) e :
  read_existing_strings lang_dir w = (Raise e, w') ->
  e = OSError \/ e = UnicodeDecodeError.
Proof.
  unfold read_existing_strings.
  intros [[=]|(a & w1 & _ & Hrest)]%bind_Raise.
  destruct a; cbn [negb] in Hrest; [|done].
  apply bind_Raise in Hrest as [?%read_text_Raise|(? & ? & _ & [=])]. done.
Qed.

(** X18. A run that returns 0 found the base file, the language folder and the
    mapping file in place and no archive, and leaves an archive behind. *)
Theorem successful_run_checks
    (script_file : path) (args : Namespace) (w w' : world) :
  let translations_dir := path_parent (path_parent script_file) in
  let mapping_path := path_parent script_file </> str "mapping_2025.csv" in
  let base_strings := translations_dir </> str "values" </> STRINGS_XML in
  let lang_dir := translations_dir </> values_folder (language args) in
  let legacy_dir := translations_dir </> str "legacy" </> values_folder (language args) in
  main script_file args w = (Ok 0%nat, w') ->
  fs_exists (w_fs w) base_strings = true /\
  fs_exists (w_fs w) lang_dir = true /\
  fs_exists (w_fs w) legacy_dir = false /\
  fs_exists (w_fs w) mapping_path = true /\
  fs_exists (w_fs w') legacy_dir = true.
Proof.
  intros translations_dir mapping_path base_strings lang_dir legacy_dir Hmain.
  pose proof (main_leaves_archive _ _ _ _ Hmain) as Harchive.
  unfold main in Hmain.
  fold translations_dir mapping_path base_strings lang_dir legacy_dir in Hmain.
  rewrite bind_path_exists in Hmain.
  destruct (fs_exists (w_fs w) base_strings); cbn [negb] in Hmain;
    [|by apply abort_not_Ok_0 in Hmain].
  rewrite bind_path_exists in Hmain.
  destruct (fs_exists (w_fs w) lang_dir); cbn [negb] in Hmain;
    [|by apply abort_not_Ok_0 in Hmain].
  rewrite bind_path_exists in Hmain.
  destruct (fs_exists (w_fs w) legacy_dir); cbn [negb] in Hmain;
    [by apply abort_not_Ok_0 in Hmain|].
  rewrite bind_path_exists in Hmain.
  destruct (fs_exists (w_fs w) mapping_path); cbn [negb] in Hmain;
    [|by apply abort_not_Ok_0 in Hmain].
  done.
Qed.

(** X20. The [ValueError] of the mapping's header, the csv reader's error, the
    XML parser's error and the [KeyError] of a string element without a name
    come after the move: a run that ends with one of them started without an
    archive and ends with one, the language folder moved there. *)
Theorem late_errors_after_move
    (script_file : path) (args : Namespace) (w w' : world) (e : exn) :
  main script_file args w = (Raise e, w') ->
  (exists header, e = ValueError header) \/ e = CsvError \/ e = ParseError \/
  (exists key, e = KeyError key) ->
  fs_exists (w_fs w) (archive_dir script_file (language args)) = false /\
  fs_exists (w_fs w') (archive_dir script_file (language args)) = true.
Proof.
  intros Hmain Hlate.
  assert (e <> OSError /\ e <> UnicodeDecodeError) as [He He'].
  { destruct Hlate as [[? ->]|[->|[->|[? ->]]]]; by split. }
  unfold main in Hmain.
  rewrite bind_path_exists in Hmain.
  destruct (fs_exists (w_fs w) _); cbn [negb] in Hmain; [|by rewrite abort_run in Hmain].
  rewrite bind_path_exists in Hmain.
  destruct (fs_exists (w_fs w) _); cbn [negb] in Hmain; [|by rewrite abort_run in Hmain].
  rewrite bind_path_exists in Hmain.
  change (path_parent (path_parent script_file) </> str "legacy"
            </> values_folder (language args))
    with (archive_dir script_file (language args)) in Hmain.
  destruct (fs_exists (w_fs w) (archive_dir _ _)) eqn:Hlegacy; cbn [negb] in Hmain;
    [by rewrite abort_run in Hmain|].
  rewrite bind_path_exists in Hmain.
  destruct (fs_exists (w_fs w) (path_parent script_file </> _));
    cbn [negb] in Hmain; [|by rewrite abort_run in Hmain].
  split; [done|].
  apply bind_Raise in Hmain
    as [[?|?]%read_existing_strings_Raise|(existing_strings & w1 & _ & Hmain)];
    [done|done|].
  apply bind_Raise in Hmain as [?%file_op_Raise|(? & w2 & _ & Hmain)]; [done|].
  apply bind_Raise in Hmain as [[=]|(? & w3 & _ & Hmain)].
  apply bind_Raise in Hmain as [?%file_op_Raise|(? & w4 & Hmove & Hmain)]; [done|].
  apply move_Ok in Hmove.
  by apply (main_after_move_keeps _ script_file args existing_strings w4 _ w' Hmain).
Qed.

End RunOutcomes.

(** ** The report and the output *)

Section Report.
Context `{FileSystem} `{Library}.
Variable legacy_strings : gmap (list N) Element.
Variable existing_strings : gmap (list N) (list N).
Variable match_map : gmap (list N) Re.Match.
Variable default_bodies : gmap (list N) (list N).

Lemma filter_all {A} (P : A -> Prop) `{!forall x, Decision (P x)} (l : list A) :
  Forall P l -> filter P l = l.
Proof.
  induction 1 as [|x l Hx _ IH]; [done|]. by rewrite filter_cons, decide_True, IH.
Qed.

Lemma filter_none {A} (P : A -> Prop) `{!forall x, Decision (P x)} (l : list A) :
  Forall (fun x => ~ P x) l -> filter P l = [].
Proof.
  induction 1 as [|x l Hx _ IH]; [done|]. by rewrite filter_cons, decide_False.
Qed.

(** X21. When every pair of the mapping has a new key of the target file and an
    old key with a legacy entry, the report is one line: the number of pairs
    as the number of applied translations. *)
Theorem clean_port_report (mappings : list (list N * option (list N))) (w : world) :
  Forall (fun pair => is_Some (match_map !! pair.1) /\
                      is_Some (dict_get legacy_strings pair.2)) mappings ->
  report_stats
    (apply_mappings mappings legacy_strings existing_strings match_map
       default_bodies).2 w
  = (Ok tt, mkWorld (w_fs w) (w_out w ++ [(Stdout, Applied (length mappings))])).
Proof.
  intros Hclean. rewrite apply_mappings_parts. cbn [snd]. unfold mapping_pass.
  pose proof (foldl_resolve_counters legacy_strings existing_strings match_map
                default_bodies mappings (∅, PortStats_new)) as Hcount.
  cbv zeta in Hcount.
  assert (forall old_key,
            old_key ∉ missing_old
              (foldl (resolve_pair legacy_strings existing_strings match_map
                        default_bodies) (∅, PortStats_new) mappings).2) as Hold.
  { intros old_key. rewrite foldl_resolve_missing_old. cbn.
    intros [?%elem_of_empty|(new_key & Hin & _ & Hnone)]; [done|].
    rewrite Forall_forall in Hclean. destruct (Hclean _ Hin) as [_ [? Hsome]].
    cbn [snd] in Hsome. congruence. }
  assert (forall new_key,
            new_key ∉ missing_new
              (foldl (resolve_pair legacy_strings existing_strings match_map
                        default_bodies) (∅, PortStats_new) mappings).2) as Hnew.
  { intros new_key. rewrite foldl_resolve_missing_new. cbn.
    intros [?%elem_of_empty|[(pair & -> & Hin)%list_elem_of_fmap Hnone]]; [done|].
    rewrite Forall_forall in Hclean. destruct (Hclean _ Hin) as [[? Hsome] _].
    cbn [fst] in Hsome. congruence. }
  apply elem_of_equiv_empty_L in Hold, Hnew.
  set (stats := (foldl _ _ mappings).2) in *.
  unfold recognized in Hcount.
  rewrite (filter_all _ mappings) in Hcount
    by (eapply Forall_impl; [exact Hclean|]; by intros ? [? _]).
  rewrite (filter_all _ mappings) in Hcount
    by (eapply Forall_impl; [exact Hclean|]; by intros ? [_ ?]).
  rewrite !(filter_none _ mappings) in Hcount
    by (eapply Forall_impl; [exact Hclean|]; intros ? [_ ?]; tauto).
  destruct Hcount as (Happlied & Hexisting & Hdefault). cbn in *.
  unfold report_stats. rewrite Happlied, Hexisting, Hdefault, Hold, Hnew.
  reflexivity.
Qed.

End Report.

Section Quiet.
Context `{FileSystem} `{Library}.

Lemma quiet_silent {A} (m : M A) :
  (forall w r w', m w = (r, w') -> w_out w' = w_out w) -> quiet m.
Proof.
  intros Hm w r w' Hrun. exists []. rewrite app_nil_r. split; [by eapply Hm|done].
Qed.

Lemma quiet_ret {A} (a : A) : quiet (ret a).
Proof. apply quiet_silent. by intros w r w' [= _ <-]. Qed.

Lemma quiet_raise {A} e : quiet (@raise _ A e).
Proof. apply quiet_silent. by intros w r w' [= _ <-]. Qed.

Lemma quiet_lift {A} (r : res A) : quiet (lift r).
Proof. apply quiet_silent. by intros w r' w' [= _ <-]. Qed.

Lemma quiet_path_exists p : quiet (path_exists p).
Proof. apply quiet_silent. by intros w r w' [= _ <-]. Qed.

Lemma quiet_read_text p : quiet (read_text p).
Proof.
  apply quiet_silent. intros w r w'. unfold read_text.
  destruct (fs_read_text _ _); by intros [= _ <-].
Qed.

Lemma quiet_file_op (op : fs -> option fs) : quiet (file_op op).
Proof.
  apply quiet_silent. intros w r w'. unfold file_op.
  destruct (op (w_fs w)); by intros [= _ <-].
Qed.

Lemma quiet_print l : quiet (print Stdout l).
Proof.
  intros w r w' [= _ <-]. exists [(Stdout, l)]. split; [done|].
  by repeat constructor.
Qed.

Lemma quiet_bind {A B} (m : M A) (f : A -> M B) :
  quiet m -> (forall a, quiet (f a)) -> quiet (bind m f).
Proof.
  intros Hm Hf w r w'. unfold bind.
  destruct (m w) as [[a|e] w1] eqn:Em.
  - intros Hfa. destruct (Hm _ _ _ Em) as (l1 & Hl1 & Hout1).
    destruct (Hf _ _ _ _ Hfa) as (l2 & Hl2 & Hout2).
    exists (l1 ++ l2). rewrite Hl2, Hl1, app_assoc. split; [done|].
    by apply Forall_app.
  - intros [= <- <-]. by eapply Hm.
Qed.

Lemma quiet_print_if b l : quiet (print_if b l).
Proof. destruct b; [apply quiet_print|apply quiet_ret]. Qed.

Lemma quiet_report_stats stats : quiet (report_stats stats).
Proof.
  unfold report_stats.
  repeat (apply quiet_bind; [first [apply quiet_print|apply quiet_print_if]|intros _]).
  apply quiet_print_if.
Qed.

Lemma quiet_load_mapping p : quiet (load_mapping p).
Proof.
  apply quiet_bind; [apply quiet_read_text|]. intros content.
  cbv zeta. destruct (_ && _); [apply quiet_raise|].
  case_decide; [|apply quiet_raise].
  destruct (csv_error content); [apply quiet_raise|apply quiet_ret].
Qed.

Lemma quiet_read_existing_strings lang_dir : quiet (read_existing_strings lang_dir).
Proof.
  apply quiet_bind; [apply quiet_path_exists|]. intros e.
  destruct e; cbn [negb]; [|apply quiet_ret].
  apply quiet_bind; [apply quiet_read_text|]. intros content. apply quiet_ret.
Qed.

Lemma quiet_rewrite_strings target_content replacements destination :
  quiet (rewrite_strings target_content replacements destination).
Proof.
  unfold rewrite_strings. case_decide; [apply quiet_ret|apply quiet_file_op].
Qed.

Lemma quiet_at_0_quiet (m : M nat) : quiet m -> quiet_at_0 m.
Proof. intros Hm w w' Hrun. by eapply Hm. Qed.

Lemma quiet_at_0_bind {A} (m : M A) (f : A -> M nat) :
  quiet m -> (forall a, quiet_at_0 (f a)) -> quiet_at_0 (bind m f).
Proof.
  intros Hm Hf w w' Hrun.
  apply bind_Ok in Hrun as (a & w1 & Em & Hfa).
  destruct (Hm _ _ _ Em) as (l1 & Hl1 & Hout1).
  destruct (Hf _ _ _ Hfa) as (l2 & Hl2 & Hout2).
  exists (l1 ++ l2). rewrite Hl2, Hl1, app_assoc. split; [done|].
  by apply Forall_app.
Qed.

Lemma quiet_at_0_abort l : quiet_at_0 (print Stderr l ;;; ret 1%nat).
Proof. intros w w' Hrun. by apply abort_not_Ok_0 in Hrun. Qed.

(** X19. A run that returns 0 has printed on standard output only: what it added
    to the output has no line on the error stream. *)
Theorem successful_run_quiet
    (script_file : path) (args : Namespace) (w w' : world) :
  main script_file args w = (Ok 0%nat, w') ->
  exists lines, w_out w' = w_out w ++ lines /\
    Forall (fun l : stream * line => l.1 = Stdout) lines.
Proof.
  revert w w'. change (quiet_at_0 (main script_file args)). unfold main.
  repeat
    (first
       [ apply quiet_at_0_abort
       | apply quiet_at_0_quiet, quiet_ret
       | match goal with
         | |- quiet_at_0 (if ?b then _ else _) => destruct b; cbn [negb]
         | |- quiet_at_0 (let '(_, _) := ?p in _) => destruct p
         | |- quiet_at_0 (bind _ _) =>
             apply quiet_at_0_bind;
               [first [ apply quiet_path_exists | apply quiet_read_existing_strings
                      | apply quiet_file_op | apply quiet_print
                      | apply quiet_load_mapping | apply quiet_read_text
                      | apply quiet_lift | apply quiet_rewrite_strings
                      | apply quiet_report_stats
                      | (destruct (et_parse _); [apply quiet_ret|apply quiet_raise]) ]
               |intros ?]
         end ]).
Qed.

End Quiet.

(** ** The run, step by step *)

Section Trace.
Context `{FileSystem} `{Library}.

Lemma print_Ok to l (w w1 : world) u :
  print to l w = (Ok u, w1) -> w_fs w1 = w_fs w.
Proof. by intros [= _ <-]. Qed.

Lemma file_op_Ok (op : fs -> option fs) (w w1 : world) u :
  file_op op w = (Ok u, w1) -> op (w_fs w) = Some (w_fs w1).
Proof. unfold file_op. destruct (op (w_fs w)); by intros [= _ <-]. Qed.

Lemma read_text_Ok p (w w1 : world) t :
  read_text p w = (Ok t, w1) -> fs_read_text (w_fs w) p = Some t /\ w1 = w.
Proof. unfold read_text. destruct (fs_read_text _ _); by intros [= <- <-]. Qed.

Lemma lift_Ok {A} (r : res A) (w w1 : world) a :
  lift r w = (Ok a, w1) -> r = Ok a /\ w1 = w.
Proof. by intros [= -> <-]. Qed.

Lemma load_mapping_Ok p (w w1 : world) mappings :
  load_mapping p w = (Ok mappings, w1) ->
  w1 = w /\
  exists content,
    fs_read_text (w_fs w) p = Some content /\
    dr_fieldnames (csv_reader content) = Some [NEW_KEY; OLD_KEY] /\
    mappings = (fun row => (default [] (row !! 0%nat), row !! 1%nat))
                 <$> dr_rows (csv_reader content).
Proof.
  unfold load_mapping. intros (content & w2 & [Hread ->]%read_text_Ok & Hrest)%bind_Ok.
  cbv zeta in Hrest. destruct (_ && _); [done|].
  case_decide as Hheader; [|done].
  destruct (csv_error content); [done|].
  injection Hrest as <- <-. split; [done|]. exists content.
  split_and!; [done|done|]. by rewrite foldl_snoc_fmap.
Qed.

Lemma read_existing_strings_Ok lang_dir (w w1 : world) existing_strings :
  read_existing_strings lang_dir w = (Ok existing_strings, w1) -> w1 = w.
Proof.
  unfold read_existing_strings. rewrite bind_path_exists.
  destruct (fs_exists _ _); cbn [negb]; [|by intros [= _ <-]].
  by intros (content & w2 & [_ ->]%read_text_Ok & [= _ <-])%bind_Ok.
Qed.

Lemma report_stats_fs stats (w w1 : world) u :
  report_stats stats w = (Ok u, w1) -> w_fs w1 = w_fs w.
Proof.
  unfold report_stats, print_if, bind, print, ret.
  repeat (destruct (negb _)); by intros [= _ <-].
Qed.

Lemma rewrite_strings_Ok target_content replacements destination (w w1 : world) u :
  rewrite_strings target_content replacements destination w = (Ok u, w1) ->
  if decide (replacements = ∅) then w_fs w1 = w_fs w
  else fs_write_text destination (rewritten target_content replacements) (w_fs w)
       = Some (w_fs w1).
Proof.
  unfold rewrite_strings. case_decide; [by intros [= _ <-]|apply file_op_Ok].
Qed.

(** X23. What a run that returns 0 has done to the files: it made the folder of
    the archives, moved the language folder into it, made the language folder
    anew and copied the base file there; then it read the mapping, the legacy
    file in the archive and the copy of the base file, and wrote over the
    copy, once, what the Rewriter makes of it with the output of the
    Resolution Engine (or wrote nothing, when that output is empty). *)
Theorem successful_run_writes
    (script_file : path) (args : Namespace) (w w' : world) :
  let translations_dir := path_parent (path_parent script_file) in
  let mapping_path := path_parent script_file </> str "mapping_2025.csv" in
  let base_strings := translations_dir </> str "values" </> STRINGS_XML in
  let lang_dir := translations_dir </> values_folder (language args) in
  let legacy_dir := translations_dir </> str "legacy" </> values_folder (language args) in
  let target_strings_path := lang_dir </> STRINGS_XML in
  main script_file args w = (Ok 0%nat, w') ->
  exists s1 s2 s3 s4 existing_strings mapping_content legacy_content legacy_root
         legacy_strings target_content,
    read_existing_strings lang_dir w = (Ok existing_strings, w) /\
    fs_mkdir (path_parent legacy_dir) (w_fs w) = Some s1 /\
    fs_move lang_dir legacy_dir s1 = Some s2 /\
    fs_mkdir lang_dir s2 = Some s3 /\
    fs_copy2 base_strings target_strings_path s3 = Some s4 /\
    fs_read_text s4 mapping_path = Some mapping_content /\
    dr_fieldnames (csv_reader mapping_content) = Some [NEW_KEY; OLD_KEY] /\
    fs_read_text s4 (legacy_dir </> STRINGS_XML) = Some legacy_content /\
    et_parse legacy_content = Some legacy_root /\
    by_attrib (str "name") (findall legacy_root (str "string")) = Ok legacy_strings /\
    fs_read_text s4 target_strings_path = Some target_content /\
    let mappings :=
      (fun row => (default [] (row !! 0%nat), row !! 1%nat))
        <$> dr_rows (csv_reader mapping_content) in
    let matches := Re.finditer STRING_RE target_content in
    let match_map :=
      foldl (fun d m => <[group_str m g_name := m]> d)
            (∅ : gmap (list N) Re.Match) matches in
    let replacements :=
      (apply_mappings mappings legacy_strings existing_strings match_map
         (parse_string_bodies target_content)).1 in
    if decide (replacements = ∅) then w_fs w' = s4
    else fs_write_text target_strings_path
           (rewritten target_content replacements) s4 = Some (w_fs w').
Proof.
  intros translations_dir mapping_path base_strings lang_dir legacy_dir
    target_strings_path Hmain.
  unfold main in Hmain.
  fold translations_dir mapping_path base_strings lang_dir legacy_dir in Hmain.
  rewrite bind_path_exists in Hmain.
  destruct (fs_exists (w_fs w) base_strings); cbn [negb] in Hmain;
    [|by apply abort_not_Ok_0 in Hmain].
  rewrite bind_path_exists in Hmain.
  destruct (fs_exists (w_fs w) lang_dir); cbn [negb] in Hmain;
    [|by apply abort_not_Ok_0 in Hmain].
  rewrite bind_path_exists in Hmain.
  destruct (fs_exists (w_fs w) legacy_dir); cbn [negb] in Hmain;
    [by apply abort_not_Ok_0 in Hmain|].
  rewrite bind_path_exists in Hmain.
  destruct (fs_exists (w_fs w) mapping_path); cbn [negb] in Hmain;
    [|by apply abort_not_Ok_0 in Hmain].
  apply bind_Ok in Hmain as (existing_strings & w1 & Hexisting & Hmain).
  apply read_existing_strings_Ok in Hexisting as Hw1. subst w1.
  apply bind_Ok in Hmain as (? & w2 & Hmkdir%file_op_Ok & Hmain).
  apply bind_Ok in Hmain as (? & w3 & Hprint3%print_Ok & Hmain).
  apply bind_Ok in Hmain as (? & w4 & Hmove%file_op_Ok & Hmain).
  apply bind_Ok in Hmain as (? & w5 & Hprint5%print_Ok & Hmain).
  apply bind_Ok in Hmain as (? & w6 & Hmkdir'%file_op_Ok & Hmain).
  apply bind_Ok in Hmain as (? & w7 & Hcopy%file_op_Ok & Hmain).
  apply bind_Ok in Hmain as (? & w8 & Hprint8%print_Ok & Hmain).
  apply bind_Ok in Hmain
    as (mappings & w9 & (-> & content & Hread & Hheader & ->)%load_mapping_Ok & Hmain).
  apply bind_Ok in Hmain as (? & w10 & Hprint10%print_Ok & Hmain).
  rewrite bind_path_exists in Hmain.
  destruct (fs_exists (w_fs w10) _); cbn [negb] in Hmain;
    [|by apply abort_not_Ok_0 in Hmain].
  apply bind_Ok in Hmain
    as (legacy_content & w11 & [Hlegacy ->]%read_text_Ok & Hmain).
  apply bind_Ok in Hmain as (legacy_root & w12 & Hparse & Hmain).
  destruct (et_parse legacy_content) as [root|] eqn:Hroot; [|done].
  injection Hparse as -> <-.
  apply bind_Ok in Hmain as (legacy_strings & w13 & [Hattrib ->]%lift_Ok & Hmain).
  apply bind_Ok in Hmain
    as (target_content & w14 & [Htarget ->]%read_text_Ok & Hmain).
  destruct (apply_mappings _ _ _ _ _) as [replacements stats] eqn:Hport.
  apply bind_Ok in Hmain as (? & w15 & Hwrite%rewrite_strings_Ok & Hmain).
  apply bind_Ok in Hmain as (? & w16 & Hreport%report_stats_fs & Hmain).
  injection Hmain as <-.
  rewrite Hprint3 in Hmove. rewrite Hprint5 in Hmkdir'.
  rewrite Hprint10, Hprint8 in *.
  exists (w_fs w2), (w_fs w4), (w_fs w6), (w_fs w7), existing_strings, content,
    legacy_content, legacy_root, legacy_strings, target_content.
  split_and!; [done..|]. cbv zeta.
  change (foldl (fun d m => <[group_str m g_name := group_str m g_body]> d) ∅
            (Re.finditer STRING_RE target_content))
    with (parse_string_bodies target_content) in Hport.
  rewrite Hport. cbn [fst]. rewrite Hreport. exact Hwrite.
Qed.

End Trace.

(** * Examples, witnesses and counterexamples *)

Section SampleRun.

Example sample_csv :
  RunLib.plain_csv Sample.mapping_text
  = [[NEW_KEY; OLD_KEY]; [str "new_a"; str "old_a"]; [str "new_b"; str "old_x"]].
Proof. by vm_compute. Qed.

(** The scenario of the specification, as a run of the script: [new_a] takes
    the legacy translation of [old_a], [new_b] keeps its existing translation
    since [old_x] has no legacy entry; the script reports one applied and one
    kept translation and one missing legacy key, and returns 0. *)
Example sample_run :
  (@main mem_fs Sample.lib Sample.script_file Sample.args Sample.start).1 = Ok 0%nat /\
  MemFS.read_text (w_fs Sample.ported)
    (Sample.repo ++ [str "values-pt"; str "strings.xml"]) = Some Sample.ported_text /\
  MemFS.read_text (w_fs Sample.ported)
    (Sample.repo ++ [str "legacy"; str "values-pt"; str "strings.xml"])
  = Some Sample.old_text /\
  List.map snd (w_out Sample.ported)
  = [Moving (Sample.repo ++ [str "values-pt"])
            (Sample.repo ++ [str "legacy"; str "values-pt"]);
     Creating (Sample.repo ++ [str "values-pt"]);
     LoadingMapping;
     LoadingLegacy (Sample.repo ++ [str "legacy"; str "values-pt"; str "strings.xml"]);
     Applied 1; Kept 1; SkippedOld 1].
Proof. by vm_compute. Qed.

End SampleRun.

Section Witnesses.

(** C2. A legacy entry whose body holds an escape sequence: the run succeeds,
    the archived file still has the entry's text [Tom &amp; Jerry], which is
    what [parse_string_bodies] reads as its body, and the file the run writes
    has [Tom & Jerry] under the new key: [element_inner_xml] puts the decoded
    text of the element back as it is, where a child goes through [tostring]. *)
Theorem legacy_escape_is_lost :
  let run :=
    @main mem_fs Escaped.lib Sample.script_file Sample.args Escaped.start in
  let legacy_file :=
    Sample.repo ++ [str "legacy"; str "values-pt"; str "strings.xml"] in
  let output_file := Sample.repo ++ [str "values-pt"; str "strings.xml"] in
  run.1 = Ok 0%nat /\
  fs_read_text (w_fs run.2) legacy_file = Some Escaped.old_text /\
  parse_string_bodies Escaped.old_text !! str "old_a"
  = Some (str "Tom &amp; Jerry") /\
  fs_read_text (w_fs run.2) output_file = Some Escaped.ported_text /\
  parse_string_bodies Escaped.ported_text !! str "new_a"
  = Some (str "Tom & Jerry") /\
  str "Tom & Jerry" <> str "Tom &amp; Jerry".
Proof. cbv zeta. split_and!; by vm_compute. Qed.

(** Two pairs for one new key: the pair [(a, old_a)] has a target key and a
    legacy entry, and yet the output for [a] is the existing translation,
    taken by the later pair [(a, old_x)]. *)
Lemma later_pair_overrides_legacy :
  ~ @legacy_always_wins Sample.lib
      [(str "a", Some (str "old_a")); (str "a", Some (str "old_x"))]
      {[ str "old_a" := Sample.string_elem (str "old_a") (str "Hello") ]}
      {[ str "a" := str "Ola" ]}
      {[ str "a" := Sample.some_match ]}
      {[ str "a" := str "Hi" ]}.
Proof.
  intros Hclaim.
  specialize (Hclaim (str "a") (str "old_a")
                (Sample.string_elem (str "old_a") (str "Hello"))).
  assert (is_Some (({[ str "a" := Sample.some_match ]}
                      : gmap (list N) Re.Match) !! str "a")) as Htarget
    by (by vm_compute; eauto).
  specialize (Hclaim ltac:(set_solver) Htarget eq_refl).
  by vm_compute in Hclaim.
Qed.

(** X24 on two pairs for one key. *)
Lemma last_legacy_pair_wins_witness :
  (@apply_mappings Sample.lib
     [(str "a", Some (str "old_x")); (str "a", Some (str "old_a"));
      (str "b", Some (str "old_b"))]
     {[ str "old_a" := Sample.string_elem (str "old_a") (str "Hello") ]}
     {[ str "a" := str "Ola" ]}
     {[ str "a" := Sample.some_match ]}
     {[ str "a" := str "Hi" ]}).1 !! str "a"
  = Some (@element_inner_xml Sample.lib
            (Sample.string_elem (str "old_a") (str "Hello"))).
Proof.
  apply (@last_legacy_pair_wins Sample.lib _ _ _ _
           [(str "a", Some (str "old_x"))] [(str "b", Some (str "old_b"))]).
  - by vm_compute; eauto.
  - by vm_compute.
  - apply not_elem_of_cons. split; [by vm_compute|apply not_elem_of_nil].
Defined.

(** C5, the claim as stated: a body that closes its entry and opens another
    one adds a key. *)
Lemma body_with_tags_adds_key :
  keys_of (Re.finditer STRING_RE
             (rewritten Sample.one_entry
                {[ str "a" := str "</string>" ++ str "<string name="
                              ++ Sample.quoted (str "b") ++ str ">y" ]}))
  <> keys_of (Re.finditer STRING_RE Sample.one_entry).
Proof. by vm_compute. Qed.

(** The double quote of a body closes the name that an opening tag leaves
    open, and the matcher reads another key. *)
Example quote_closes_open_name :
  name_open (str "<string name=" ++ Sample.quoted (str "name=") ++ str ">") = true /\
  keys_of (Re.finditer STRING_RE Sample.open_entry) = [str "name="] /\
  keys_of (Re.finditer STRING_RE
             (rewritten Sample.open_entry {[ str "name=" := [dquote; gt] ]}))
  = [[gt]].
Proof. by vm_compute. Qed.

Lemma sample_bodies_fit m body :
  m ∈ Re.finditer STRING_RE Sample.base_text ->
  Sample.resolution !! group_str m g_name = Some body ->
  fits (group_str m 1) body.
Proof.
  intros Hm. revert body. revert m Hm.
  apply (proj1 (Forall_forall
                  (fun m => forall body,
                     Sample.resolution !! group_str m g_name = Some body ->
                     fits (group_str m 1) body) _)).
  set (ms := Re.finditer STRING_RE Sample.base_text). vm_compute in ms. subst ms.
  apply List.Forall_cons; [|apply List.Forall_cons; [|apply List.Forall_nil]];
    intros body Hbody; vm_compute in Hbody; injection Hbody as <-;
    (split; [intros [x Hx]; by vm_compute in Hx|intros Hopen; by vm_compute in Hopen]).
Defined.

Lemma rewritten_keeps_keys_witness :
  keys_of (Re.finditer STRING_RE (rewritten Sample.base_text Sample.resolution))
  = keys_of (Re.finditer STRING_RE Sample.base_text).
Proof. apply rewritten_keeps_keys, sample_bodies_fit. Defined.

(** C6, the claim as stated: of a body with a closing tag in it, the
    extractor reads back the part before that tag. *)
Lemma body_with_close_is_cut :
  parse_string_bodies
    (rewritten Sample.one_entry {[ str "a" := str "y</string>z" ]}) !! str "a"
  = Some (str "y") /\
  ({[ str "a" := str "y</string>z" ]} : gmap (list N) (list N)) !! str "a"
  = Some (str "y</string>z") /\
  str "y" <> str "y</string>z".
Proof. by vm_compute. Qed.

Lemma reextract_resolved_witness :
  parse_string_bodies
    (rewritten Sample.base_text Sample.resolution) !! str "new_a"
  = Some (Sample.quoted (str "Hello")).
Proof.
  apply reextract_resolved.
  - apply sample_bodies_fit.
  - by vm_compute.
  - vm_compute. apply list_elem_of_here.
Defined.

(** C8 on the sample mapping file, and on the one with its columns the other
    way round. *)
Lemma load_mapping_header_witness :
  @load_mapping mem_fs Sample.lib
    (Sample.repo ++ [str "scripts"; str "mapping_2025.csv"]) Sample.start
  = (Ok [(str "new_a", Some (str "old_a")); (str "new_b", Some (str "old_x"))],
     Sample.start) /\
  @load_mapping mem_fs Sample.lib
    (Sample.repo ++ [str "scripts"; str "mapping_2025.csv"]) Faulty.start
  = (Raise (ValueError (Some [OLD_KEY; NEW_KEY])), Faulty.start).
Proof.
  split.
  - destruct (@load_mapping_header mem_fs Sample.lib
                (Sample.repo ++ [str "scripts"; str "mapping_2025.csv"])
                Sample.start Sample.mapping_text eq_refl) as [Hplain _].
    destruct (Hplain ltac:(by vm_compute)) as (_ & Hok & _).
    rewrite Hok; [|by vm_compute]. by vm_compute.
  - destruct (@load_mapping_header mem_fs Sample.lib
                (Sample.repo ++ [str "scripts"; str "mapping_2025.csv"])
                Faulty.start Faulty.mapping_text eq_refl) as [Hplain _].
    destruct (Hplain ltac:(by vm_compute)) as (Hwrong & _).
    rewrite Hwrong; [|by vm_compute]. by vm_compute.
Defined.

(** C8 does not hold of a mapping file with a field over the csv reader's
    limit: the header is the expected one, and the loader still fails, with the
    reader's error and not one that lists the header. *)
Lemma oversize_field_raises :
  fs_read_text (w_fs Oversize.start)
    (Sample.repo ++ [str "scripts"; str "mapping_2025.csv"])
  = Some Oversize.mapping_text /\
  dr_fieldnames (@csv_reader Sample.lib Oversize.mapping_text)
  = Some [NEW_KEY; OLD_KEY] /\
  (@load_mapping mem_fs Sample.lib
     (Sample.repo ++ [str "scripts"; str "mapping_2025.csv"]) Oversize.start).1
  = Raise CsvError.
Proof.
  assert (fs_read_text (w_fs Oversize.start)
            (Sample.repo ++ [str "scripts"; str "mapping_2025.csv"])
          = Some Oversize.mapping_text) as Hread.
  { cbn [w_fs Oversize.start fs_read_text mem_fs].
    unfold MemFS.read_text, Oversize.files, MemFS.put. by rewrite decide_True. }
  destruct (oversize_row Oversize.long_field) as [Hrows Herror].
  { by intros [[=] _]%elem_of_replicate. }
  { by intros [[=] _]%elem_of_replicate. }
  { unfold Oversize.long_field. rewrite length_replicate, N2Nat.id. lia. }
  change (RunLib.read_rows Oversize.mapping_text = [[NEW_KEY; OLD_KEY]]) in Hrows.
  change (RunLib.read_error Oversize.mapping_text = true) in Herror.
  split_and!; [done|..].
  - change (csv_reader Oversize.mapping_text)
      with (RunLib.read_rows Oversize.mapping_text). by rewrite Hrows.
  - unfold load_mapping, bind, read_text. rewrite Hread. cbv zeta.
    change (csv_reader Oversize.mapping_text)
      with (RunLib.read_rows Oversize.mapping_text).
    change (csv_error Oversize.mapping_text)
      with (RunLib.read_error Oversize.mapping_text).
    rewrite Hrows, Herror. done.
Qed.

(** C9 on the sample run: the first run returns 0, and the second one stops
    at the archive. *)
Lemma existing_archive_aborts_witness :
  @script mem_fs Sample.lib Sample.script_file Sample.args Sample.ported
  = (1%nat,
     refused Sample.ported
       (LegacyExists (Sample.repo ++ [str "legacy"; str "values-pt"]))).
Proof.
  destruct (@existing_archive_aborts mem_fs _ Sample.lib Sample.script_file
              Sample.args Sample.ported) as (_ & Hstop & _).
  apply Hstop; by vm_compute.
Defined.

(** C4 on the sample base file. *)
Lemma rewrite_strings_frame_witness :
  exists entries tail,
    Sample.base_text = document entries tail /\
    length entries = 2%nat /\
    @rewrite_strings mem_fs Sample.base_text
      {[ str "new_a" := str "Hello"; str "new_b" := str "Ola" ]}
      (Sample.repo ++ [str "values-pt"; str "strings.xml"]) Sample.start
    = @write_text mem_fs (Sample.repo ++ [str "values-pt"; str "strings.xml"])
        (document
           (resolve_body {[ str "new_a" := str "Hello"; str "new_b" := str "Ola" ]}
              <$> entries) tail)
        Sample.start.
Proof.
  destruct (@rewrite_strings_frame mem_fs Sample.base_text
              {[ str "new_a" := str "Hello"; str "new_b" := str "Ola" ]}
              (Sample.repo ++ [str "values-pt"; str "strings.xml"]) Sample.start)
    as (entries & tail & Htext & Hparts & Hwrite & _).
  exists entries, tail. split_and!; [done| |].
  - apply (f_equal length) in Hparts. rewrite !length_fmap in Hparts.
    rewrite Hparts. by vm_compute.
  - apply Hwrite. intros Hempty.
    apply (f_equal (fun m : gmap (list N) (list N) => m !! str "new_a")) in Hempty.
    by vm_compute in Hempty.
Defined.

End Witnesses.

Section MoreWitnesses.

(** X10 on the sample. *)
Lemma output_bodies_sourced_witness :
  @sourced Sample.lib Scenario.legacy_strings Scenario.existing_strings
    Scenario.default_bodies Scenario.mappings (str "new_b") (str "Ola").
Proof.
  apply (@output_bodies_sourced Sample.lib Scenario.legacy_strings
           Scenario.existing_strings Scenario.match_map Scenario.default_bodies).
  by vm_compute.
Defined.

(** X2 on the sample. *)
Lemma extracted_entries_shape_witness :
  str "new_a" <> [] /\ Forall (fun c => c <> dquote) (str "new_a") /\
  ~ has_close (str "Hi").
Proof. apply (extracted_entries_shape Sample.base_text). by vm_compute. Defined.

(** X3 on the sample. *)
Lemma rewritten_same_bodies_witness :
  rewritten Sample.base_text {[ str "new_a" := str "Hi"; str "other" := str "x" ]}
  = Sample.base_text.
Proof.
  apply rewritten_same_bodies. intros m body Hm. revert body. revert m Hm.
  apply (proj1 (Forall_forall
                  (fun m => forall body,
                     ({[ str "new_a" := str "Hi"; str "other" := str "x" ]}
                        : gmap (list N) (list N)) !! group_str m g_name = Some body ->
                     body = group_str m g_body) _)).
  set (ms := Re.finditer STRING_RE Sample.base_text). vm_compute in ms. subst ms.
  apply List.Forall_cons; [|apply List.Forall_cons; [|apply List.Forall_nil]];
    intros body Hbody; vm_compute in Hbody; by simplify_eq.
Defined.

(** X4 on the sample. *)
Lemma rewritten_with_own_bodies_witness :
  rewritten Sample.base_text (parse_string_bodies Sample.base_text)
  = Sample.base_text.
Proof.
  apply rewritten_with_own_bodies.
  apply (bool_decide_unpack _). by vm_compute.
Defined.

(** X5 on the sample. *)
Lemma rewritten_twice_witness :
  rewritten (rewritten Sample.base_text Sample.resolution) Sample.resolution
  = rewritten Sample.base_text Sample.resolution.
Proof. apply rewritten_twice, sample_bodies_fit. Defined.

(** X6 on the sample. *)
Lemma reextracted_bodies_witness :
  parse_string_bodies (rewritten Sample.base_text Sample.resolution) !! str "new_b"
  = (fun body => default body (Sample.resolution !! str "new_b"))
      <$> parse_string_bodies Sample.base_text !! str "new_b".
Proof. apply reextracted_bodies, sample_bodies_fit. Defined.

(** X12 on the sample. *)
Lemma element_inner_xml_verbatim_witness :
  @element_inner_xml Sample.lib Sample.old_root
  = default [] (elem_text Sample.old_root)
    ++ concat (@tostring Sample.lib <$> elem_children Sample.old_root).
Proof.
  apply (@element_inner_xml_verbatim Sample.lib).
  apply List.Forall_cons; [|apply List.Forall_cons; [|apply List.Forall_nil]];
    by vm_compute.
Defined.

(** X16 on the sample. *)
Lemma failed_check_aborts_witness :
  @script mem_fs Sample.lib Sample.script_file Sample.args Scenario.empty
  = (1%nat,
     refused Scenario.empty
       (MissingBase (Sample.repo ++ [str "values"; str "strings.xml"]))).
Proof.
  exact (@failed_check_aborts mem_fs Sample.lib Sample.script_file Sample.args
           Scenario.empty eq_refl).
Defined.

Lemma sample_first_run :
  @main mem_fs Sample.lib Sample.script_file Sample.args Sample.start
  = (Ok 0%nat, Sample.ported).
Proof.
  unfold Sample.ported.
  destruct (@main mem_fs Sample.lib Sample.script_file Sample.args Sample.start)
    as [r w'] eqn:Hrun.
  cbn [snd]. f_equal. change r with (r, w').1. rewrite <-Hrun. by vm_compute.
Defined.

(** X18 on the sample. *)
Lemma successful_run_checks_witness :
  let translations_dir := path_parent (path_parent Sample.script_file) in
  let legacy_dir := translations_dir </> str "legacy" </> values_folder (language Sample.args) in
  fs_exists (w_fs Sample.start) (translations_dir </> str "values" </> STRINGS_XML) = true /\
  fs_exists (w_fs Sample.start) (translations_dir </> values_folder (language Sample.args)) = true /\
  fs_exists (w_fs Sample.start) legacy_dir = false /\
  fs_exists (w_fs Sample.start) (path_parent Sample.script_file </> str "mapping_2025.csv") = true /\
  fs_exists (w_fs Sample.ported) legacy_dir = true.
Proof.
  exact (@successful_run_checks mem_fs _ Sample.lib Sample.script_file Sample.args
           Sample.start Sample.ported sample_first_run).
Defined.

(** X19 on the sample. *)
Lemma successful_run_quiet_witness :
  exists lines, w_out Sample.ported = w_out Sample.start ++ lines /\
    Forall (fun l : stream * line => l.1 = Stdout) lines.
Proof.
  exact (@successful_run_quiet mem_fs Sample.lib Sample.script_file Sample.args
           Sample.start Sample.ported sample_first_run).
Defined.

Lemma faulty_run :
  let run := @main mem_fs Sample.lib Sample.script_file Sample.args Faulty.start in
  run = (Raise (ValueError (Some [OLD_KEY; NEW_KEY])), run.2).
Proof.
  cbv zeta.
  destruct (@main mem_fs Sample.lib Sample.script_file Sample.args Faulty.start)
    as [r w'] eqn:Hrun.
  cbn [snd]. f_equal. change r with (r, w').1. rewrite <-Hrun. by vm_compute.
Defined.

(** X20 on the sample. *)
Lemma late_errors_after_move_witness :
  let run := @main mem_fs Sample.lib Sample.script_file Sample.args Faulty.start in
  fs_exists (w_fs Faulty.start) (archive_dir Sample.script_file (language Sample.args))
  = false /\
  fs_exists (w_fs run.2) (archive_dir Sample.script_file (language Sample.args))
  = true.
Proof.
  exact (@late_errors_after_move mem_fs _ Sample.lib Sample.script_file Sample.args
           Faulty.start _ _ faulty_run (or_introl (ex_intro _ _ eq_refl))).
Defined.

(** X21 on the sample. *)
Lemma clean_port_report_witness :
  @report_stats mem_fs
    (@apply_mappings Sample.lib [(str "new_a", Some (str "old_a"))]
       Scenario.legacy_strings Scenario.existing_strings Scenario.match_map
       Scenario.default_bodies).2 Sample.start
  = (Ok tt,
     mkWorld (w_fs Sample.start) (w_out Sample.start ++ [(Stdout, Applied 1)])).
Proof.
  apply (@clean_port_report mem_fs Sample.lib).
  apply List.Forall_cons; [|apply List.Forall_nil].
  split; by vm_compute; eexists.
Defined.

End MoreWitnesses.

Section TraceWitnesses.

(** X22 on the sample. *)
Lemma match_spans_entry_witness :
  slice Sample.one_entry (Re.m_start Scenario.first_match)
        (Re.m_end Scenario.first_match)
  = group_str Scenario.first_match 0 /\
  group_str Scenario.first_match 0
  = group_str Scenario.first_match 1 ++ group_str Scenario.first_match g_body
    ++ group_str Scenario.first_match 4 /\
  group_str Scenario.first_match 4 = STRING_CLOSE /\
  opening_tag (group_str Scenario.first_match 1)
              (group_str Scenario.first_match g_name).
Proof.
  apply match_spans_entry. vm_compute. apply list_elem_of_here.
Defined.

(** X23 on the sample. *)
Lemma successful_run_writes_witness :
  let translations_dir := path_parent (path_parent Sample.script_file) in
  let mapping_path := path_parent Sample.script_file </> str "mapping_2025.csv" in
  let base_strings := translations_dir </> str "values" </> STRINGS_XML in
  let lang_dir := translations_dir </> values_folder (language Sample.args) in
  let legacy_dir :=
    translations_dir </> str "legacy" </> values_folder (language Sample.args) in
  let target_strings_path := lang_dir </> STRINGS_XML in
  exists s1 s2 s3 s4 existing_strings mapping_content legacy_content legacy_root
         legacy_strings target_content,
    @read_existing_strings mem_fs lang_dir Sample.start
    = (Ok existing_strings, Sample.start) /\
    fs_mkdir (path_parent legacy_dir) (w_fs Sample.start) = Some s1 /\
    fs_move lang_dir legacy_dir s1 = Some s2 /\
    fs_mkdir lang_dir s2 = Some s3 /\
    fs_copy2 base_strings target_strings_path s3 = Some s4 /\
    fs_read_text s4 mapping_path = Some mapping_content /\
    dr_fieldnames (@csv_reader Sample.lib mapping_content) = Some [NEW_KEY; OLD_KEY] /\
    fs_read_text s4 (legacy_dir </> STRINGS_XML) = Some legacy_content /\
    @et_parse Sample.lib legacy_content = Some legacy_root /\
    by_attrib (str "name") (findall legacy_root (str "string")) = Ok legacy_strings /\
    fs_read_text s4 target_strings_path = Some target_content /\
    let mappings :=
      (fun row => (default [] (row !! 0%nat), row !! 1%nat))
        <$> dr_rows (@csv_reader Sample.lib mapping_content) in
    let matches := Re.finditer STRING_RE target_content in
    let match_map :=
      foldl (fun d m => <[group_str m g_name := m]> d)
            (∅ : gmap (list N) Re.Match) matches in
    let replacements :=
      (@apply_mappings Sample.lib mappings legacy_strings existing_strings match_map
         (parse_string_bodies target_content)).1 in
    if decide (replacements = ∅) then w_fs Sample.ported = s4
    else fs_write_text target_strings_path
           (rewritten target_content replacements) s4 = Some (w_fs Sample.ported).
Proof.
  exact (@successful_run_writes mem_fs Sample.lib Sample.script_file Sample.args
           Sample.start Sample.ported sample_first_run).
Defined.

End TraceWitnesses.
